(** * Surface spectra: coordinate transform, spectrogram synthesizer and
      wave engines

    A shallow embedding of
      - [client/src/lib/coordinateTransform.ts]  (module [CoordinateTransform]),
      - [client/src/lib/polarWaveEngine.ts]      (module [PolarWaveEngine]),
      - [client/src/lib/waveEngine.ts]           (module [WaveEngine]),
      - [client/src/lib/polarField.ts]           (module [PolarFieldOps]),
      - the wedge mesh of [threeSetup.ts]        (module [ThreeJSSetup]),
      - [client/src/lib/polarThreeSetup.ts]      (module [PolarThreeSetup]).

    Number model.  A TypeScript [number] is embedded as a real number of the
    Standard Library ([R]): arithmetic is exact, there is no rounding, no NaN
    and no infinity.  [Math.floor] is [Zfloor], [Math.abs] is [Rabs],
    [Math.max]/[Math.min] are [Rmax]/[Rmin], [Math.tan], [Math.sin],
    [Math.cos], [Math.exp], [Math.log] are [tan], [sin], [cos], [exp], [ln].
    Quantities that the code only ever uses as integers (bin indices, time
    indices, the id counter) are [Z] or [nat].  [Math.random()] is a draw
    handed to the synthesizer as an argument: the i-th call returns
    [noise i].

    Rounding.  Where a property is an equality between computed numbers
    or a tolerance, the rounding of the code decides it.  For those the
    coordinate transform is embedded twice more: over the reals with a
    rounding after every operation ([CoordinateTransformRounded]), and
    over the binary64 floats of the kernel ([CoordinateTransform64]),
    where it can be run on a given input.  The mesh of the polar field
    keeps its heights in single precision; that store is a parameter of
    [PolarThreeSetup]. *)

From Stdlib Require Import Reals Lra Lia ZArith List Bool String.
From Stdlib Require Import RList FinFun DecimalString DecimalNat.
From Stdlib Require Floats.
Import ListNotations.

Open Scope R_scope.

(* ================================================================== *)
(** * Part I: the embedding *)

(** ** Comparisons of numbers as booleans *)

Definition Rltb (a b : R) : bool := if Rlt_dec a b then true else false.
Definition Rgtb (a b : R) : bool := Rltb b a.
Definition Rleb (a b : R) : bool := if Rle_dec a b then true else false.
Definition Rgeb (a b : R) : bool := Rleb b a.
Definition Reqb (a b : R) : bool := if Req_dec_T a b then true else false.

(** ** coordinateTransform.ts *)

Module CoordinateTransform.

Record LogicalCoordinates := mkLogical { frequency : R; time : R }.
Record DisplayCoordinates := mkDisplay { x : R; y : R; z : R }.

(** [private readonly params] *)
Definition arcSpan : R := PI / 3.
Definition maxRadius : R := 10.
Definition mouthWidth : R := 0.3.

Definition logicalToDisplay (logical : LogicalCoordinates)
  : DisplayCoordinates :=
  let radius := time logical * maxRadius in
  let isLeftHalf := Rltb (frequency logical) 0.5 in
  let normalizedFreq :=
    if isLeftHalf then (0.5 - frequency logical) * 2
    else (frequency logical - 0.5) * 2 in
  let angle :=
    if isLeftHalf then - normalizedFreq * (arcSpan / 2)
    else normalizedFreq * (arcSpan / 2) in
  let currentWidth := mouthWidth + radius * tan (arcSpan / 2) in
  let x := currentWidth * (angle / (arcSpan / 2)) in
  {| x := x; y := 0; z := radius |}.

Definition displayToLogical (display : DisplayCoordinates)
  : LogicalCoordinates :=
  let radius := z display in
  let time := radius / maxRadius in
  let isLeftHalf := Rltb (x display) 0 in
  let currentWidth := mouthWidth + radius * tan (arcSpan / 2) in
  if Reqb currentWidth 0 then
    {| frequency := 0.5; time := Rmax 0 (Rmin 1 time) |}
  else
    let normalizedPosition := Rabs (x display) / currentWidth in
    let normalizedFreq := Rmax 0 (Rmin 1 normalizedPosition) in
    let frequency :=
      if isLeftHalf then 0.5 - normalizedFreq * 0.5
      else 0.5 + normalizedFreq * 0.5 in
    {| frequency := Rmax 0 (Rmin 1 frequency);
       time := Rmax 0 (Rmin 1 time) |}.

Definition isWithinBounds (logical : LogicalCoordinates) : bool :=
  Rgeb (frequency logical) 0 && Rleb (frequency logical) 1 &&
  Rgeb (time logical) 0 && Rleb (time logical) 1.

Definition getMaxWidthAtTime (time : R) : R :=
  let radius := time * maxRadius in
  radius * tan (arcSpan / 2).

(** [generateTestGrid(frequencySteps, timeSteps)], both 21 by default.
    The step counts are the loop bounds, taken as naturals.  With a
    single step the source divides 0 by 0; the model is meant for two
    steps or more. *)
Definition generateTestGrid (frequencySteps timeSteps : nat)
  : list DisplayCoordinates :=
  flat_map
    (fun f =>
       flat_map
         (fun t =>
            let frequency := INR f / (INR frequencySteps - 1) in
            let time := INR t / (INR timeSteps - 1) in
            if Rltb time 0.05 then []
            else [logicalToDisplay {| frequency := frequency;
                                      time := time |}])
         (seq 0 timeSteps))
    (seq 0 frequencySteps).

End CoordinateTransform.

(** ** coordinateTransform.ts with the rounding of the code

    In [CoordinateTransformRounded] a number is still a real number, but
    every arithmetic operation of the source is followed by [rnd], the
    rounding to a double.  All that is assumed of [rnd] is the error
    bound of rounding to nearest in binary64, [roundsLikeBinary64]: a
    relative error of at most 2^-53, or an absolute error of at most
    2^-1075 where the result is subnormal.  Comparisons, negation,
    [Math.abs], [Math.max] and [Math.min] are exact.  No number of the
    transform comes near the overflow threshold.  [Math.tan] is a
    parameter, of which [tangentInRange] is assumed. *)

Definition unitRoundoff : R := / 2 ^ 53.
Definition underflowUnit : R := / 2 ^ 1075.

Definition roundsLikeBinary64 (rnd : R -> R) : Prop :=
  forall v, Rabs (rnd v - v) <= unitRoundoff * Rabs v + underflowUnit.

Definition tangentInRange (Math_tan : R -> R) : Prop :=
  forall v, 0 <= v <= 0.7 -> 0 <= Math_tan v <= 1.

Module CoordinateTransformRounded.
Import CoordinateTransform.

Section Arithmetic.
Variable rnd : R -> R.
Variable Math_tan : R -> R.

(** [Math.PI] and the literal [0.3] are the doubles nearest to pi and to
    three tenths; 0.5, 2 and 10 are doubles. *)
Definition Math_PI : R := rnd PI.
Definition arcSpan : R := rnd (Math_PI / 3).
Definition maxRadius : R := 10.
Definition mouthWidth : R := rnd 0.3.

(** [this.params.arcSpan / 2] *)
Definition halfArc : R := rnd (arcSpan / 2).

(** [const currentWidth], computed by the same expression in both
    methods. *)
Definition currentWidth (radius : R) : R :=
  rnd (mouthWidth + rnd (radius * Math_tan halfArc)).

Definition logicalToDisplay (logical : LogicalCoordinates)
  : DisplayCoordinates :=
  let radius := rnd (time logical * maxRadius) in
  let isLeftHalf := Rltb (frequency logical) 0.5 in
  let normalizedFreq :=
    if isLeftHalf then rnd (rnd (0.5 - frequency logical) * 2)
    else rnd (rnd (frequency logical - 0.5) * 2) in
  let angle :=
    if isLeftHalf then rnd (- normalizedFreq * halfArc)
    else rnd (normalizedFreq * halfArc) in
  let x := rnd (currentWidth radius * rnd (angle / halfArc)) in
  {| x := x; y := 0; z := radius |}.

Definition displayToLogical (display : DisplayCoordinates)
  : LogicalCoordinates :=
  let radius := z display in
  let time := rnd (radius / maxRadius) in
  let isLeftHalf := Rltb (x display) 0 in
  if Reqb (currentWidth radius) 0 then
    {| frequency := 0.5; time := Rmax 0 (Rmin 1 time) |}
  else
    let normalizedPosition :=
      rnd (Rabs (x display) / currentWidth radius) in
    let normalizedFreq := Rmax 0 (Rmin 1 normalizedPosition) in
    let frequency :=
      if isLeftHalf then rnd (0.5 - rnd (normalizedFreq * 0.5))
      else rnd (0.5 + rnd (normalizedFreq * 0.5)) in
    {| frequency := Rmax 0 (Rmin 1 frequency);
       time := Rmax 0 (Rmin 1 time) |}.

End Arithmetic.
End CoordinateTransformRounded.

(** ** coordinateTransform.ts over binary64

    The same two methods over the floats of the kernel, which are the
    doubles of the source: every operation rounds as the code does. *)

Module CoordinateTransform64.
Import Floats.
Local Open Scope float_scope.
Local Set Warnings "-inexact-float".

Record LogicalCoordinates := mkLogical { frequency : float; time : float }.
Record DisplayCoordinates := mkDisplay { x : float; y : float; z : float }.

Definition Math_PI : float := 3.141592653589793.

(** On the finite numbers these are used with, [Math.max], [Math.min]
    and [Math.abs]. *)
Definition Math_max (a b : float) : float := if a <? b then b else a.
Definition Math_min (a b : float) : float := if b <? a then b else a.
Definition Math_abs (a : float) : float := abs a.

Definition arcSpan : float := Math_PI / 3.
Definition maxRadius : float := 10.
Definition mouthWidth : float := 0.3.

Section Tangent.
(** [Math.tan] is not an operation of the floats of the kernel. *)
Variable Math_tan : float -> float.

Definition logicalToDisplay (logical : LogicalCoordinates)
  : DisplayCoordinates :=
  let radius := time logical * maxRadius in
  let isLeftHalf := frequency logical <? 0.5 in
  let normalizedFreq :=
    if isLeftHalf then (0.5 - frequency logical) * 2
    else (frequency logical - 0.5) * 2 in
  let angle :=
    if isLeftHalf then - normalizedFreq * (arcSpan / 2)
    else normalizedFreq * (arcSpan / 2) in
  let currentWidth := mouthWidth + radius * Math_tan (arcSpan / 2) in
  let x := currentWidth * (angle / (arcSpan / 2)) in
  {| x := x; y := 0; z := radius |}.

Definition displayToLogical (display : DisplayCoordinates)
  : LogicalCoordinates :=
  let radius := z display in
  let time := radius / maxRadius in
  let isLeftHalf := x display <? 0 in
  let currentWidth := mouthWidth + radius * Math_tan (arcSpan / 2) in
  if currentWidth =? 0 then
    {| frequency := 0.5; time := Math_max 0 (Math_min 1 time) |}
  else
    let normalizedPosition := Math_abs (x display) / currentWidth in
    let normalizedFreq := Math_max 0 (Math_min 1 normalizedPosition) in
    let frequency :=
      if isLeftHalf then 0.5 - normalizedFreq * 0.5
      else 0.5 + normalizedFreq * 0.5 in
    {| frequency := Math_max 0 (Math_min 1 frequency);
       time := Math_max 0 (Math_min 1 time) |}.

End Tangent.

(** The double nearest to tan(pi / 6) = 0.577350269189625764... and its
    two neighbours: an implementation of [Math.tan] that is accurate to
    one unit in the last place returns one of them for
    [Math.tan(Math.PI / 3 / 2)]. *)
Definition tangentCandidates : list float :=
  [next_down 0.5773502691896257; 0.5773502691896257;
   next_up 0.5773502691896257].

End CoordinateTransform64.

(** ** polarField.ts: the frame type shared with the engine *)

Module PolarField.

Record SpectrogramData := mkSpectrogram {
  timeIndex : R;
  frequencyBins : list R
}.

End PolarField.

(** ** polarWaveEngine.ts *)

Module PolarWaveEngine.
Import PolarField.

Inductive PhoneticType := vowel | trill | fricative | plosive.

Definition PhoneticType_eqb (a b : PhoneticType) : bool :=
  match a, b with
  | vowel, vowel | trill, trill
  | fricative, fricative | plosive, plosive => true
  | _, _ => false
  end.

Record PolarWave := mkWave {
  id : string;
  birthTime : R;
  type : PhoneticType;
  spectrograms : list SpectrogramData;
  currentTimeIndex : Z;
  maxTimeIndex : Z;
  isActive : bool
}.

(** The engine object: [waves], [time], [waveId]. *)
Record Engine := mkEngine {
  waves : list PolarWave;
  time : R;
  waveId : nat
}.

(** State of a freshly constructed engine. *)
Definition initial : Engine := {| waves := []; time := 0; waveId := 0 |}.

(** [private readonly frequencyBins = 100] (named apart from the field
    [frequencyBins] of a frame) and [timeIntervals = 1000]. *)
Definition frequencyBinCount : Z := 100.
Definition timeIntervals : Z := 1000.

(** One entry of [phoneticProfiles]; [modulationRate] is absent from
    three of the four. *)
Record Profile := mkProfile {
  duration : R;
  peakFrequencies : list R;
  bandwidth : R;
  amplitude : R;
  attackTime : R;
  sustainLevel : R;
  decayTime : R;
  modulationRate : option R
}.

Definition phoneticProfiles (phoneticType : PhoneticType) : Profile :=
  match phoneticType with
  | vowel =>
      {| duration := 800; peakFrequencies := [300; 1200; 2500];
         bandwidth := 200; amplitude := 0.8; attackTime := 50;
         sustainLevel := 0.9; decayTime := 200; modulationRate := None |}
  | trill =>
      {| duration := 600; peakFrequencies := [1000; 2000];
         bandwidth := 300; amplitude := 0.6; attackTime := 20;
         sustainLevel := 0.7; decayTime := 100;
         modulationRate := Some 25 |}
  | fricative =>
      {| duration := 400; peakFrequencies := [3000; 5000; 7000];
         bandwidth := 1000; amplitude := 0.4; attackTime := 30;
         sustainLevel := 0.8; decayTime := 150; modulationRate := None |}
  | plosive =>
      {| duration := 200; peakFrequencies := [500; 1500; 4000];
         bandwidth := 800; amplitude := 1.0; attackTime := 5;
         sustainLevel := 0.3; decayTime := 50; modulationRate := None |}
  end.

(** [frequencyToBinIndex]: 100 Hz .. 8 kHz across the bins. *)
Definition frequencyToBinIndex (frequency : R) : Z :=
  let minFreq := 100 in
  let maxFreq := 8000 in
  let normalizedFreq := (frequency - minFreq) / (maxFreq - minFreq) in
  Zfloor (normalizedFreq * IZR (frequencyBinCount - 1)).

(** [for (let i = lo; i < hi; i++)] visits these indices in order. *)
Definition Zrange (lo hi : Z) : list Z :=
  map (fun k => (lo + Z.of_nat k)%Z) (seq 0 (Z.to_nat (hi - lo))).

(** [bins[i] += v].  Every index the source writes lies inside the
    array (the loops run within [0, 100)); outside it this model leaves
    the array as it is. *)
Fixpoint add_at (bins : list R) (i : nat) (v : R) : list R :=
  match bins, i with
  | [], _ => []
  | b :: rest, O => (b + v) :: rest
  | b :: rest, S k => b :: add_at rest k v
  end.

(** Lines 93-102: attack, sustain, decay. *)
Definition baseEnvelope (timeIndex : R) (profile : Profile) : R :=
  if Rltb timeIndex (attackTime profile) then
    timeIndex / attackTime profile
  else if Rgtb timeIndex (duration profile - decayTime profile) then
    let decayProgress :=
      (timeIndex - (duration profile - decayTime profile))
      / decayTime profile in
    1.0 - decayProgress
  else
    sustainLevel profile.

(** A rate is truthy when it is present and not zero. *)
Definition truthyRate (rate : option R) : option R :=
  match rate with
  | Some r => if Reqb r 0 then None else Some r
  | None => None
  end.

(** Lines 91-108: the envelope after the trill modulation. *)
Definition envelopeAt (phoneticType : PhoneticType) (timeIndex : R)
           (profile : Profile) : R :=
  let normalizedTime := timeIndex / duration profile in
  let envelope := baseEnvelope timeIndex profile in
  match phoneticType, truthyRate (modulationRate profile) with
  | trill, Some rate =>
      let modulation := sin (normalizedTime * rate * PI * 2) in
      envelope * (0.7 + 0.3 * modulation)
  | _, _ => envelope
  end.

(** The Gaussian weight of bin [i] around [binIndex]. *)
Definition gaussianAt (bandwidthBins binIndex i : Z) : R :=
  let distance := IZR (Z.abs (i - binIndex)) in
  exp (- (distance * distance)
       / (2 * (IZR bandwidthBins / 3) * (IZR bandwidthBins / 3))).

(** Lines 111-123, the body run for one [centerFreq]. *)
Definition addPeak (profile : Profile) (envelope : R)
           (bins : list R) (centerFreq : R) : list R :=
  let binIndex := frequencyToBinIndex centerFreq in
  let bandwidthBins := Zfloor (bandwidth profile / 80) in
  fold_left
    (fun bins i =>
       let gaussian := gaussianAt bandwidthBins binIndex i in
       add_at bins (Z.to_nat i) (amplitude profile * envelope * gaussian))
    (Zrange (Z.max 0 (binIndex - bandwidthBins))
            (Z.min frequencyBinCount (binIndex + bandwidthBins)))
    bins.

Definition addPeaks (profile : Profile) (envelope : R) (bins : list R)
  : list R :=
  fold_left (addPeak profile envelope) (peakFrequencies profile) bins.

(** Lines 126-130; [noise i] is what [Math.random()] returns for bin
    [i]. *)
Definition addNoise (noise : nat -> R) (envelope : R) (bins : list R)
  : list R :=
  fold_left
    (fun bins i => add_at bins (Z.to_nat i)
                          (noise (Z.to_nat i) * 0.1 * envelope))
    (Zrange 0 frequencyBinCount)
    bins.

(** The bins as they stand before line 132. *)
Definition rawBins (phoneticType : PhoneticType) (timeIndex : R)
           (profile : Profile) (noise : nat -> R) : list R :=
  let frequencyBins := repeat 0 (Z.to_nat frequencyBinCount) in
  let envelope := envelopeAt phoneticType timeIndex profile in
  let frequencyBins := addPeaks profile envelope frequencyBins in
  if PhoneticType_eqb phoneticType fricative
  then addNoise noise envelope frequencyBins
  else frequencyBins.

(** Lines 132-138.  [Math.max(...bins)] is [MaxRlist]; on the empty
    array JavaScript gives -Infinity and [MaxRlist] gives 0, and neither
    is positive. *)
Definition normalize (bins : list R) : list R :=
  let maxValue := MaxRlist bins in
  if Rgtb maxValue 0 then map (fun b => Rmax 0 (b / maxValue)) bins
  else bins.

Definition generateSpectrogramFrame (phoneticType : PhoneticType)
           (timeIndex : R) (profile : Profile) (noise : nat -> R)
  : SpectrogramData :=
  {| timeIndex := timeIndex;
     frequencyBins :=
       normalize (rawBins phoneticType timeIndex profile noise) |}.

(** The template literal [`wave-${n}`]. *)
Definition waveName (n : nat) : string :=
  String.append "wave-" (NilEmpty.string_of_uint (Nat.to_uint n)).

(** The [wave] object [generateWave] builds, with its frames filled in.
    [draws t i] is the value of [Math.random()] for bin [i] of frame
    [t]. *)
Definition newWave (phoneticType : PhoneticType) (draws : Z -> nat -> R)
           (e : Engine) : PolarWave :=
  let profile := phoneticProfiles phoneticType in
  let maxTimeIndex := Zfloor (duration profile) in
  {| id := waveName (waveId e);
     birthTime := time e;
     type := phoneticType;
     spectrograms :=
       map (fun t => generateSpectrogramFrame phoneticType (IZR t)
                                              profile (draws t))
           (Zrange 0 maxTimeIndex);
     currentTimeIndex := 0;
     maxTimeIndex := maxTimeIndex;
     isActive := true |}.

Definition generateWave (phoneticType : PhoneticType)
           (draws : Z -> nat -> R) (e : Engine) : Engine :=
  {| waves := waves e ++ [newWave phoneticType draws e];
     time := time e;
     waveId := S (waveId e) |}.

(** [arr[i]] for a number [i]: [undefined] outside the array. *)
Definition lookupZ {A : Type} (l : list A) (i : Z) : option A :=
  if (i <? 0)%Z then None else nth_error l (Z.to_nat i).

Definition setCurrentTimeIndex (wave : PolarWave) (n : Z) : PolarWave :=
  {| id := id wave; birthTime := birthTime wave; type := type wave;
     spectrograms := spectrograms wave; currentTimeIndex := n;
     maxTimeIndex := maxTimeIndex wave; isActive := isActive wave |}.

Definition setIsActive (wave : PolarWave) (b : bool) : PolarWave :=
  {| id := id wave; birthTime := birthTime wave; type := type wave;
     spectrograms := spectrograms wave;
     currentTimeIndex := currentTimeIndex wave;
     maxTimeIndex := maxTimeIndex wave; isActive := b |}.

(** The body of the [forEach] in [updateTime] for one wave, at clock
    [now]: the wave as it is left, and the frames it pushes. *)
Definition updateWave (now : R) (wave : PolarWave)
  : PolarWave * list SpectrogramData :=
  if isActive wave then
    let age := now - birthTime wave in
    let newTimeIndex := Zfloor (age * 10) in
    if (newTimeIndex <? maxTimeIndex wave)%Z then
      let wave := setCurrentTimeIndex wave newTimeIndex in
      match lookupZ (spectrograms wave) (currentTimeIndex wave) with
      | Some frame => (wave, [frame])
      | None => (wave, [])
      end
    else (setIsActive wave false, [])
  else (wave, []).

Definition updateTime (deltaTime : R) (e : Engine)
  : Engine * list SpectrogramData :=
  let now := time e + deltaTime in
  let visited := map (updateWave now) (waves e) in
  ({| waves := filter isActive (map fst visited);
      time := now;
      waveId := waveId e |},
   List.concat (map snd visited)).

Definition getActiveWaveCount (e : Engine) : nat :=
  List.length (filter isActive (waves e)).

Definition reset (e : Engine) : Engine :=
  {| waves := []; time := 0; waveId := 0 |}.

(** *** Runs of the engine *)

Inductive Call :=
| CallGenerate (phoneticType : PhoneticType) (draws : Z -> nat -> R)
| CallUpdate (deltaTime : R)
| CallReset.

Definition call (e : Engine) (c : Call) : Engine :=
  match c with
  | CallGenerate ty draws => generateWave ty draws e
  | CallUpdate dt => fst (updateTime dt e)
  | CallReset => reset e
  end.

Definition run (e : Engine) (cs : list Call) : Engine :=
  fold_left call cs e.

(** The ids handed out while [cs] runs from [e], oldest first. *)
Fixpoint issuedIds (e : Engine) (cs : list Call) : list string :=
  match cs with
  | [] => []
  | c :: rest =>
      match c with
      | CallGenerate ty draws => [id (newWave ty draws e)]
      | _ => []
      end ++ issuedIds (call e c) rest
  end.

Definition isReset (c : Call) : bool :=
  match c with CallReset => true | _ => false end.

Definition noReset (cs : list Call) : bool :=
  forallb (fun c => negb (isReset c)) cs.

(** States the engine reaches when the clock is only ever advanced:
    the render loop calls [updateTime] with a positive step. *)
Inductive reachable : Engine -> Prop :=
| reach_initial : reachable initial
| reach_generate e ty draws :
    reachable e -> reachable (generateWave ty draws e)
| reach_update e dt :
    reachable e -> 0 <= dt -> reachable (fst (updateTime dt e))
| reach_reset e : reachable e -> reachable (reset e).

(** *** Domain of the synthesizer *)

(** What the four table entries have in common: positive attack and decay
    times, a sustain level and an amplitude that are not negative. *)
Definition wellFormed (p : Profile) : Prop :=
  0 < attackTime p /\ 0 < decayTime p /\
  0 <= sustainLevel p /\ 0 <= amplitude p.

(** [Math.random()] returns a number of [0, 1). *)
Definition unitDraws (noise : nat -> R) : Prop :=
  forall i, 0 <= noise i < 1.

(** What the loop of [addPeak] adds to bin [j] for one [centerFreq]: the
    weighted Gaussian inside the window of the peak, nothing outside. *)
Definition peakTerm (profile : Profile) (envelope : R) (centerFreq : R)
           (j : Z) : R :=
  let binIndex := frequencyToBinIndex centerFreq in
  let bandwidthBins := Zfloor (bandwidth profile / 80) in
  if ((Z.max 0 (binIndex - bandwidthBins) <=? j)
      && (j <? Z.min frequencyBinCount (binIndex + bandwidthBins)))%Z
  then amplitude profile * envelope * gaussianAt bandwidthBins binIndex j
  else 0.

(** What holds of every wave the engine keeps, at clock [now]. *)
Definition waveOk (now : R) (wave : PolarWave) : Prop :=
  isActive wave = true /\
  (0 <= currentTimeIndex wave <= maxTimeIndex wave)%Z /\
  birthTime wave <= now /\
  List.length (spectrograms wave) = Z.to_nat (maxTimeIndex wave).

(** What holds of the engine as a whole: every wave is in order, no two
    waves share an id, and every id comes from a counter value already
    used. *)
Definition engineOk (e : Engine) : Prop :=
  Forall (waveOk (time e)) (waves e) /\
  NoDup (map id (waves e)) /\
  Forall (fun wave => exists k, (k < waveId e)%nat /\ id wave = waveName k)
         (waves e).

(** What holds of the frames a wave carries: the frame at position [k]
    has time index [k] and 100 bins. *)
Definition framesOk (wave : PolarWave) : Prop :=
  forall (k : nat) (frame : SpectrogramData),
    nth_error (spectrograms wave) k = Some frame ->
    timeIndex frame = INR k /\
    List.length (frequencyBins frame) = 100%nat.

(** A wave as [generateWave] makes it: its last index is the duration of
    its type, rounded down, and its frames are in order. *)
Definition waveMade (wave : PolarWave) : Prop :=
  maxTimeIndex wave = Zfloor (duration (phoneticProfiles (type wave))) /\
  framesOk wave.

(** The index of a wave follows the clock [now]. *)
Definition waveInStep (now : R) (wave : PolarWave) : Prop :=
  currentTimeIndex wave = Zfloor ((now - birthTime wave) * 10) /\
  (currentTimeIndex wave < maxTimeIndex wave)%Z.

End PolarWaveEngine.

(** ** waveEngine.ts: the simple wedge model *)

Module WaveEngine.

Inductive PhoneticType := vowel | trill | fricative | plosive.

Inductive EnvelopeType := sustained | burst | modulated | broadband.

Module Wave.
Record t := mk {
  id : string;
  birthTime : R;
  frequency : R;
  amplitude : R;
  decay : R;
  type : PhoneticType;
  centerAngle : R;
  spread : R
}.
End Wave.

Module WaveParams.
Record t := mk {
  freq : R;
  amplitude : R;
  decay : R;
  spread : R;
  centerFreq : R;
  duration : R;
  frequencyBandwidth : R;
  attackTime : R;
  sustainLevel : R;
  modulationRate : R;
  envelopeType : EnvelopeType
}.
End WaveParams.

Record Engine := mkEngine {
  waves : list Wave.t;
  time : R;
  waveId : nat
}.

Definition initial : Engine := {| waves := []; time := 0; waveId := 0 |}.

(** [private readonly params] *)
Definition arcSpan : R := PI / 3.
Definition maxRadius : R := 10.
Definition waveSpeed : R := 0.08.
Definition minFreq : R := 100.
Definition maxFreq : R := 6000.

Definition phoneticParams (phoneticType : PhoneticType) : WaveParams.t :=
  match phoneticType with
  | vowel =>
      {| WaveParams.freq := 100; WaveParams.amplitude := 0.8;
         WaveParams.decay := 0.05; WaveParams.spread := 0.2;
         WaveParams.centerFreq := 0.1; WaveParams.duration := 0.9;
         WaveParams.frequencyBandwidth := 0.1;
         WaveParams.attackTime := 0.1; WaveParams.sustainLevel := 0.9;
         WaveParams.modulationRate := 0;
         WaveParams.envelopeType := sustained |}
  | trill =>
      {| WaveParams.freq := 150; WaveParams.amplitude := 0.7;
         WaveParams.decay := 0.08; WaveParams.spread := 0.4;
         WaveParams.centerFreq := 0.3; WaveParams.duration := 0.9;
         WaveParams.frequencyBandwidth := 0.3;
         WaveParams.attackTime := 0.05; WaveParams.sustainLevel := 0.8;
         WaveParams.modulationRate := 8;
         WaveParams.envelopeType := modulated |}
  | fricative =>
      {| WaveParams.freq := 3000; WaveParams.amplitude := 0.3;
         WaveParams.decay := 0.04; WaveParams.spread := 0.9;
         WaveParams.centerFreq := 0.6; WaveParams.duration := 0.95;
         WaveParams.frequencyBandwidth := 0.8;
         WaveParams.attackTime := 0.2; WaveParams.sustainLevel := 0.6;
         WaveParams.modulationRate := 0;
         WaveParams.envelopeType := broadband |}
  | plosive =>
      {| WaveParams.freq := 1000; WaveParams.amplitude := 1.5;
         WaveParams.decay := 0.4; WaveParams.spread := 0.7;
         WaveParams.centerFreq := 0.5; WaveParams.duration := 0.2;
         WaveParams.frequencyBandwidth := 0.6;
         WaveParams.attackTime := 0.02; WaveParams.sustainLevel := 0.1;
         WaveParams.modulationRate := 0;
         WaveParams.envelopeType := burst |}
  end.

Definition frequencyToAngle (frequency : R) : R :=
  let logFreq := ln frequency in
  let logMin := ln minFreq in
  let logMax := ln maxFreq in
  let normalized := (logFreq - logMin) / (logMax - logMin) in
  (normalized - 0.5) * arcSpan.

Definition waveName (n : nat) : string :=
  String.append "wave_" (NilEmpty.string_of_uint (Nat.to_uint n)).

Definition generateWave (phoneticType : PhoneticType) (e : Engine)
  : Engine :=
  let params := phoneticParams phoneticType in
  let centerAngle := frequencyToAngle (WaveParams.centerFreq params) in
  {| waves :=
       waves e ++
       [ {| Wave.id := waveName (waveId e);
            Wave.birthTime := time e;
            Wave.frequency := WaveParams.freq params;
            Wave.amplitude := WaveParams.amplitude params;
            Wave.decay := WaveParams.decay params;
            Wave.type := phoneticType;
            Wave.centerAngle := centerAngle;
            Wave.spread :=
              WaveParams.spread params
              * WaveParams.frequencyBandwidth params |} ];
     time := time e;
     waveId := S (waveId e) |}.

(** [getWaveRadius], reading the clock [now] of the engine. *)
Definition getWaveRadius (now : R) (wave : Wave.t) : R :=
  let age := now - Wave.birthTime wave in
  age * waveSpeed.

Definition updateTime (deltaTime : R) (e : Engine) : Engine :=
  let now := time e + deltaTime in
  {| waves :=
       filter
         (fun wave =>
            let params := phoneticParams (Wave.type wave) in
            let age := now - Wave.birthTime wave in
            let maxAge := WaveParams.duration params * 25 in
            Rltb age maxAge && Rltb (getWaveRadius now wave) maxRadius)
         (waves e);
     time := now;
     waveId := waveId e |}.

Definition calculateEnvelope (type : PhoneticType) (age : R)
           (params : WaveParams.t) : R :=
  let normalizedAge := age / (WaveParams.duration params * 25) in
  match WaveParams.envelopeType params with
  | sustained =>
      if Rltb normalizedAge (WaveParams.attackTime params) then
        WaveParams.amplitude params
        * (normalizedAge / WaveParams.attackTime params)
      else if Rltb normalizedAge 0.8 then
        WaveParams.amplitude params * WaveParams.sustainLevel params
      else
        let decayFactor := (1 - normalizedAge) / 0.2 in
        WaveParams.amplitude params * WaveParams.sustainLevel params
        * decayFactor
  | modulated =>
      let baseAmplitude :=
        WaveParams.amplitude params
        * exp (- normalizedAge * WaveParams.decay params) in
      let modulation :=
        1 + 0.5 * sin (2 * PI * WaveParams.modulationRate params * age) in
      baseAmplitude * modulation
  | burst =>
      if Rltb normalizedAge (WaveParams.attackTime params) then
        WaveParams.amplitude params
        * (normalizedAge / WaveParams.attackTime params)
      else
        let decayFactor :=
          exp (- normalizedAge * WaveParams.decay params * 10) in
        WaveParams.amplitude params * WaveParams.sustainLevel params
        * decayFactor
  | broadband =>
      let sustainedAmplitude :=
        WaveParams.amplitude params * WaveParams.sustainLevel params in
      let slowDecay :=
        exp (- normalizedAge * WaveParams.decay params * 0.5) in
      sustainedAmplitude * slowDecay
  end.

(** What one wave adds to [totalHeight] inside the [forEach]. *)
Definition waveHeight (e : Engine) (frequency time : R) (wave : Wave.t)
  : R :=
  let waveRadius := getWaveRadius (WaveEngine.time e) wave in
  let distanceFromWave := Rabs (time * maxRadius - waveRadius) in
  if Rltb distanceFromWave 2 then
    let leftHalfFreq :=
      if Rltb frequency 0.5 then (0.5 - frequency) * 2 else 0 in
    let rightHalfFreq :=
      if Rgeb frequency 0.5 then (frequency - 0.5) * 2 else 0 in
    let activeFreq := Rmax leftHalfFreq rightHalfFreq in
    let angle := activeFreq * (arcSpan / 2) in
    let angleDiff := Rabs (angle - Rabs (Wave.centerAngle wave)) in
    if Rleb angleDiff (Wave.spread wave) then
      let age := WaveEngine.time e - Wave.birthTime wave in
      let params := phoneticParams (Wave.type wave) in
      let envelopeAmplitude :=
        calculateEnvelope (Wave.type wave) age params in
      let angularFactor :=
        cos (angleDiff / Wave.spread wave * PI / 2) in
      let radialFactor := exp (- distanceFromWave * 0.8) in
      let frequencyFactor :=
        sin (Wave.frequency wave / 100 * distanceFromWave * PI) in
      envelopeAmplitude * angularFactor * radialFactor * frequencyFactor
    else 0
  else 0.

Definition calculateHeightAtPosition (e : Engine) (frequency time : R)
  : R :=
  if Rltb frequency 0 || Rgtb frequency 1
     || Rltb time 0 || Rgtb time 1
  then 0
  else
    fold_left
      (fun totalHeight wave =>
         totalHeight + waveHeight e frequency time wave)
      (waves e) 0.

Definition getActiveWaveCount (e : Engine) : nat := List.length (waves e).

Definition getWaves (e : Engine) : list Wave.t := waves e.

Definition reset (e : Engine) : Engine :=
  {| waves := []; time := 0; waveId := 0 |}.

(** *** Runs of the simple engine *)

(** States reached from a fresh engine through its public methods. *)
Inductive reachable : Engine -> Prop :=
| reach_initial : reachable initial
| reach_generate e ty : reachable e -> reachable (generateWave ty e)
| reach_update e dt : reachable e -> reachable (updateTime dt e)
| reach_reset e : reachable e -> reachable (reset e).

(** A wave as [generateWave] makes it from the parameters of its type. *)
Definition waveFromParams (wave : Wave.t) : Prop :=
  let params := phoneticParams (Wave.type wave) in
  Wave.centerAngle wave = frequencyToAngle (WaveParams.centerFreq params) /\
  Wave.spread wave
  = WaveParams.spread params * WaveParams.frequencyBandwidth params.

End WaveEngine.

(** ** polarField.ts: the class [PolarField] *)

(** [Math.atan2(y, x)] on numbers without signed zeros. *)
Definition atan2 (y x : R) : R :=
  if Rltb 0 x then atan (y / x)
  else if Rltb x 0 then
    if Rleb 0 y then atan (y / x) + PI else atan (y / x) - PI
  else if Rltb 0 y then PI / 2
  else if Rltb y 0 then - (PI / 2)
  else 0.

Module PolarFieldOps.
Import PolarField.

Record PolarCoordinates := mkPolar { radius : R; angle : R }.
Record CartesianCoordinates := mkCartesian { x : R; y : R; z : R }.

(** [private readonly params]; [frequencyBins] is named apart from the
    field of a frame. *)
Definition totalAngleSpan : R := PI * 40 / 180.
Definition halfAngleSpan : R := PI * 20 / 180.
Definition maxRadius : R := 15.
Definition timeIntervals : R := 1000.
Definition frequencyBinCount : R := 100.
Definition minFrequency : R := 100.
Definition maxFrequency : R := 8000.

Definition polarToCartesian (polar : PolarCoordinates)
  : CartesianCoordinates :=
  let radius := radius polar * maxRadius in
  {| x := radius * sin (angle polar);
     y := 0;
     z := radius * cos (angle polar) |}.

Definition cartesianToPolar (cartesian : CartesianCoordinates)
  : PolarCoordinates :=
  let radius :=
    sqrt (x cartesian * x cartesian + z cartesian * z cartesian)
    / maxRadius in
  let angle := atan2 (x cartesian) (z cartesian) in
  {| radius := Rmax 0 (Rmin 1 radius);
     angle := Rmax (- halfAngleSpan) (Rmin halfAngleSpan angle) |}.

Definition frequencyToAngle (frequencyIndex : R) : R :=
  let normalizedFreq := frequencyIndex / (frequencyBinCount - 1) in
  normalizedFreq * halfAngleSpan.

Definition timeToRadius (timeIndex : R) : R :=
  timeIndex / (timeIntervals - 1).

(** [for (let k = 0; k <= steps; k++)] *)
Definition upto (steps : nat) : list nat := seq 0 (S steps).

Definition generateGridPoints : list CartesianCoordinates :=
  let arcSteps := 20%nat in
  let angleSteps := 50%nat in
  let arcs :=
    flat_map
      (fun r =>
         let radius := INR r / INR arcSteps in
         map (fun a =>
                let angle :=
                  INR a / INR angleSteps * totalAngleSpan - halfAngleSpan in
                polarToCartesian {| radius := radius; angle := angle |})
             (upto angleSteps))
      (upto arcSteps) in
  let radialSteps := 10%nat in
  let radiusSteps := 50%nat in
  let radials :=
    flat_map
      (fun a =>
         let angle :=
           INR a / INR radialSteps * totalAngleSpan - halfAngleSpan in
         map (fun r =>
                let radius := INR r / INR radiusSteps in
                polarToCartesian {| radius := radius; angle := angle |})
             (upto radiusSteps))
      (upto radialSteps) in
  arcs ++ radials.

(** [cartesian.y = amplitude] on the point just built. *)
Definition setY (cartesian : CartesianCoordinates) (amplitude : R)
  : CartesianCoordinates :=
  {| x := x cartesian; y := amplitude; z := z cartesian |}.

Definition createBilateralSpectrogram (spectrogram : SpectrogramData)
  : list CartesianCoordinates :=
  let radius := timeToRadius (timeIndex spectrogram) in
  flat_map
    (fun '(freqIndex, amplitude) =>
       let baseAngle := frequencyToAngle (INR freqIndex) in
       let rightPolar := {| radius := radius; angle := baseAngle |} in
       let rightCartesian := setY (polarToCartesian rightPolar) amplitude in
       let leftPolar := {| radius := radius; angle := - baseAngle |} in
       let leftCartesian := setY (polarToCartesian leftPolar) amplitude in
       [rightCartesian; leftCartesian])
    (combine (seq 0 (List.length (frequencyBins spectrogram)))
             (frequencyBins spectrogram)).

Record FieldDimensions := mkDimensions {
  dim_maxRadius : R;
  dim_totalAngleSpan : R;
  dim_halfAngleSpan : R;
  maxWidth : R;
  maxDepth : R
}.

Definition getFieldDimensions : FieldDimensions :=
  {| dim_maxRadius := maxRadius;
     dim_totalAngleSpan := totalAngleSpan;
     dim_halfAngleSpan := halfAngleSpan;
     maxWidth := maxRadius * sin halfAngleSpan * 2;
     maxDepth := maxRadius |}.

End PolarFieldOps.

(** ** threeSetup.ts, the version built on [CoordinateTransform]: the
       vertex loop of [updateGeometry] and [animate]

    [positions] holds the x, y and z of vertex [k] at [3k], [3k + 1] and
    [3k + 2]; it is modelled as the list of its vertices, whatever
    [createArcGeometry] stored there. *)

Module ThreeJSSetup.

Definition Vertex := CoordinateTransform.DisplayCoordinates.

(** The body of the loop of [updateGeometry] on one vertex. *)
Definition sampleVertex (waveEngine : WaveEngine.Engine) (v : Vertex)
  : Vertex :=
  let x := CoordinateTransform.x v in
  let z := CoordinateTransform.z v in
  let logical :=
    CoordinateTransform.displayToLogical
      {| CoordinateTransform.x := x; CoordinateTransform.y := 0;
         CoordinateTransform.z := z |} in
  let height :=
    WaveEngine.calculateHeightAtPosition
      waveEngine
      (CoordinateTransform.frequency logical)
      (CoordinateTransform.time logical) in
  {| CoordinateTransform.x := x; CoordinateTransform.y := height;
     CoordinateTransform.z := z |}.

Definition updateGeometry (waveEngine : WaveEngine.Engine)
           (positions : list Vertex) : list Vertex :=
  map (sampleVertex waveEngine) positions.

(** One tick of [animate]: the engine ages by 0.05, then the mesh is
    sampled. *)
Definition animate (state : WaveEngine.Engine * list Vertex)
  : WaveEngine.Engine * list Vertex :=
  let waveEngine := WaveEngine.updateTime 0.05 (fst state) in
  (waveEngine, updateGeometry waveEngine (snd state)).

End ThreeJSSetup.

(** ** threeSetup.ts: where [updateGeometry] samples the wave

    The vertex loops of [createArcGeometry] and [updateGeometry] once
    more, for the path of a coordinate through them, with the rounding
    of the code: double precision for the arithmetic, [rnd], and single
    precision for what is kept in the [Float32Array] [positions],
    [Math_fround], of which [roundsLikeBinary32] is the error bound of
    rounding to nearest in binary32. *)

Definition roundsLikeBinary32 (Math_fround : R -> R) : Prop :=
  forall v, Rabs (Math_fround v - v) <= / 2 ^ 24 * Rabs v + / 2 ^ 150.

Module ThreeJSSetupRounded.
Import CoordinateTransform.

Definition Vertex := DisplayCoordinates.

Section Arithmetic.
Variable rnd : R -> R.
Variable Math_tan : R -> R.
Variable Math_fround : R -> R.

(** The body of the loop of [createArcGeometry] on one vertex of the
    plane: what it leaves in [positions]. *)
Definition placeVertex (v : Vertex) : Vertex :=
  let x := x v in
  let y := y v in
  let frequency := rnd (rnd (x + 1) / 2) in
  let time := rnd (rnd (y + 2) / 4) in
  let displayCoords :=
    CoordinateTransformRounded.logicalToDisplay
      rnd Math_tan {| frequency := frequency; time := time |} in
  {| x := Math_fround (CoordinateTransform.x displayCoords);
     y := Math_fround (CoordinateTransform.y displayCoords);
     z := Math_fround (CoordinateTransform.z displayCoords) |}.

(** [const logical] in the loop of [updateGeometry]: the coordinate at
    which the engine is asked for the height of the vertex. *)
Definition sampledAt (v : Vertex) : LogicalCoordinates :=
  let x := x v in
  let z := z v in
  CoordinateTransformRounded.displayToLogical
    rnd Math_tan {| x := x; y := 0; z := z |}.

End Arithmetic.
End ThreeJSSetupRounded.

(** ** polarThreeSetup.ts: the mesh of the polar field and the frames
       splatted onto it

    As for the wedge mesh, [positions] is modelled as the list of its
    vertices.  It is a [Float32Array]: a number written to it is read
    back rounded to single precision.  That rounding is the parameter
    [Math_fround] of the functions that write heights, of which
    [storesSinglePrecision] states what is assumed: it keeps 0, keeps the
    order, and leaves a number it has rounded as it is.  The [Map] from
    time index to frame is a list of entries in insertion order; setting
    a key that is present replaces its value in place. *)

Module PolarThreeSetup.
Import PolarField PolarFieldOps.

Definition Vertex := CartesianCoordinates.

Definition radialSegments : nat := 50.
Definition angularSegments : nat := 100.

(** The first loop nest of [createPolarFieldGeometry]. *)
Definition fieldVertices : list Vertex :=
  let dimensions := getFieldDimensions in
  flat_map
    (fun r =>
       let radius := INR r / INR radialSegments in
       map (fun a =>
              let angle :=
                INR a / INR angularSegments * dim_totalAngleSpan dimensions
                - dim_halfAngleSpan dimensions in
              polarToCartesian {| radius := radius; angle := angle |})
           (upto angularSegments))
    (upto radialSegments).

(** The second loop nest: two triangles per quad. *)
Definition fieldIndices : list nat :=
  flat_map
    (fun r =>
       flat_map
         (fun a =>
            let i1 := (r * (angularSegments + 1) + a)%nat in
            let i2 := ((r + 1) * (angularSegments + 1) + a)%nat in
            let i3 := ((r + 1) * (angularSegments + 1) + (a + 1))%nat in
            let i4 := (r * (angularSegments + 1) + (a + 1))%nat in
            [i1; i2; i3; i1; i3; i4])
         (seq 0 angularSegments))
    (seq 0 radialSegments).

(** [dx * dx + dz * dz] in [findNearestVertexIndex]. *)
Definition squaredDistance (v : Vertex) (px pz : R) : R :=
  let dx := x v - px in
  let dz := z v - pz in
  dx * dx + dz * dz.

(** [distance < minDistance], where [minDistance] starts at Infinity
    ([None]). *)
Definition closer (distance : R) (minDistance : option R) : bool :=
  match minDistance with
  | None => true
  | Some m => Rltb distance m
  end.

(** The loop of [findNearestVertexIndex] from vertex [i] on. *)
Fixpoint nearestLoop (vertices : list Vertex) (i : nat)
         (minDistance : option R) (nearestIndex : Z) (px pz : R) : Z :=
  match vertices with
  | [] => nearestIndex
  | v :: rest =>
      let distance := squaredDistance v px pz in
      if closer distance minDistance
      then nearestLoop rest (S i) (Some distance) (Z.of_nat i) px pz
      else nearestLoop rest (S i) minDistance nearestIndex px pz
  end.

Definition findNearestVertexIndex (positions : list Vertex) (px pz : R)
  : Z :=
  nearestLoop positions 0 None (-1) px pz.

Definition SpectrogramMap := list (R * SpectrogramData).

Fixpoint mapSet (m : SpectrogramMap) (key : R) (value : SpectrogramData)
  : SpectrogramMap :=
  match m with
  | [] => [(key, value)]
  | (k, v) :: rest =>
      if Reqb k key then (k, value) :: rest
      else (k, v) :: mapSet rest key value
  end.

Fixpoint mapGet (m : SpectrogramMap) (key : R) : option SpectrogramData :=
  match m with
  | [] => None
  | (k, v) :: rest => if Reqb k key then Some v else mapGet rest key
  end.

Record State := mkState {
  spectrogramData : SpectrogramMap;
  positions : list Vertex
}.

Definition storesSinglePrecision (Math_fround : R -> R) : Prop :=
  Math_fround 0 = 0 /\
  (forall a b, a <= b -> Math_fround a <= Math_fround b) /\
  (forall a, Math_fround (Math_fround a) = Math_fround a).

Section Float32Array.
(** What is read back from an element of [positions] after a number was
    written to it. *)
Variable Math_fround : R -> R.

(** [positions[i * 3 + 1] = Math.max(positions[i * 3 + 1], h)] *)
Fixpoint raiseAt (positions : list Vertex) (i : nat) (h : R)
  : list Vertex :=
  match positions, i with
  | [], _ => []
  | v :: rest, O => setY v (Math_fround (Rmax (y v) h)) :: rest
  | v :: rest, S k => v :: raiseAt rest k h
  end.

(** The body of [bilateralPoints.forEach]. *)
Definition applyPoint (positions : list Vertex) (point : Vertex)
  : list Vertex :=
  let nearestIndex :=
    findNearestVertexIndex positions (x point) (z point) in
  if (0 <=? nearestIndex)%Z
  then raiseAt positions (Z.to_nat nearestIndex) (y point)
  else positions.

Definition updateFieldGeometry (spectrogramData : SpectrogramMap)
           (positions : list Vertex) : list Vertex :=
  let positions := map (fun v => setY v (Math_fround 0)) positions in
  fold_left
    (fun positions entry =>
       let bilateralPoints := createBilateralSpectrogram (snd entry) in
       fold_left applyPoint bilateralPoints positions)
    spectrogramData positions.

Definition addSpectrogram (timeIndex : R) (frequencyBins : list R)
           (s : State) : State :=
  let spectrogramData' :=
    mapSet (spectrogramData s) timeIndex
           {| PolarField.timeIndex := timeIndex;
              PolarField.frequencyBins := frequencyBins |} in
  {| spectrogramData := spectrogramData';
     positions := updateFieldGeometry spectrogramData' (positions s) |}.

(** [spectrograms.forEach(spectrogram => threeSetup.addSpectrogram(...))]
    in the animation loop of [PhoneticVisualizer]. *)
Definition showFrames (spectrograms : list SpectrogramData) (s : State)
  : State :=
  fold_left
    (fun s spectrogram =>
       addSpectrogram (PolarField.timeIndex spectrogram)
                      (PolarField.frequencyBins spectrogram) s)
    spectrograms s.

End Float32Array.

(** Two meshes with the same vertices seen from above. *)
Definition sameGround (before after : list Vertex) : Prop :=
  Forall2 (fun v w => x w = x v /\ z w = z v) before after.

(** The same, and no vertex of [after] lower than in [before]. *)
Definition raisedFrom (before after : list Vertex) : Prop :=
  Forall2 (fun v w => x w = x v /\ z w = z v /\ y v <= y w) before after.

End PolarThreeSetup.

(* ================================================================== *)
(** * Part II: properties *)

(** ** Boolean comparisons reflect the order of the reals *)

Lemma Rltb_true a b : Rltb a b = true <-> a < b.
Proof. unfold Rltb; destruct (Rlt_dec a b); split; intros; easy. Qed.

Lemma Rltb_false a b : Rltb a b = false <-> b <= a.
Proof.
  unfold Rltb; destruct (Rlt_dec a b); split; intros; try easy; lra.
Qed.

Lemma Rleb_true a b : Rleb a b = true <-> a <= b.
Proof. unfold Rleb; destruct (Rle_dec a b); split; intros; easy. Qed.

Lemma Rleb_false a b : Rleb a b = false <-> b < a.
Proof.
  unfold Rleb; destruct (Rle_dec a b); split; intros; try easy; lra.
Qed.

Lemma Reqb_true a b : Reqb a b = true <-> a = b.
Proof. unfold Reqb; destruct (Req_dec_T a b); split; intros; easy. Qed.

Lemma Reqb_false a b : Reqb a b = false <-> a <> b.
Proof. unfold Reqb; destruct (Req_dec_T a b); split; intros; easy. Qed.

Lemma Rltb_lt a b : a < b -> Rltb a b = true.
Proof. apply Rltb_true. Qed.

Lemma Rltb_ge a b : b <= a -> Rltb a b = false.
Proof. apply Rltb_false. Qed.

(** [Math.max(0, Math.min(1, v))] leaves a value of the unit interval
    alone. *)
Lemma clamp_unit v : 0 <= v <= 1 -> Rmax 0 (Rmin 1 v) = v.
Proof.
  intros [H0 H1].
  rewrite (Rmin_right 1 v) by exact H1.
  apply Rmax_right; exact H0.
Qed.

(** ** Coordinate transform *)

Module CoordinateTransformProps.
Import CoordinateTransform.

Lemma halfArc_pos : 0 < arcSpan / 2.
Proof. unfold arcSpan. pose proof PI_RGT_0. lra. Qed.

Lemma tan_halfArc_pos : 0 < tan (arcSpan / 2).
Proof.
  apply tan_gt_0; unfold arcSpan; pose proof PI_RGT_0; lra.
Qed.

(** The width at distance [t] from the mouth never vanishes: the finite
    mouth width keeps the inverse away from a division by zero. *)
Lemma currentWidth_pos (t : R) :
  0 <= t -> 0 < mouthWidth + t * maxRadius * tan (arcSpan / 2).
Proof.
  intros Ht. pose proof tan_halfArc_pos as Htan.
  unfold mouthWidth, maxRadius.
  assert (0 <= t * 10 * tan (arcSpan / 2)).
  { apply Rmult_le_pos; lra. }
  lra.
Qed.

(** Both halves give the same closed form for the lateral offset. *)
Lemma logicalToDisplay_x (f t : R) :
  x (logicalToDisplay (mkLogical f t)) =
  (mouthWidth + t * maxRadius * tan (arcSpan / 2)) * (2 * f - 1).
Proof.
  pose proof halfArc_pos as Ha.
  assert (E : forall v, v * (arcSpan / 2) / (arcSpan / 2) = v)
    by (intro; field; lra).
  unfold logicalToDisplay; cbn [x frequency time].
  destruct (Rltb f 0.5); rewrite E; lra.
Qed.

Lemma logicalToDisplay_z (f t : R) :
  z (logicalToDisplay (mkLogical f t)) = t * maxRadius.
Proof. reflexivity. Qed.

End CoordinateTransformProps.

(** ** Coordinate transform under rounding *)

Lemma unitRoundoff_small : 0 < unitRoundoff <= 1.2e-16.
Proof. unfold unitRoundoff. split; lra. Qed.

Lemma underflowUnit_small : 0 < underflowUnit <= 1e-30.
Proof. unfold underflowUnit. split; lra. Qed.

Lemma Rabs_le_inv (a b : R) : Rabs a <= b -> - b <= a <= b.
Proof. unfold Rabs. destruct (Rcase_abs a); lra. Qed.

Lemma clamp_close (a b e : R) :
  Rabs (a - b) <= e ->
  Rabs (Rmax 0 (Rmin 1 a) - Rmax 0 (Rmin 1 b)) <= e.
Proof.
  intros H. apply Rabs_le_inv in H. apply Rabs_le.
  unfold Rmax, Rmin. repeat destruct (Rle_dec _ _); lra.
Qed.

Lemma clamp_toward (a b e : R) :
  0 <= b <= 1 -> Rabs (a - b) <= e -> Rabs (Rmax 0 (Rmin 1 a) - b) <= e.
Proof.
  intros Hb H. apply Rabs_le_inv in H. apply Rabs_le.
  unfold Rmax, Rmin. repeat destruct (Rle_dec _ _); lra.
Qed.

Lemma product_within (a b A B : R) :
  Rabs a <= A -> Rabs b <= B -> Rabs (a * b) <= A * B.
Proof.
  intros Ha Hb. rewrite Rabs_mult.
  apply Rmult_le_compat; try apply Rabs_pos; assumption.
Qed.

Lemma quotient_within (a w q c A E : R) :
  0 < c <= w -> 0 <= E ->
  Rabs (a - w * q) <= A * w + E ->
  Rabs (a / w - q) <= A + E / c.
Proof.
  intros [Hc Hw] HE H.
  assert (Hw0 : 0 < w) by lra.
  replace (a / w - q) with ((a - w * q) / w) by (field; lra).
  unfold Rdiv at 1. rewrite Rabs_mult, (Rabs_pos_eq (/ w))
    by (apply Rlt_le, Rinv_0_lt_compat, Hw0).
  apply (Rmult_le_reg_r w); [exact Hw0 |].
  rewrite Rmult_assoc, Rinv_l, Rmult_1_r by lra.
  apply Rle_trans with (A * w + E); [exact H |].
  assert (E / c * w >= E).
  { unfold Rdiv. rewrite Rmult_assoc.
    assert (1 <= / c * w).
    { apply (Rmult_le_reg_l c); [exact Hc |].
      rewrite <- Rmult_assoc, Rinv_r, Rmult_1_l, Rmult_1_r by lra. lra. }
    nra. }
  lra.
Qed.

Module CoordinateTransformRoundedProps.
Import CoordinateTransform CoordinateTransformRounded.

Section Bounds.
Variable rnd : R -> R.
Variable Math_tan : R -> R.
Hypothesis Hrnd : roundsLikeBinary64 rnd.
Hypothesis Htan : tangentInRange Math_tan.

Lemma rnd_near (v B : R) :
  Rabs v <= B -> Rabs (rnd v - v) <= 1.2e-16 * B + underflowUnit.
Proof.
  intros Hv. pose proof (Hrnd v) as H.
  pose proof unitRoundoff_small as [Hu0 Hu].
  pose proof (Rabs_pos v) as Hp.
  apply Rle_trans with (1 := H). nra.
Qed.

Lemma rnd_between (v B : R) :
  - B <= v <= B ->
  v - (1.2e-16 * B + underflowUnit) <= rnd v
  <= v + (1.2e-16 * B + underflowUnit).
Proof.
  intros Hv.
  assert (Rabs v <= B) as Ha by (apply Rabs_le; lra).
  pose proof (rnd_near v B Ha) as H. apply Rabs_le_inv in H. lra.
Qed.

(** Rounding a product whose first factor is a width. *)
Lemma rnd_scaled (w q B : R) :
  0 <= w -> Rabs q <= B ->
  Rabs (rnd (w * q) - w * q) <= 1.2e-16 * B * w + underflowUnit.
Proof.
  intros Hw Hq.
  assert (Rabs (w * q) <= B * w) as Ha.
  { rewrite Rabs_mult, (Rabs_pos_eq w) by exact Hw.
    rewrite (Rmult_comm B). apply Rmult_le_compat_l; assumption. }
  pose proof (rnd_near _ _ Ha). lra.
Qed.

Lemma Math_PI_range : 2.99 <= Math_PI rnd <= 4.01.
Proof.
  pose proof underflowUnit_small as Heta.
  unfold Math_PI. pose proof PI2_3_2. pose proof PI_4.
  pose proof (rnd_between PI 4 ltac:(lra)). lra.
Qed.

Lemma arcSpan_range : 0.99 <= arcSpan rnd <= 1.34.
Proof.
  pose proof underflowUnit_small as Heta.
  unfold arcSpan. pose proof Math_PI_range.
  pose proof (rnd_between (Math_PI rnd / 3) 2 ltac:(lra)). lra.
Qed.

Lemma halfArc_range : 0.49 <= halfArc rnd <= 0.68.
Proof.
  pose proof underflowUnit_small as Heta.
  unfold halfArc. pose proof arcSpan_range.
  pose proof (rnd_between (arcSpan rnd / 2) 1 ltac:(lra)). lra.
Qed.

Lemma tangent_range : 0 <= Math_tan (halfArc rnd) <= 1.
Proof. apply Htan. pose proof halfArc_range. lra. Qed.

Lemma mouthWidth_range : 0.29 <= mouthWidth rnd <= 0.31.
Proof.
  pose proof underflowUnit_small as Heta.
  unfold mouthWidth. pose proof (rnd_between 0.3 1 ltac:(lra)). lra.
Qed.

Lemma currentWidth_range (radius : R) :
  -0.001 <= radius <= 10.1 ->
  0.28 <= currentWidth rnd Math_tan radius <= 10.5.
Proof.
  pose proof underflowUnit_small as Heta.
  intros Hr. unfold currentWidth.
  pose proof tangent_range as HT. pose proof mouthWidth_range as Hm.
  set (T := Math_tan (halfArc rnd)) in *.
  assert (Hp : -0.001 <= radius * T <= 10.1) by nra.
  pose proof (rnd_between (radius * T) 11 ltac:(lra)) as H1.
  pose proof (rnd_between (mouthWidth rnd + rnd (radius * T)) 11
                ltac:(lra)) as H2.
  lra.
Qed.

Lemma radius_range (t : R) :
  -1e-6 <= t <= 1 + 1e-6 ->
  Rabs (rnd (t * maxRadius) - 10 * t) <= 1.21e-15 /\
  -0.001 <= rnd (t * maxRadius) <= 10.1.
Proof.
  pose proof underflowUnit_small as Heta.
  intros Ht. unfold maxRadius.
  pose proof (rnd_between (t * 10) 10.001 ltac:(lra)) as H.
  split; [apply Rabs_le |]; lra.
Qed.

(** Multiplying by the half arc and dividing by it again. *)
Lemma through_angle (v : R) :
  Rabs v <= 1.03 ->
  Rabs (rnd (rnd (v * halfArc rnd) / halfArc rnd) - v) <= 2.6e-16.
Proof.
  pose proof underflowUnit_small as Heta.
  intros Hv. pose proof halfArc_range as Hh.
  set (h := halfArc rnd) in *.
  pose proof (rnd_scaled h v 1.03 ltac:(lra) Hv) as H1.
  rewrite (Rmult_comm h v) in H1.
  assert (H2 : Rabs (rnd (v * h) / h - v) <= 1.2e-16 * 1.03 + underflowUnit / 0.49).
  { apply (quotient_within _ h v 0.49 (1.2e-16 * 1.03) underflowUnit);
      try lra.
    rewrite (Rmult_comm h v). lra. }
  apply Rabs_le_inv in H2. apply Rabs_le_inv in Hv.
  pose proof (rnd_between (rnd (v * h) / h) 1.04 ltac:(lra)) as H3.
  apply Rabs_le. lra.
Qed.

(** The lateral position before it is scaled by the width. *)
Lemma lateral_fraction (f : R) :
  -0.01 <= f <= 1.01 ->
  let normalizedFreq :=
    if Rltb f 0.5 then rnd (rnd (0.5 - f) * 2)
    else rnd (rnd (f - 0.5) * 2) in
  let angle :=
    if Rltb f 0.5 then rnd (- normalizedFreq * halfArc rnd)
    else rnd (normalizedFreq * halfArc rnd) in
  Rabs (rnd (angle / halfArc rnd) - (2 * f - 1)) <= 5.1e-16.
Proof.
  pose proof underflowUnit_small as Heta.
  intros Hf. cbv zeta.
  destruct (Rltb f 0.5).
  - pose proof (rnd_between (0.5 - f) 0.51 ltac:(lra)) as H1.
    pose proof (rnd_between (rnd (0.5 - f) * 2) 1.03 ltac:(lra)) as H2.
    set (nf := rnd (rnd (0.5 - f) * 2)) in *.
    assert (Hn : Rabs (- nf) <= 1.03) by (apply Rabs_le; lra).
    pose proof (through_angle (- nf) Hn) as H3.
    apply Rabs_le_inv in H3. apply Rabs_le. lra.
  - pose proof (rnd_between (f - 0.5) 0.51 ltac:(lra)) as H1.
    pose proof (rnd_between (rnd (f - 0.5) * 2) 1.03 ltac:(lra)) as H2.
    set (nf := rnd (rnd (f - 0.5) * 2)) in *.
    assert (Hn : Rabs nf <= 1.03) by (apply Rabs_le; lra).
    pose proof (through_angle nf Hn) as H3.
    apply Rabs_le_inv in H3. apply Rabs_le. lra.
Qed.

(** Forward accuracy: x over the width is 2f - 1 up to rounding. *)
Lemma forward_accuracy (f t : R) :
  -0.01 <= f <= 1.01 -> -1e-6 <= t <= 1 + 1e-6 ->
  let display := logicalToDisplay rnd Math_tan (mkLogical f t) in
  let width := currentWidth rnd Math_tan (z display) in
  y display = 0 /\ z display = rnd (t * maxRadius) /\
  0.28 <= width <= 10.5 /\
  Rabs (x display / width - (2 * f - 1)) <= 6.4e-16.
Proof.
  pose proof underflowUnit_small as Heta.
  intros Hf Ht display width. subst display width.
  unfold logicalToDisplay. cbn [x y z frequency time].
  destruct (radius_range t Ht) as [_ Hr].
  pose proof (currentWidth_range _ Hr) as Hw.
  set (w := currentWidth rnd Math_tan (rnd (t * maxRadius))) in *.
  pose proof (lateral_fraction f Hf) as Hq. cbv zeta in Hq.
  set (q := rnd (_ / halfArc rnd)) in *.
  split; [reflexivity |]. split; [reflexivity |]. split; [exact Hw |].
  assert (Hqb : Rabs q <= 1.03).
  { apply Rabs_le_inv in Hq. apply Rabs_le. lra. }
  pose proof (rnd_scaled w q 1.03 ltac:(lra) Hqb) as H1.
  assert (H2 : Rabs (rnd (w * q) / w - q)
               <= 1.2e-16 * 1.03 + underflowUnit / 0.28).
  { apply (quotient_within _ w q 0.28); try lra. }
  apply Rabs_le_inv in H2. apply Rabs_le_inv in Hq. apply Rabs_le. lra.
Qed.

Lemma clamp_in_unit (v : R) : 0 <= Rmax 0 (Rmin 1 v) <= 1.
Proof. unfold Rmax, Rmin. repeat destruct (Rle_dec _ _); lra. Qed.

Lemma ratio_within (a w B : R) :
  0 < w -> Rabs a <= B * w -> 0 <= Rabs a / w <= B.
Proof.
  intros Hw Ha. pose proof (Rabs_pos a) as Hp.
  assert (Hi : 0 < / w) by (apply Rinv_0_lt_compat, Hw).
  split.
  - apply Rmult_le_pos; lra.
  - apply (Rmult_le_reg_r w); [exact Hw |].
    unfold Rdiv. rewrite Rmult_assoc, Rinv_l, Rmult_1_r by lra.
    exact Ha.
Qed.

(** Backward accuracy: the frequency is 0.5 + x / (2 width), clamped, up
    to rounding. *)
Lemma backward_accuracy (display : DisplayCoordinates) :
  -0.001 <= z display <= 10.1 ->
  let width := currentWidth rnd Math_tan (z display) in
  Rabs (x display) <= 1.05 * width ->
  let logical := displayToLogical rnd Math_tan display in
  Rabs (frequency logical
        - Rmax 0 (Rmin 1 (0.5 + x display / width * 0.5))) <= 2.5e-16 /\
  time logical = Rmax 0 (Rmin 1 (rnd (z display / maxRadius))).
Proof.
  pose proof underflowUnit_small as Heta.
  intros Hz width Hx logical. subst logical.
  pose proof (currentWidth_range _ Hz) as Hw. fold width in Hw.
  unfold displayToLogical. fold width.
  assert (Hne : Reqb width 0 = false).
  { unfold Reqb. destruct (Req_dec_T width 0); [lra | reflexivity]. }
  rewrite Hne. cbn [frequency time]. split; [| reflexivity].
  destruct (ratio_within (x display) width 1.05 ltac:(lra) Hx)
    as [Hr0 Hr1].
  set (ratio := Rabs (x display) / width) in *.
  pose proof (rnd_between ratio 1.05 ltac:(lra)) as H1.
  assert (H2 : Rabs (Rmax 0 (Rmin 1 (rnd ratio)) - Rmax 0 (Rmin 1 ratio))
               <= 1.2e-16 * 1.05 + underflowUnit).
  { apply clamp_close. apply Rabs_le. lra. }
  apply Rabs_le_inv in H2.
  pose proof (clamp_in_unit (rnd ratio)) as Hc.
  pose proof (clamp_in_unit ratio) as Hc'.
  set (nfq := Rmax 0 (Rmin 1 (rnd ratio))) in *.
  set (c := Rmax 0 (Rmin 1 ratio)) in *.
  pose proof (rnd_between (nfq * 0.5) 0.5 ltac:(lra)) as H3.
  unfold Rltb. destruct (Rlt_dec (x display) 0) as [Hneg | Hpos].
  - pose proof (rnd_between (0.5 - rnd (nfq * 0.5)) 0.51 ltac:(lra))
      as H4.
    assert (Htarget : Rmax 0 (Rmin 1 (0.5 + x display / width * 0.5))
                      = 0.5 - c * 0.5).
    { subst c ratio. rewrite Rabs_left by exact Hneg.
      replace (- x display / width) with (- (x display / width))
        by (field; lra).
      assert (x display / width <= 0).
      { assert (0 < / width) by (apply Rinv_0_lt_compat; lra).
        unfold Rdiv. nra. }
      unfold Rmax, Rmin. repeat destruct (Rle_dec _ _); lra. }
    rewrite Htarget.
    apply clamp_toward; [lra |]. apply Rabs_le. lra.
  - pose proof (rnd_between (0.5 + rnd (nfq * 0.5)) 1.01 ltac:(lra))
      as H4.
    assert (Htarget : Rmax 0 (Rmin 1 (0.5 + x display / width * 0.5))
                      = 0.5 + c * 0.5).
    { subst c ratio. rewrite Rabs_pos_eq by lra.
      assert (0 <= x display / width).
      { assert (0 < / width) by (apply Rinv_0_lt_compat; lra).
        unfold Rdiv. nra. }
      unfold Rmax, Rmin. repeat destruct (Rle_dec _ _); lra. }
    rewrite Htarget.
    apply clamp_toward; [lra |]. apply Rabs_le. lra.
Qed.

(** The width follows the distance from the mouth. *)
Lemma width_near (z1 z2 D : R) :
  -0.001 <= z1 <= 10.1 -> -0.001 <= z2 <= 10.1 ->
  Rabs (z1 - z2) <= D ->
  Rabs (currentWidth rnd Math_tan z1 - currentWidth rnd Math_tan z2)
  <= D + 5.5e-15.
Proof.
  pose proof underflowUnit_small as Heta.
  intros H1 H2 Hd. unfold currentWidth.
  pose proof tangent_range as HT. pose proof mouthWidth_range as Hm.
  set (T := Math_tan (halfArc rnd)) in *.
  apply Rabs_le_inv in Hd.
  assert (Hp1 : -0.001 <= z1 * T <= 10.1) by nra.
  assert (Hp2 : -0.001 <= z2 * T <= 10.1) by nra.
  assert (Hpd : - D <= z1 * T - z2 * T <= D) by nra.
  pose proof (rnd_between (z1 * T) 10.1 ltac:(lra)) as Ha1.
  pose proof (rnd_between (z2 * T) 10.1 ltac:(lra)) as Ha2.
  pose proof (rnd_between (mouthWidth rnd + rnd (z1 * T)) 10.5
                ltac:(lra)) as Hb1.
  pose proof (rnd_between (mouthWidth rnd + rnd (z2 * T)) 10.5
                ltac:(lra)) as Hb2.
  apply Rabs_le. lra.
Qed.

End Bounds.

Lemma scaled_within (a w B : R) :
  0 < w -> Rabs (a / w) <= B -> Rabs a <= B * w.
Proof.
  intros Hw H.
  replace a with (a / w * w) by (field; lra).
  rewrite Rabs_mult, (Rabs_pos_eq w) by lra.
  apply Rmult_le_compat_r; lra.
Qed.

(** Instances of the two assumptions: a rounding that always errs
    upwards by half a unit in the last place, and a constant tangent. *)
Lemma inflating_rounds :
  roundsLikeBinary64 (fun v => v * (1 + / 2 ^ 54)).
Proof.
  intros v. pose proof underflowUnit_small as [He _].
  replace (v * (1 + / 2 ^ 54) - v) with (v * / 2 ^ 54) by ring.
  rewrite Rabs_mult, (Rabs_pos_eq (/ 2 ^ 54)) by lra.
  pose proof (Rabs_pos v). unfold unitRoundoff. nra.
Qed.

Lemma constant_tangent_in_range :
  tangentInRange (fun _ => 0.5773502691896257).
Proof. intros v _. lra. Qed.

(** C1, as the code has it.  Round trip under rounding: for every logical
    coordinate [(f, t)] of the unit square, also at [t = 0],
    [displayToLogical (logicalToDisplay (f, t))] gives back [f] and [t]
    to within 1e-15 each, an absolute error.  The error is not relative:
    for [f] near 0 it is large compared with [f]. *)
Theorem roundtrip_within_rounding (rnd Math_tan : R -> R) (f t : R) :
  roundsLikeBinary64 rnd -> tangentInRange Math_tan ->
  0 <= f <= 1 -> 0 <= t <= 1 ->
  let back := displayToLogical rnd Math_tan
                (logicalToDisplay rnd Math_tan (mkLogical f t)) in
  Rabs (frequency back - f) <= 1e-15 /\ Rabs (time back - t) <= 1e-15.
Proof.
  pose proof underflowUnit_small as Heta.
  intros Hrnd Htan Hf Ht back. subst back.
  destruct (forward_accuracy rnd Math_tan Hrnd Htan f t ltac:(lra)
              ltac:(lra))
    as (_ & Hz & Hw & Hx).
  cbv zeta in Hz, Hw, Hx.
  set (display := logicalToDisplay rnd Math_tan (mkLogical f t)) in *.
  destruct (radius_range rnd Hrnd t ltac:(lra)) as [Hrad Hr].
  rewrite <- Hz in Hrad, Hr.
  set (width := currentWidth rnd Math_tan (z display)) in *.
  assert (Hxw : Rabs (x display) <= 1.05 * width).
  { apply scaled_within; [lra |].
    apply Rabs_le_inv in Hx. apply Rabs_le. lra. }
  destruct (backward_accuracy rnd Math_tan Hrnd Htan display Hr Hxw)
    as [Hfreq Htime].
  cbv zeta in Hfreq, Htime. fold width in Hfreq.
  split.
  - assert (Hmid : Rabs (Rmax 0 (Rmin 1 (0.5 + x display / width * 0.5))
                         - f) <= 3.2e-16).
    { apply clamp_toward; [exact Hf |].
      apply Rabs_le_inv in Hx. apply Rabs_le. lra. }
    apply Rabs_le_inv in Hmid. apply Rabs_le_inv in Hfreq.
    apply Rabs_le. lra.
  - rewrite Htime. apply clamp_toward; [exact Ht |].
    unfold maxRadius in *.
    apply Rabs_le_inv in Hrad.
    pose proof (rnd_between rnd Hrnd (z display / 10) 1.01 ltac:(lra))
      as H.
    apply Rabs_le. lra.
Qed.

Lemma roundtrip_within_rounding_witness :
  let rnd := fun v => v * (1 + / 2 ^ 54) in
  let Math_tan := fun _ : R => 0.5773502691896257 in
  roundsLikeBinary64 rnd /\ tangentInRange Math_tan /\
  0 <= 0.25 <= 1 /\ 0 <= 0.5 <= 1 /\
  Rabs (frequency (displayToLogical rnd Math_tan
                     (logicalToDisplay rnd Math_tan (mkLogical 0.25 0.5)))
        - 0.25) <= 1e-15.
Proof.
  cbv zeta.
  assert (Hf : 0 <= 0.25 <= 1) by lra.
  assert (Ht : 0 <= 0.5 <= 1) by lra.
  split; [exact inflating_rounds |].
  split; [exact constant_tangent_in_range |].
  split; [exact Hf |]. split; [exact Ht |].
  apply (roundtrip_within_rounding _ _ 0.25 0.5 inflating_rounds
           constant_tangent_in_range Hf Ht).
Defined.

(** C5, as the code has it.  Bilateral symmetry under rounding: the
    points of [(f, t)] and of [(1 - f, t)], the difference rounded as the
    caller computes it, lie at the same distance [z] from the mouth, and
    their lateral offsets are opposite up to 2e-15 of the width of the
    wedge at that distance, which is at most 10.5. *)
Theorem mirror_within_rounding (rnd Math_tan : R -> R) (f t : R) :
  roundsLikeBinary64 rnd -> tangentInRange Math_tan ->
  0 <= f <= 1 -> 0 <= t <= 1 ->
  let left := logicalToDisplay rnd Math_tan (mkLogical f t) in
  let right := logicalToDisplay rnd Math_tan (mkLogical (rnd (1 - f)) t) in
  let width := currentWidth rnd Math_tan (z left) in
  z left = z right /\ 0.28 <= width <= 10.5 /\
  Rabs (x left + x right) <= 2e-15 * width.
Proof.
  pose proof underflowUnit_small as Heta.
  intros Hrnd Htan Hf Ht left right width. subst left right width.
  pose proof (rnd_between rnd Hrnd (1 - f) 1 ltac:(lra)) as Hm.
  destruct (forward_accuracy rnd Math_tan Hrnd Htan f t ltac:(lra)
              ltac:(lra))
    as (_ & Hz1 & Hw & Hx1).
  destruct (forward_accuracy rnd Math_tan Hrnd Htan (rnd (1 - f)) t
              ltac:(lra) ltac:(lra))
    as (_ & Hz2 & _ & Hx2).
  cbv zeta in *. rewrite Hz2, <- Hz1 in Hx2.
  set (left := logicalToDisplay rnd Math_tan (mkLogical f t)) in *.
  set (right := logicalToDisplay rnd Math_tan (mkLogical (rnd (1 - f)) t))
    in *.
  set (width := currentWidth rnd Math_tan (z left)) in *.
  split; [congruence |]. split; [exact Hw |].
  rewrite (Rmult_comm _ width).
  replace (x left + x right)
    with (width * (x left / width + x right / width)) by (field; lra).
  rewrite Rabs_mult, (Rabs_pos_eq width) by lra.
  apply Rmult_le_compat_l; [lra |].
  apply Rabs_le_inv in Hx1. apply Rabs_le_inv in Hx2.
  apply Rabs_le. lra.
Qed.

Lemma mirror_within_rounding_witness :
  let rnd := fun v => v * (1 + / 2 ^ 54) in
  let Math_tan := fun _ : R => 0.5773502691896257 in
  roundsLikeBinary64 rnd /\ tangentInRange Math_tan /\
  0 <= 0.3 <= 1 /\ 0 <= 0.5 <= 1 /\
  z (logicalToDisplay rnd Math_tan (mkLogical 0.3 0.5))
  = z (logicalToDisplay rnd Math_tan (mkLogical (rnd (1 - 0.3)) 0.5)).
Proof.
  cbv zeta.
  assert (Hf : 0 <= 0.3 <= 1) by lra.
  assert (Ht : 0 <= 0.5 <= 1) by lra.
  split; [exact inflating_rounds |].
  split; [exact constant_tangent_in_range |].
  split; [exact Hf |]. split; [exact Ht |].
  apply (mirror_within_rounding _ _ 0.3 0.5 inflating_rounds
           constant_tangent_in_range Hf Ht).
Defined.

End CoordinateTransformRoundedProps.

(** ** Coordinate transform on doubles *)

Module CoordinateTransform64Props.
Import Floats CoordinateTransform64.
Local Open Scope float_scope.
Local Set Warnings "-inexact-float".

(** C1 as stated fails for a frequency near 0.  On doubles the round trip
    of [(1e-12, 0.5)] returns the frequency 1.0000333894311098e-12,
    whichever of the candidate values [Math.tan] returns: off by more
    than 1e-6 of the frequency put in. *)
Lemma roundtrip_relative_error_exceeded :
  Forall (fun T =>
    let back := displayToLogical (fun _ => T)
                  (logicalToDisplay (fun _ => T) (mkLogical 1e-12 0.5)) in
    frequency back = 1.0000333894311098e-12 /\
    (1e-6 * abs 1e-12 <? abs (frequency back - 1e-12)) = true)
    tangentCandidates.
Proof. vm_compute. repeat constructor. Qed.

(** C5 as stated fails at [(0.3, 0)].  On doubles the lateral offsets of
    [(0.3, 0)] and of [(1 - 0.3, 0)] are -0.12 and 0.11999999999999997:
    not opposite. *)
Lemma mirror_not_exact :
  Forall (fun T =>
    let left := logicalToDisplay (fun _ => T) (mkLogical 0.3 0) in
    let right := logicalToDisplay (fun _ => T) (mkLogical (1 - 0.3) 0) in
    x left = -0.12 /\ - x right = -0.11999999999999997 /\
    (x left =? - x right) = false)
    tangentCandidates.
Proof. vm_compute. repeat constructor. Qed.

End CoordinateTransform64Props.

(** ** The simple wedge model: height sampling *)

Module WaveEngineProps.
Import WaveEngine.

(** C10. Whatever waves the engine holds, a query whose frequency or
    time lies outside [0, 1] is answered with the height 0: the guard
    returns before any wave is looked at, and nothing is clamped into
    range. *)
Theorem height_outside_bounds (e : Engine) (frequency time : R) :
  frequency < 0 \/ frequency > 1 \/ time < 0 \/ time > 1 ->
  calculateHeightAtPosition e frequency time = 0.
Proof.
  intros Hout. unfold calculateHeightAtPosition, Rgtb.
  destruct Hout as [H | [H | [H | H]]].
  - rewrite (Rltb_lt _ _ H). reflexivity.
  - rewrite (Rltb_lt 1 frequency) by lra.
    rewrite orb_true_r. reflexivity.
  - rewrite (Rltb_lt _ _ H). rewrite orb_true_r. reflexivity.
  - rewrite (Rltb_lt 1 time) by lra. rewrite orb_true_r. reflexivity.
Qed.

Lemma height_outside_bounds_witness :
  let e := generateWave vowel initial in
  (1.5 < 0 \/ 1.5 > 1 \/ 0.5 < 0 \/ 0.5 > 1) /\
  calculateHeightAtPosition e 1.5 0.5 = 0.
Proof.
  split.
  - right; left; lra.
  - apply height_outside_bounds. right; left; lra.
Defined.

End WaveEngineProps.

(** ** The spectrogram synthesizer: envelope *)

Module EnvelopeProps.
Import PolarField PolarWaveEngine.

Lemma baseEnvelope_attack (t : R) (p : Profile) :
  t < attackTime p -> baseEnvelope t p = t / attackTime p.
Proof.
  intros H. unfold baseEnvelope. rewrite (Rltb_lt _ _ H). reflexivity.
Qed.

Lemma baseEnvelope_sustain (t : R) (p : Profile) :
  attackTime p <= t -> t <= duration p - decayTime p ->
  baseEnvelope t p = sustainLevel p.
Proof.
  intros H1 H2. unfold baseEnvelope, Rgtb.
  rewrite (Rltb_ge _ _ H1), (Rltb_ge _ _ H2). reflexivity.
Qed.

(** In the decay window the code ramps down from 1, whatever the
    sustain level is. *)
Lemma baseEnvelope_decay (t : R) (p : Profile) :
  attackTime p <= t -> duration p - decayTime p < t ->
  baseEnvelope t p
  = 1 - (t - (duration p - decayTime p)) / decayTime p.
Proof.
  intros H1 H2. unfold baseEnvelope, Rgtb.
  rewrite (Rltb_ge _ _ H1), (Rltb_lt _ _ H2). lra.
Qed.

(** Only the trill is modulated. *)
Lemma envelopeAt_unmodulated (ty : PhoneticType) (t : R) :
  ty <> trill ->
  envelopeAt ty t (phoneticProfiles ty) = baseEnvelope t (phoneticProfiles ty).
Proof. destruct ty; intros H; try reflexivity. now destruct H. Qed.

(** C3, the code at the first frame of the vowel's decay window.  With
    duration 800 and decay time 200 the window opens after frame 600.
    At frame 600 the envelope is the sustain level 0.9; at frame 601 the
    code gives 1 - 1/200 = 0.995, above the sustain level, where a ramp
    from the sustain level down to 0 gives 0.9 * (1 - 1/200) = 0.8955. *)
Theorem vowel_decay_restarts_from_one :
  let p := phoneticProfiles vowel in
  envelopeAt vowel 600 p = sustainLevel p /\
  envelopeAt vowel 601 p = 0.995 /\
  sustainLevel p * (1 - (601 - (duration p - decayTime p)) / decayTime p)
  = 0.8955 /\
  envelopeAt vowel 601 p > sustainLevel p.
Proof.
  cbv zeta.
  rewrite !envelopeAt_unmodulated by discriminate.
  rewrite baseEnvelope_sustain, baseEnvelope_decay;
    cbn [phoneticProfiles attackTime duration decayTime sustainLevel];
    lra.
Qed.

End EnvelopeProps.

(** ** The spectrogram synthesizer: bins and normalization *)

Module SynthesizerProps.
Import PolarField PolarWaveEngine EnvelopeProps.

(** *** Updates of the bin array *)

Lemma add_at_length (bins : list R) (i : nat) (v : R) :
  List.length (add_at bins i v) = List.length bins.
Proof.
  revert i; induction bins as [| b rest IH]; intros [| k]; simpl; auto.
Qed.

Lemma add_at_nth (bins : list R) (i j : nat) (v : R) :
  (i < List.length bins)%nat ->
  nth j (add_at bins i v) 0
  = nth j bins 0 + (if Nat.eqb i j then v else 0).
Proof.
  revert i j; induction bins as [| b rest IH]; intros i j Hi.
  - simpl in Hi; lia.
  - destruct i as [| i], j as [| j]; simpl; try lra.
    apply IH. simpl in Hi; lia.
Qed.

Lemma add_at_nonneg (bins : list R) (i : nat) (v : R) :
  0 <= v -> Forall (fun b => 0 <= b) bins ->
  Forall (fun b => 0 <= b) (add_at bins i v).
Proof.
  intros Hv H; revert i.
  induction H as [| b rest Hb Hrest IH]; intros i.
  - destruct i; simpl; constructor.
  - destruct i as [| k]; simpl; constructor; auto. lra.
Qed.

(** A loop keeps what each of its steps keeps. *)
Lemma fold_left_keeps {A B : Type} (P : A -> Prop) (f : A -> B -> A)
      (l : list B) :
  (forall a b, P a -> P (f a b)) -> forall a, P a -> P (fold_left f l a).
Proof.
  intros Hstep; induction l as [| b l IH]; intros a Ha; simpl; auto.
Qed.

Lemma gaussianAt_pos (w b i : Z) : 0 < gaussianAt w b i.
Proof. apply exp_pos. Qed.

Lemma gaussianAt_center (w b : Z) : (0 < w)%Z -> gaussianAt w b b = 1.
Proof.
  intros Hw. unfold gaussianAt.
  rewrite Z.sub_diag. simpl Z.abs.
  replace (- (0 * 0) / (2 * (IZR w / 3) * (IZR w / 3))) with 0.
  - apply exp_0.
  - assert (0 < IZR w) by (apply IZR_lt; exact Hw).
    field. lra.
Qed.

Lemma gaussianAt_le_1 (w b i : Z) : (0 < w)%Z -> gaussianAt w b i <= 1.
Proof.
  intros Hw. unfold gaussianAt.
  rewrite <- exp_0.
  assert (Hw' : 0 < IZR w) by (apply IZR_lt; exact Hw).
  set (d := IZR (Z.abs (i - b))).
  assert (Hq : 0 <= d * d / (2 * (IZR w / 3) * (IZR w / 3))).
  { apply Rmult_le_pos; [nra |].
    apply Rlt_le, Rinv_0_lt_compat. nra. }
  destruct (Req_dec_T (d * d / (2 * (IZR w / 3) * (IZR w / 3))) 0)
    as [E | N].
  - right. f_equal. unfold Rdiv in *. rewrite Ropp_mult_distr_l_reverse.
    rewrite E. lra.
  - left. apply exp_increasing. unfold Rdiv in *.
    rewrite Ropp_mult_distr_l_reverse. lra.
Qed.

Lemma addPeak_length p env bins c :
  List.length (addPeak p env bins c) = List.length bins.
Proof.
  unfold addPeak.
  apply (fold_left_keeps (fun b => List.length b = List.length bins)).
  - intros a i Ha. rewrite add_at_length. exact Ha.
  - reflexivity.
Qed.

Lemma addPeaks_length p env bins :
  List.length (addPeaks p env bins) = List.length bins.
Proof.
  unfold addPeaks.
  apply (fold_left_keeps (fun b => List.length b = List.length bins)).
  - intros a c Ha. rewrite addPeak_length. exact Ha.
  - reflexivity.
Qed.

Lemma addNoise_length noise env bins :
  List.length (addNoise noise env bins) = List.length bins.
Proof.
  unfold addNoise.
  apply (fold_left_keeps (fun b => List.length b = List.length bins)).
  - intros a i Ha. rewrite add_at_length. exact Ha.
  - reflexivity.
Qed.

(** Every frame has 100 bins before normalization. *)
Lemma rawBins_length ty t p noise :
  List.length (rawBins ty t p noise) = 100%nat.
Proof.
  unfold rawBins.
  destruct (PhoneticType_eqb ty fricative);
    rewrite ?addNoise_length, addPeaks_length, repeat_length; reflexivity.
Qed.

(** *** No bin is negative while the envelope is not *)

Lemma addPeaks_nonneg p env bins :
  0 <= amplitude p -> 0 <= env ->
  Forall (fun b => 0 <= b) bins ->
  Forall (fun b => 0 <= b) (addPeaks p env bins).
Proof.
  intros Ha He. unfold addPeaks. apply fold_left_keeps.
  intros a c Hbins. unfold addPeak. revert Hbins.
  apply fold_left_keeps. intros a' i Hbins.
  apply add_at_nonneg; [| exact Hbins].
  apply Rmult_le_pos; [apply Rmult_le_pos; assumption |].
  apply Rlt_le, gaussianAt_pos.
Qed.

Lemma addNoise_nonneg noise env bins :
  unitDraws noise -> 0 <= env ->
  Forall (fun b => 0 <= b) bins ->
  Forall (fun b => 0 <= b) (addNoise noise env bins).
Proof.
  intros Hn He. unfold addNoise. apply fold_left_keeps.
  intros a i Hbins. apply add_at_nonneg; [| exact Hbins].
  pose proof (Hn (Z.to_nat i)) as [H0 _].
  apply Rmult_le_pos; [apply Rmult_le_pos; lra | exact He].
Qed.

Lemma baseEnvelope_nonneg (t : R) (p : Profile) :
  wellFormed p -> 0 <= t <= duration p -> 0 <= baseEnvelope t p.
Proof.
  intros (Hatt & Hdec & Hsus & _) [Ht0 Ht1]. unfold baseEnvelope, Rgtb.
  destruct (Rltb t (attackTime p)).
  - apply Rmult_le_pos; [exact Ht0 |].
    apply Rlt_le, Rinv_0_lt_compat, Hatt.
  - destruct (Rltb (duration p - decayTime p) t); [| exact Hsus].
    assert ((t - (duration p - decayTime p)) / decayTime p <= 1).
    { apply (Rmult_le_reg_r (decayTime p)); [exact Hdec |].
      unfold Rdiv. rewrite Rmult_assoc, Rinv_l by lra. lra. }
    lra.
Qed.

Lemma envelopeAt_nonneg (ty : PhoneticType) (t : R) (p : Profile) :
  wellFormed p -> 0 <= t <= duration p -> 0 <= envelopeAt ty t p.
Proof.
  intros Hp Ht. pose proof (baseEnvelope_nonneg t p Hp Ht) as Hb.
  unfold envelopeAt.
  destruct ty; try exact Hb.
  destruct (truthyRate (modulationRate p)) as [rate |]; [| exact Hb].
  pose proof (SIN_bound (t / duration p * rate * PI * 2)) as [Hs _].
  apply Rmult_le_pos; [exact Hb | lra].
Qed.

Lemma rawBins_nonneg ty t p noise :
  wellFormed p -> unitDraws noise -> 0 <= t <= duration p ->
  Forall (fun b => 0 <= b) (rawBins ty t p noise).
Proof.
  intros Hp Hn Ht.
  pose proof (envelopeAt_nonneg ty t p Hp Ht) as He.
  assert (Ha : 0 <= amplitude p) by apply Hp.
  assert (H0 : Forall (fun b => 0 <= b)
                      (repeat 0 (Z.to_nat frequencyBinCount))).
  { apply Forall_forall. intros b Hb.
    apply repeat_spec in Hb. lra. }
  unfold rawBins.
  destruct (PhoneticType_eqb ty fricative).
  - apply addNoise_nonneg; auto. apply addPeaks_nonneg; auto.
  - apply addPeaks_nonneg; auto.
Qed.

Lemma table_wellFormed (ty : PhoneticType) : wellFormed (phoneticProfiles ty).
Proof. destruct ty; unfold wellFormed; simpl; lra. Qed.

(** *** Normalization *)

Lemma normalize_scaled (bins : list R) :
  0 < MaxRlist bins ->
  normalize bins = map (fun b => Rmax 0 (b / MaxRlist bins)) bins.
Proof.
  intros H. unfold normalize, Rgtb. rewrite (Rltb_lt _ _ H). reflexivity.
Qed.

Lemma normalize_skipped (bins : list R) :
  MaxRlist bins <= 0 -> normalize bins = bins.
Proof.
  intros H. unfold normalize, Rgtb. rewrite (Rltb_ge _ _ H). reflexivity.
Qed.

Lemma normalize_unit (bins : list R) :
  Forall (fun b => 0 <= b) bins ->
  Forall (fun b => 0 <= b <= 1) (normalize bins).
Proof.
  intros Hpos.
  destruct (Rlt_dec 0 (MaxRlist bins)) as [Hmax | Hmax].
  - rewrite normalize_scaled by exact Hmax.
    apply Forall_forall. intros v Hv.
    apply in_map_iff in Hv as (b & <- & Hb).
    pose proof (MaxRlist_P1 bins b Hb) as Hle.
    split; [apply Rmax_l |].
    apply Rmax_lub; [lra |].
    apply (Rmult_le_reg_r (MaxRlist bins)); [exact Hmax |].
    unfold Rdiv. rewrite Rmult_assoc, Rinv_l by lra. lra.
  - rewrite normalize_skipped by lra.
    apply Forall_forall. intros b Hb.
    pose proof (MaxRlist_P1 bins b Hb) as Hle.
    rewrite Forall_forall in Hpos. specialize (Hpos b Hb). lra.
Qed.

Lemma normalize_peak (bins : list R) :
  Exists (fun b => 0 < b) bins -> Exists (fun b => b = 1) (normalize bins).
Proof.
  intros Hex. apply Exists_exists in Hex as (b & Hb & Hpos).
  pose proof (MaxRlist_P1 bins b Hb) as Hle.
  assert (Hmax : 0 < MaxRlist bins) by lra.
  rewrite normalize_scaled by exact Hmax.
  apply Exists_exists. exists 1. split; [| reflexivity].
  apply in_map_iff. exists (MaxRlist bins). split.
  - unfold Rdiv. rewrite Rinv_r by lra. apply Rmax_right. lra.
  - apply MaxRlist_P2. exists b. exact Hb.
Qed.

Lemma normalize_silent (bins : list R) :
  Forall (fun b => b = 0) bins -> normalize bins = bins.
Proof.
  intros Hz. apply normalize_skipped.
  destruct bins as [| b rest]; [simpl; lra |].
  assert (Hin : In (MaxRlist (b :: rest)) (b :: rest)).
  { apply MaxRlist_P2. exists b. left. reflexivity. }
  rewrite Forall_forall in Hz. rewrite (Hz _ Hin). lra.
Qed.

Lemma normalize_unit_scaled (bins : list R) :
  0 < MaxRlist bins -> Forall (fun b => 0 <= b <= 1) (normalize bins).
Proof.
  intros Hmax. rewrite normalize_scaled by exact Hmax.
  apply Forall_forall. intros v Hv.
  apply in_map_iff in Hv as (b & <- & Hb).
  pose proof (MaxRlist_P1 bins b Hb) as Hle.
  split; [apply Rmax_l |].
  apply Rmax_lub; [lra |].
  apply (Rmult_le_reg_r (MaxRlist bins)); [exact Hmax |].
  unfold Rdiv. rewrite Rmult_assoc, Rinv_l by lra. lra.
Qed.

Lemma positive_bin_max (bins : list R) :
  Exists (fun b => 0 < b) bins -> 0 < MaxRlist bins.
Proof.
  intros Hex. apply Exists_exists in Hex as (b & Hb & Hpos).
  pose proof (MaxRlist_P1 bins b Hb). lra.
Qed.

(** C2.  For every phonetic type, profile, time index and draw of the
    noise: if some bin is positive before normalization, every bin of the
    returned frame lies in [0, 1] and some bin is exactly 1; if all bins
    are zero before normalization, the frame is returned as it is, all
    zero.  One of the two is the case, and so every bin of the returned
    frame lies in [0, 1], for every frame the engine asks for: a
    well-formed profile (each of the four table entries is one), a time
    index within the duration and draws of [0, 1). *)
Theorem frame_normalized (ty : PhoneticType) (t : R) (p : Profile)
        (noise : nat -> R) :
  let raw := rawBins ty t p noise in
  let frame := generateSpectrogramFrame ty t p noise in
  (Exists (fun b => 0 < b) raw ->
   Forall (fun b => 0 <= b <= 1) (frequencyBins frame) /\
   Exists (fun b => b = 1) (frequencyBins frame)) /\
  (Forall (fun b => b = 0) raw ->
   frequencyBins frame = raw /\
   Forall (fun b => b = 0) (frequencyBins frame)) /\
  (wellFormed p -> unitDraws noise -> 0 <= t <= duration p ->
   Forall (fun b => 0 <= b) raw /\
   Forall (fun b => 0 <= b <= 1) (frequencyBins frame)).
Proof.
  intros raw frame. subst frame.
  cbn [frequencyBins generateSpectrogramFrame]. fold raw.
  split; [| split].
  - intros Hex. split.
    + apply normalize_unit_scaled, positive_bin_max, Hex.
    + apply normalize_peak, Hex.
  - intros Hz. rewrite normalize_silent by exact Hz. auto.
  - intros Hp Hn Ht.
    assert (Hraw : Forall (fun b => 0 <= b) raw)
      by (apply rawBins_nonneg; assumption).
    split; [exact Hraw | apply normalize_unit, Hraw].
Qed.

Lemma frame_normalized_witness :
  let p := phoneticProfiles vowel in
  let quiet := fun _ : nat => 0 in
  wellFormed p /\ unitDraws quiet /\ 0 <= 100 <= duration p /\
  Forall (fun b => 0 <= b <= 1)
         (frequencyBins (generateSpectrogramFrame vowel 100 p quiet)).
Proof.
  cbv zeta.
  assert (Hp : wellFormed (phoneticProfiles vowel))
    by (unfold wellFormed; simpl; lra).
  assert (Hn : unitDraws (fun _ : nat => 0)) by (intros i; lra).
  assert (Ht : 0 <= 100 <= duration (phoneticProfiles vowel))
    by (simpl; lra).
  split; [exact Hp |].
  split; [exact Hn |].
  split; [exact Ht |].
  apply (frame_normalized vowel 100 (phoneticProfiles vowel) (fun _ => 0));
    assumption.
Defined.

(** *** Closed form of the bins before normalization *)

(** A counting loop that adds [f i] to bin [i] for [i] from [lo] up to
    [lo + n - 1]. *)
Lemma add_loop_nth (f : Z -> R) (lo : Z) (n : nat) (bins : list R)
      (j : nat) :
  (0 <= lo)%Z -> (lo + Z.of_nat n <= Z.of_nat (List.length bins))%Z ->
  nth j (fold_left (fun bins i => add_at bins (Z.to_nat i) (f i))
                   (map (fun k => (lo + Z.of_nat k)%Z) (seq 0 n)) bins) 0
  = nth j bins 0
    + (if ((lo <=? Z.of_nat j) && (Z.of_nat j <? lo + Z.of_nat n))%Z
       then f (Z.of_nat j) else 0).
Proof.
  intros Hlo. induction n as [| n IH]; intros Hhi.
  - cbn [seq map fold_left]. replace (lo + Z.of_nat 0)%Z with lo by lia.
    destruct (Z.leb_spec lo (Z.of_nat j)), (Z.ltb_spec (Z.of_nat j) lo);
      cbn [andb]; try lra; lia.
  - rewrite seq_S, map_app, fold_left_app. simpl fold_left.
    rewrite add_at_nth.
    + rewrite IH by lia. clear IH.
      destruct (Nat.eqb_spec (Z.to_nat (lo + Z.of_nat n)) j) as [E | N].
      * replace (f (lo + Z.of_nat n)%Z) with (f (Z.of_nat j))
          by (f_equal; lia).
        destruct (Z.leb_spec lo (Z.of_nat j));
          destruct (Z.ltb_spec (Z.of_nat j) (lo + Z.of_nat n));
          destruct (Z.ltb_spec (Z.of_nat j) (lo + Z.of_nat (S n)));
          cbn [andb]; try lra; lia.
      * destruct (Z.leb_spec lo (Z.of_nat j));
          destruct (Z.ltb_spec (Z.of_nat j) (lo + Z.of_nat n));
          destruct (Z.ltb_spec (Z.of_nat j) (lo + Z.of_nat (S n)));
          cbn [andb]; try lra; lia.
    + match goal with
      | |- (_ < List.length (fold_left ?g ?l bins))%nat =>
          assert (Hlen : List.length (fold_left g l bins) = List.length bins)
      end.
      { apply (fold_left_keeps (fun b => List.length b = List.length bins)).
        - intros a i Ha. rewrite add_at_length. exact Ha.
        - reflexivity. }
      rewrite Hlen. lia.
Qed.

Lemma add_range_nth (f : Z -> R) (lo hi : Z) (bins : list R) (j : nat) :
  (0 <= lo)%Z -> (hi <= Z.of_nat (List.length bins))%Z ->
  nth j (fold_left (fun bins i => add_at bins (Z.to_nat i) (f i))
                   (Zrange lo hi) bins) 0
  = nth j bins 0
    + (if ((lo <=? Z.of_nat j) && (Z.of_nat j <? hi))%Z
       then f (Z.of_nat j) else 0).
Proof.
  intros Hlo Hhi. unfold Zrange.
  destruct (Z.le_gt_cases hi lo) as [Hempty | Hsome].
  { replace (Z.to_nat (hi - lo)) with 0%nat by lia.
    cbn [seq map fold_left].
    destruct (Z.leb_spec lo (Z.of_nat j));
      destruct (Z.ltb_spec (Z.of_nat j) hi);
      cbn [andb]; try lra; lia. }
  rewrite add_loop_nth by lia.
  f_equal.
  destruct (Z.leb_spec lo (Z.of_nat j));
    destruct (Z.ltb_spec (Z.of_nat j) hi);
    destruct (Z.ltb_spec (Z.of_nat j) (lo + Z.of_nat (Z.to_nat (hi - lo))));
    cbn [andb]; try reflexivity; lia.
Qed.

Lemma addPeak_nth p env bins c (j : nat) :
  List.length bins = 100%nat ->
  nth j (addPeak p env bins c) 0
  = nth j bins 0 + peakTerm p env c (Z.of_nat j).
Proof.
  intros Hlen. unfold addPeak, peakTerm, frequencyBinCount.
  rewrite add_range_nth; [reflexivity | lia | rewrite Hlen; lia].
Qed.

Lemma addPeaks_nth p env bins (j : nat) :
  List.length bins = 100%nat ->
  nth j (addPeaks p env bins) 0
  = fold_left (fun acc c => acc + peakTerm p env c (Z.of_nat j))
              (peakFrequencies p) (nth j bins 0).
Proof.
  unfold addPeaks. revert bins.
  induction (peakFrequencies p) as [| c cs IH]; intros bins Hlen.
  - reflexivity.
  - simpl. rewrite IH by (rewrite addPeak_length; exact Hlen).
    rewrite addPeak_nth by exact Hlen. reflexivity.
Qed.

Lemma addNoise_nth noise env bins (j : nat) :
  List.length bins = 100%nat -> (j < 100)%nat ->
  nth j (addNoise noise env bins) 0
  = nth j bins 0 + noise j * 0.1 * env.
Proof.
  intros Hlen Hj. unfold addNoise, frequencyBinCount.
  rewrite (add_range_nth (fun i => noise (Z.to_nat i) * 0.1 * env));
    [| lia | rewrite Hlen; lia].
  destruct (Z.leb_spec 0 (Z.of_nat j)); [| lia].
  destruct (Z.ltb_spec (Z.of_nat j) 100); [| lia].
  simpl. rewrite Nat2Z.id. reflexivity.
Qed.

(** The contribution of the peaks alone: what every run of the
    synthesizer on the same arguments computes, whatever is drawn. *)
Lemma peaks_nth ty t p (j : nat) :
  nth j (addPeaks p (envelopeAt ty t p)
                  (repeat 0 (Z.to_nat frequencyBinCount))) 0
  = fold_left
      (fun acc c => acc + peakTerm p (envelopeAt ty t p) c (Z.of_nat j))
      (peakFrequencies p) 0.
Proof.
  rewrite addPeaks_nth by apply repeat_length.
  f_equal. apply nth_repeat.
Qed.

(** *** Three peaks whose windows do not overlap *)

Lemma peakTerm_inside p env c j :
  (Z.max 0 (frequencyToBinIndex c - Zfloor (bandwidth p / 80)) <= j
   < Z.min 100 (frequencyToBinIndex c + Zfloor (bandwidth p / 80)))%Z ->
  peakTerm p env c j
  = amplitude p * env
    * gaussianAt (Zfloor (bandwidth p / 80)) (frequencyToBinIndex c) j.
Proof.
  intros [Hlo Hhi]. unfold peakTerm, frequencyBinCount.
  set (w := Zfloor (bandwidth p / 80)) in *.
  destruct (Z.leb_spec (Z.max 0 (frequencyToBinIndex c - w)) j); [| lia].
  destruct (Z.ltb_spec j (Z.min 100 (frequencyToBinIndex c + w))); [| lia].
  reflexivity.
Qed.

Lemma peakTerm_outside p env c j :
  (j < frequencyToBinIndex c - Zfloor (bandwidth p / 80)
   \/ frequencyToBinIndex c + Zfloor (bandwidth p / 80) <= j)%Z ->
  peakTerm p env c j = 0.
Proof.
  intros Hout. unfold peakTerm, frequencyBinCount.
  set (w := Zfloor (bandwidth p / 80)) in *.
  destruct (Z.leb_spec (Z.max 0 (frequencyToBinIndex c - w)) j);
    destruct (Z.ltb_spec j (Z.min 100 (frequencyToBinIndex c + w)));
    cbn [andb]; try reflexivity; lia.
Qed.

Lemma peakTerm_bounds p env c j :
  (0 < Zfloor (bandwidth p / 80))%Z ->
  0 <= amplitude p * env ->
  0 <= peakTerm p env c j <= amplitude p * env.
Proof.
  intros Hw He. unfold peakTerm.
  set (w := Zfloor (bandwidth p / 80)) in *.
  pose proof (gaussianAt_pos w (frequencyToBinIndex c) j) as Hg0.
  pose proof (gaussianAt_le_1 w (frequencyToBinIndex c) j Hw) as Hg1.
  destruct (_ && _)%bool; [nra | lra].
Qed.

Section ThreePeaks.
Variable p : Profile.
Variables c1 c2 c3 : R.
Hypothesis Hpeaks : peakFrequencies p = [c1; c2; c3].

Let w := Zfloor (bandwidth p / 80).
Let b1 := frequencyToBinIndex c1.
Let b2 := frequencyToBinIndex c2.
Let b3 := frequencyToBinIndex c3.

Hypothesis Hw : (0 < w)%Z.
Hypothesis H12 : (b1 + w <= b2 - w)%Z.
Hypothesis H23 : (b2 + w <= b3 - w)%Z.

(** No bin collects more than one peak, so none exceeds the height of a
    single peak. *)
Lemma three_peaks_le env j :
  0 <= amplitude p * env ->
  0 <= fold_left (fun acc c => acc + peakTerm p env c j)
                 (peakFrequencies p) 0
    <= amplitude p * env.
Proof.
  intros He. rewrite Hpeaks. cbn [fold_left].
  pose proof (peakTerm_bounds p env c1 j Hw He) as B1.
  pose proof (peakTerm_bounds p env c2 j Hw He) as B2.
  pose proof (peakTerm_bounds p env c3 j Hw He) as B3.
  destruct (Z.lt_ge_cases j (b2 - w)) as [L2 | G2].
  - rewrite (peakTerm_outside p env c2), (peakTerm_outside p env c3);
      fold w b2 b3; try lia. lra.
  - rewrite (peakTerm_outside p env c1) by (fold w b1; lia).
    destruct (Z.lt_ge_cases j (b3 - w)) as [L3 | G3].
    + rewrite (peakTerm_outside p env c3) by (fold w b3; lia). lra.
    + rewrite (peakTerm_outside p env c2) by (fold w b2; lia). lra.
Qed.

(** At the bin of a peak the sum is the full height of that peak. *)
Lemma three_peaks_at_center env c (b : Z) :
  In c [c1; c2; c3] ->
  frequencyToBinIndex c = b -> (0 <= b < 100)%Z ->
  fold_left (fun acc c' => acc + peakTerm p env c' b)
            (peakFrequencies p) 0
  = amplitude p * env.
Proof.
  intros Hin <- Hrange. rewrite Hpeaks. cbn [fold_left].
  assert (Hc : peakTerm p env c (frequencyToBinIndex c) = amplitude p * env).
  { rewrite peakTerm_inside by (fold w; lia). fold w.
    rewrite gaussianAt_center by exact Hw. lra. }
  destruct Hin as [<- | [<- | [<- | []]]]; rewrite Hc.
  - rewrite (peakTerm_outside p env c2), (peakTerm_outside p env c3);
      fold w b1 b2 b3; try lia. lra.
  - rewrite (peakTerm_outside p env c1), (peakTerm_outside p env c3);
      fold w b1 b2 b3; try lia. lra.
  - rewrite (peakTerm_outside p env c1), (peakTerm_outside p env c2);
      fold w b1 b2 b3; try lia. lra.
Qed.

End ThreePeaks.

(** The bins of the peaks in the two tables with narrow bands. *)

Ltac bin_index :=
  unfold frequencyToBinIndex, frequencyBinCount;
  change (IZR (100 - 1)) with 99;
  apply Zfloor_eq; lra.

Lemma vowel_bin_300 : frequencyToBinIndex 300 = 2%Z.
Proof. bin_index. Qed.
Lemma vowel_bin_1200 : frequencyToBinIndex 1200 = 13%Z.
Proof. bin_index. Qed.
Lemma vowel_bin_2500 : frequencyToBinIndex 2500 = 30%Z.
Proof. bin_index. Qed.
Lemma fricative_bin_3000 : frequencyToBinIndex 3000 = 36%Z.
Proof. bin_index. Qed.
Lemma fricative_bin_5000 : frequencyToBinIndex 5000 = 61%Z.
Proof. bin_index. Qed.
Lemma fricative_bin_7000 : frequencyToBinIndex 7000 = 86%Z.
Proof. bin_index. Qed.

Lemma vowel_bandwidthBins :
  Zfloor (bandwidth (phoneticProfiles vowel) / 80) = 2%Z.
Proof. apply Zfloor_eq. simpl. lra. Qed.

Lemma fricative_bandwidthBins :
  Zfloor (bandwidth (phoneticProfiles fricative) / 80) = 12%Z.
Proof. apply Zfloor_eq. simpl. lra. Qed.

(** *** The maximum of a frame *)

Lemma MaxRlist_attained (l : list R) (m : R) :
  In m l -> (forall v, In v l -> v <= m) -> MaxRlist l = m.
Proof.
  intros Hin Hub. apply Rle_antisym.
  - apply Hub. apply MaxRlist_P2. exists m. exact Hin.
  - apply MaxRlist_P1. exact Hin.
Qed.

Lemma MaxRlist_by_index (l : list R) (m : R) (k : nat) :
  (k < List.length l)%nat -> nth k l 0 = m ->
  (forall j, (j < List.length l)%nat -> nth j l 0 <= m) ->
  MaxRlist l = m.
Proof.
  intros Hk Hm Hub. apply MaxRlist_attained.
  - rewrite <- Hm. apply nth_In. exact Hk.
  - intros v Hv. destruct (In_nth l v 0 Hv) as (j & Hj & <-).
    apply Hub. exact Hj.
Qed.

Lemma normalize_nth (bins : list R) (j : nat) :
  0 < MaxRlist bins -> (j < List.length bins)%nat ->
  nth j (normalize bins) 0 = Rmax 0 (nth j bins 0 / MaxRlist bins).
Proof.
  intros Hmax Hj. rewrite normalize_scaled by exact Hmax.
  rewrite (nth_indep _ 0 (Rmax 0 (0 / MaxRlist bins)))
    by (rewrite length_map; exact Hj).
  apply (map_nth (fun b => Rmax 0 (b / MaxRlist bins))).
Qed.

(** *** Bins before normalization, by phonetic type *)

Lemma raw_nth_plain ty t p noise (j : nat) :
  ty <> fricative ->
  nth j (rawBins ty t p noise) 0
  = fold_left
      (fun acc c => acc + peakTerm p (envelopeAt ty t p) c (Z.of_nat j))
      (peakFrequencies p) 0.
Proof.
  intros Hty. unfold rawBins.
  replace (PhoneticType_eqb ty fricative) with false
    by (destruct ty; try reflexivity; now destruct Hty).
  apply peaks_nth.
Qed.

Lemma raw_nth_fricative t p noise (j : nat) :
  (j < 100)%nat ->
  nth j (rawBins fricative t p noise) 0
  = fold_left
      (fun acc c =>
         acc + peakTerm p (envelopeAt fricative t p) c (Z.of_nat j))
      (peakFrequencies p) 0
    + noise j * 0.1 * envelopeAt fricative t p.
Proof.
  intros Hj. unfold rawBins. cbn [PhoneticType_eqb].
  rewrite addNoise_nth;
    [| rewrite addPeaks_length; apply repeat_length | exact Hj].
  rewrite peaks_nth. reflexivity.
Qed.

(** *** The vowel *)

Lemma vowel_envelope_pos (t : R) :
  0 < t < 800 -> 0 < envelopeAt vowel t (phoneticProfiles vowel).
Proof.
  intros [H0 H1]. rewrite envelopeAt_unmodulated by discriminate.
  unfold baseEnvelope, Rgtb.
  cbn [phoneticProfiles attackTime duration decayTime sustainLevel].
  destruct (Rltb t 50); [lra |].
  destruct (Rltb (800 - 200) t); lra.
Qed.

Lemma vowel_envelope_0 : envelopeAt vowel 0 (phoneticProfiles vowel) = 0.
Proof.
  rewrite envelopeAt_unmodulated by discriminate.
  rewrite baseEnvelope_attack; simpl; lra.
Qed.

Lemma vowel_raw_le t noise (j : nat) :
  0 <= envelopeAt vowel t (phoneticProfiles vowel) ->
  nth j (rawBins vowel t (phoneticProfiles vowel) noise) 0
  <= 0.8 * envelopeAt vowel t (phoneticProfiles vowel).
Proof.
  intros He. rewrite raw_nth_plain by discriminate.
  apply (three_peaks_le (phoneticProfiles vowel) 300 1200 2500);
    rewrite ?vowel_bandwidthBins, ?vowel_bin_300, ?vowel_bin_1200,
            ?vowel_bin_2500;
    try reflexivity; try lia.
  change (amplitude (phoneticProfiles vowel)) with 0.8. lra.
Qed.

Lemma vowel_raw_peak t noise (c : R) :
  In c (peakFrequencies (phoneticProfiles vowel)) ->
  nth (Z.to_nat (frequencyToBinIndex c))
      (rawBins vowel t (phoneticProfiles vowel) noise) 0
  = 0.8 * envelopeAt vowel t (phoneticProfiles vowel).
Proof.
  intros Hin. rewrite raw_nth_plain by discriminate.
  assert (Hrange : (0 <= frequencyToBinIndex c < 100)%Z).
  { destruct Hin as [<- | [<- | [<- | []]]];
      rewrite ?vowel_bin_300, ?vowel_bin_1200, ?vowel_bin_2500; lia. }
  rewrite Z2Nat.id by lia.
  apply three_peaks_at_center
    with (c1 := 300) (c2 := 1200) (c3 := 2500) (c := c);
    rewrite ?vowel_bandwidthBins, ?vowel_bin_300, ?vowel_bin_1200,
            ?vowel_bin_2500;
    try reflexivity; try lia; assumption.
Qed.

Lemma vowel_max t noise :
  0 <= envelopeAt vowel t (phoneticProfiles vowel) ->
  MaxRlist (rawBins vowel t (phoneticProfiles vowel) noise)
  = 0.8 * envelopeAt vowel t (phoneticProfiles vowel).
Proof.
  intros He.
  apply (MaxRlist_by_index _ _ (Z.to_nat (frequencyToBinIndex 300))).
  - rewrite rawBins_length, vowel_bin_300. simpl. lia.
  - apply vowel_raw_peak. left. reflexivity.
  - intros j _. apply vowel_raw_le. exact He.
Qed.

(** The bin that holds the maximum is returned as 1. *)
Lemma normalize_at_max (bins : list R) (k : nat) :
  0 < MaxRlist bins -> (k < List.length bins)%nat ->
  nth k bins 0 = MaxRlist bins ->
  nth k (normalize bins) 0 = 1.
Proof.
  intros Hmax Hk Hnth. rewrite normalize_nth by assumption.
  rewrite Hnth. unfold Rdiv. rewrite Rinv_r by lra.
  apply Rmax_right. lra.
Qed.

Lemma vowel_peak_bin_range (c : R) :
  In c (peakFrequencies (phoneticProfiles vowel)) ->
  (Z.to_nat (frequencyToBinIndex c) < 100)%nat.
Proof.
  intros [<- | [<- | [<- | []]]];
    rewrite ?vowel_bin_300, ?vowel_bin_1200, ?vowel_bin_2500; simpl; lia.
Qed.

(** C7, as the code has it.  For the vowel, the returned frame holds
    exactly 1 at the bin of each of its peak frequencies for every time
    index strictly between 0 and the duration 800, and 0 at time index 0:
    the division by the maximum of the frame cancels the envelope, so the
    energy at the peaks is the same in the attack window, in the middle
    and in the decay window. *)
Theorem vowel_peak_energy (t : R) (noise : nat -> R) (c : R) :
  In c (peakFrequencies (phoneticProfiles vowel)) ->
  let bin := Z.to_nat (frequencyToBinIndex c) in
  let energy (t : R) :=
    nth bin (frequencyBins (generateSpectrogramFrame
                              vowel t (phoneticProfiles vowel) noise)) 0 in
  energy 0 = 0 /\ (0 < t < 800 -> energy t = 1).
Proof.
  intros Hin bin energy. subst energy bin. cbv beta.
  cbn [frequencyBins generateSpectrogramFrame].
  split.
  - rewrite normalize_skipped.
    + rewrite vowel_raw_peak by exact Hin.
      rewrite vowel_envelope_0. lra.
    + rewrite vowel_max; rewrite vowel_envelope_0; lra.
  - intros Ht. pose proof (vowel_envelope_pos t Ht) as He.
    apply normalize_at_max.
    + rewrite vowel_max by lra. lra.
    + rewrite rawBins_length. apply vowel_peak_bin_range, Hin.
    + rewrite vowel_raw_peak by exact Hin.
      rewrite vowel_max by lra. reflexivity.
Qed.

Lemma vowel_peak_energy_witness :
  let p := phoneticProfiles vowel in
  let quiet := fun _ : nat => 0 in
  In 300 (peakFrequencies p) /\ 0 < 20 < 800 /\
  nth (Z.to_nat (frequencyToBinIndex 300))
      (frequencyBins (generateSpectrogramFrame vowel 20 p quiet)) 0 = 1.
Proof.
  cbv zeta.
  assert (Hin : In 300 (peakFrequencies (phoneticProfiles vowel)))
    by (left; reflexivity).
  assert (Ht : 0 < 20 < 800) by lra.
  split; [exact Hin |].
  split; [exact Ht |].
  apply (vowel_peak_energy 20 (fun _ => 0) 300 Hin); exact Ht.
Defined.

(** C7 as stated fails in the attack window of the vowel (time indices
    below 50): at bin 2, the bin of the first formant (300 Hz), the frames
    of time index 1 and of time index 2 both hold 1, so the energy does
    not strictly increase from one to the other. *)
Lemma vowel_attack_not_increasing :
  let p := phoneticProfiles vowel in
  let energy (t : R) :=
    nth 2 (frequencyBins (generateSpectrogramFrame vowel t p (fun _ => 0)))
        0 in
  frequencyToBinIndex 300 = 2%Z /\
  1 < 2 < attackTime p /\
  energy 1 = 1 /\ energy 2 = 1 /\
  ~ (energy 1 < energy 2).
Proof.
  cbv beta zeta.
  assert (Hin : In 300 (peakFrequencies (phoneticProfiles vowel)))
    by (left; reflexivity).
  assert (Hone : forall t, 0 < t < 800 ->
            nth 2 (frequencyBins (generateSpectrogramFrame
                     vowel t (phoneticProfiles vowel) (fun _ => 0))) 0 = 1).
  { intros t Ht. pose proof (vowel_envelope_pos t Ht) as He.
    pose proof (vowel_raw_peak t (fun _ => 0) 300 Hin) as Hpeak.
    rewrite vowel_bin_300 in Hpeak. change (Z.to_nat 2) with 2%nat in Hpeak.
    cbn [frequencyBins generateSpectrogramFrame].
    apply normalize_at_max.
    - rewrite vowel_max by lra. lra.
    - rewrite rawBins_length. lia.
    - rewrite Hpeak, vowel_max by lra. reflexivity. }
  rewrite (Hone 1), (Hone 2) by lra.
  repeat split; solve [apply vowel_bin_300 | simpl; lra | lra].
Qed.

(** Past its duration the vowel's envelope is negative, no bin is
    positive and the frame is returned without normalization: at time
    index 900 the bin of the first formant holds -0.4.  The engine never
    asks for such a frame, [generateWave] stops below the duration. *)
Lemma vowel_past_duration (noise : nat -> R) :
  let p := phoneticProfiles vowel in
  envelopeAt vowel 900 p = -0.5 /\
  nth 2 (frequencyBins (generateSpectrogramFrame vowel 900 p noise)) 0
  = -0.4.
Proof.
  cbv zeta.
  assert (He : envelopeAt vowel 900 (phoneticProfiles vowel) = -0.5).
  { rewrite envelopeAt_unmodulated by discriminate.
    rewrite baseEnvelope_decay; simpl; lra. }
  split; [exact He |].
  cbn [frequencyBins generateSpectrogramFrame].
  assert (Hpeak : nth 2 (rawBins vowel 900 (phoneticProfiles vowel) noise) 0
                  = -0.4).
  { pose proof (vowel_raw_peak 900 noise 300 ltac:(left; reflexivity)) as H.
    rewrite vowel_bin_300 in H. change (Z.to_nat 2) with 2%nat in H.
    rewrite H, He. lra. }
  rewrite normalize_skipped; [exact Hpeak |].
  right. apply (MaxRlist_by_index _ _ 50).
  - rewrite rawBins_length. lia.
  - rewrite raw_nth_plain by discriminate.
    change (peakFrequencies (phoneticProfiles vowel))
      with [300; 1200; 2500].
    cbn [fold_left].
    rewrite (peakTerm_outside _ _ 300)
      by (rewrite vowel_bandwidthBins, vowel_bin_300; lia).
    rewrite (peakTerm_outside _ _ 1200)
      by (rewrite vowel_bandwidthBins, vowel_bin_1200; lia).
    rewrite (peakTerm_outside _ _ 2500)
      by (rewrite vowel_bandwidthBins, vowel_bin_2500; lia).
    lra.
  - intros j _. rewrite raw_nth_plain by discriminate. rewrite He.
    change (peakFrequencies (phoneticProfiles vowel))
      with [300; 1200; 2500].
    cbn [fold_left].
    assert (Hneg : forall c,
               peakTerm (phoneticProfiles vowel) (-0.5) c (Z.of_nat j) <= 0).
    { intros c. unfold peakTerm.
      pose proof (gaussianAt_pos
                    (Zfloor (bandwidth (phoneticProfiles vowel) / 80))
                    (frequencyToBinIndex c) (Z.of_nat j)) as Hg.
      destruct (_ && _)%bool; [| lra].
      change (amplitude (phoneticProfiles vowel)) with 0.8. nra. }
    pose proof (Hneg 300). pose proof (Hneg 1200). pose proof (Hneg 2500).
    lra.
Qed.

(** *** The fricative: noise before and after normalization *)

(** C9, as the code has it.  Two runs of the fricative synthesizer on the
    same time index and profile hold, before normalization, the same peak
    term in every bin plus their own noise term [draw * 0.1 * envelope];
    bin by bin the two arrays differ by at most [0.1 * envelope].  The
    returned bins are these arrays, each divided by its own maximum. *)
Theorem fricative_noise_additive (t : R) (p : Profile)
        (drawsA drawsB : nat -> R) (j : nat) :
  wellFormed p -> 0 <= t <= duration p ->
  unitDraws drawsA -> unitDraws drawsB -> (j < 100)%nat ->
  let envelope := envelopeAt fricative t p in
  let peaks :=
    nth j (addPeaks p envelope (repeat 0 (Z.to_nat frequencyBinCount))) 0 in
  let rawA := rawBins fricative t p drawsA in
  let rawB := rawBins fricative t p drawsB in
  nth j rawA 0 = peaks + drawsA j * 0.1 * envelope /\
  nth j rawB 0 = peaks + drawsB j * 0.1 * envelope /\
  Rabs (nth j rawA 0 - nth j rawB 0) <= 0.1 * envelope /\
  frequencyBins (generateSpectrogramFrame fricative t p drawsA)
  = normalize rawA /\
  frequencyBins (generateSpectrogramFrame fricative t p drawsB)
  = normalize rawB.
Proof.
  intros Hp Ht HA HB Hj envelope peaks rawA rawB.
  pose proof (envelopeAt_nonneg fricative t p Hp Ht) as He.
  fold envelope in He.
  assert (EA : nth j rawA 0 = peaks + drawsA j * 0.1 * envelope).
  { subst rawA peaks envelope. rewrite raw_nth_fricative by exact Hj.
    rewrite peaks_nth. reflexivity. }
  assert (EB : nth j rawB 0 = peaks + drawsB j * 0.1 * envelope).
  { subst rawB peaks envelope. rewrite raw_nth_fricative by exact Hj.
    rewrite peaks_nth. reflexivity. }
  repeat split; try assumption.
  rewrite EA, EB.
  pose proof (HA j) as [A0 A1]. pose proof (HB j) as [B0 B1].
  apply Rabs_le. split; nra.
Qed.

Lemma fricative_noise_additive_witness :
  let p := phoneticProfiles fricative in
  let quiet := fun _ : nat => 0 in
  let half := fun _ : nat => 0.5 in
  wellFormed p /\ 0 <= 100 <= duration p /\
  unitDraws quiet /\ unitDraws half /\ (0 < 100)%nat /\
  Rabs (nth 0 (rawBins fricative 100 p quiet) 0
        - nth 0 (rawBins fricative 100 p half) 0)
  <= 0.1 * envelopeAt fricative 100 p.
Proof.
  cbv zeta.
  assert (Hp : wellFormed (phoneticProfiles fricative))
    by (unfold wellFormed; simpl; lra).
  assert (Ht : 0 <= 100 <= duration (phoneticProfiles fricative))
    by (simpl; lra).
  assert (HA : unitDraws (fun _ : nat => 0)) by (intros i; lra).
  assert (HB : unitDraws (fun _ : nat => 0.5)) by (intros i; lra).
  assert (Hj : (0 < 100)%nat) by lia.
  split; [exact Hp |].
  split; [exact Ht |].
  split; [exact HA |].
  split; [exact HB |].
  split; [exact Hj |].
  apply (fricative_noise_additive 100 _ _ _ 0%nat Hp Ht HA HB Hj).
Defined.

Lemma fricative_envelope_100 :
  envelopeAt fricative 100 (phoneticProfiles fricative) = 0.8.
Proof.
  rewrite envelopeAt_unmodulated by discriminate.
  rewrite baseEnvelope_sustain; simpl; lra.
Qed.

Lemma fricative_peaks_le env (j : nat) :
  0 <= env ->
  0 <= fold_left
      (fun acc c =>
         acc + peakTerm (phoneticProfiles fricative) env c (Z.of_nat j))
      (peakFrequencies (phoneticProfiles fricative)) 0
  <= 0.4 * env.
Proof.
  intros He.
  apply (three_peaks_le (phoneticProfiles fricative) 3000 5000 7000);
    rewrite ?fricative_bandwidthBins, ?fricative_bin_3000,
            ?fricative_bin_5000, ?fricative_bin_7000;
    try reflexivity; try lia.
  change (amplitude (phoneticProfiles fricative)) with 0.4. lra.
Qed.

Lemma fricative_peaks_36 env :
  fold_left
    (fun acc c => acc + peakTerm (phoneticProfiles fricative) env c 36%Z)
    (peakFrequencies (phoneticProfiles fricative)) 0
  = 0.4 * env.
Proof.
  apply three_peaks_at_center
    with (c1 := 3000) (c2 := 5000) (c3 := 7000) (c := 3000);
    rewrite ?fricative_bandwidthBins, ?fricative_bin_3000,
            ?fricative_bin_5000, ?fricative_bin_7000;
    try reflexivity; try lia.
  left. reflexivity.
Qed.

(** Bin 0 lies below the window [24, 48) of the lowest peak. *)
Lemma fricative_peaks_0 env :
  fold_left
    (fun acc c => acc + peakTerm (phoneticProfiles fricative) env c 0%Z)
    (peakFrequencies (phoneticProfiles fricative)) 0
  = 0.
Proof.
  change (peakFrequencies (phoneticProfiles fricative))
    with [3000; 5000; 7000].
  cbn [fold_left].
  rewrite (peakTerm_outside _ env 3000)
    by (rewrite fricative_bandwidthBins, fricative_bin_3000; lia).
  rewrite (peakTerm_outside _ env 5000)
    by (rewrite fricative_bandwidthBins, fricative_bin_5000; lia).
  rewrite (peakTerm_outside _ env 7000)
    by (rewrite fricative_bandwidthBins, fricative_bin_7000; lia).
  lra.
Qed.

(** The maximum of the fricative's bins at time index 100 when nothing is
    drawn away from bin 0, and little enough there. *)
Lemma fricative_max_100 (noise : nat -> R) :
  0 <= noise 0%nat <= 1 -> (forall j, j <> 0%nat -> noise j = 0) ->
  MaxRlist (rawBins fricative 100 (phoneticProfiles fricative) noise)
  = 0.32.
Proof.
  intros H0 Hrest.
  apply (MaxRlist_by_index _ _ 36).
  - rewrite rawBins_length. lia.
  - rewrite raw_nth_fricative by lia.
    rewrite fricative_envelope_100.
    change (Z.of_nat 36) with 36%Z. rewrite fricative_peaks_36.
    rewrite Hrest by lia. lra.
  - intros j Hj. rewrite rawBins_length in Hj.
    rewrite raw_nth_fricative by exact Hj.
    rewrite fricative_envelope_100.
    destruct (Nat.eq_dec j 0) as [-> | Hne].
    + change (Z.of_nat 0) with 0%Z. rewrite fricative_peaks_0. lra.
    + rewrite (Hrest j Hne).
      pose proof (fricative_peaks_le 0.8 j ltac:(lra)). lra.
Qed.

Lemma fricative_bin0_100 (noise : nat -> R) :
  0 <= noise 0%nat <= 1 -> (forall j, j <> 0%nat -> noise j = 0) ->
  nth 0 (frequencyBins (generateSpectrogramFrame
                          fricative 100 (phoneticProfiles fricative) noise))
      0
  = noise 0%nat * 0.08 / 0.32.
Proof.
  intros H0 Hrest. cbn [frequencyBins generateSpectrogramFrame].
  rewrite normalize_nth;
    rewrite ?fricative_max_100, ?rawBins_length by assumption;
    try lra; try lia.
  rewrite raw_nth_fricative by lia.
  rewrite fricative_envelope_100.
  change (Z.of_nat 0) with 0%Z. rewrite fricative_peaks_0.
  replace ((0 + noise 0%nat * 0.1 * 0.8) / 0.32)
    with (noise 0%nat * 0.08 / 0.32) by lra.
  apply Rmax_right. lra.
Qed.

(** C9 as stated fails on the returned bins.  At time index 100 the
    fricative's envelope is 0.8, so the noise term is below 0.08.  A run
    that draws 0 everywhere returns 0 in bin 0; a run that draws 0.9 for
    bin 0 and 0 elsewhere returns 0.072 / 0.32 = 0.225 there: the
    difference is above [0.1 * envelope]. *)
Lemma fricative_runs_differ_beyond_noise :
  let p := phoneticProfiles fricative in
  let quiet := fun _ : nat => 0 in
  let loud := fun i : nat => if Nat.eqb i 0 then 0.9 else 0 in
  let returned noise :=
    frequencyBins (generateSpectrogramFrame fricative 100 p noise) in
  unitDraws quiet /\ unitDraws loud /\
  envelopeAt fricative 100 p = 0.8 /\
  nth 0 (returned quiet) 0 = 0 /\
  nth 0 (returned loud) 0 = 0.225 /\
  ~ (Rabs (nth 0 (returned loud) 0 - nth 0 (returned quiet) 0)
     <= 0.1 * envelopeAt fricative 100 p).
Proof.
  cbv beta zeta.
  assert (Hq : nth 0 (frequencyBins (generateSpectrogramFrame
                 fricative 100 (phoneticProfiles fricative) (fun _ => 0))) 0
               = 0).
  { rewrite fricative_bin0_100; [lra | lra | reflexivity]. }
  assert (Hl : nth 0 (frequencyBins (generateSpectrogramFrame
                 fricative 100 (phoneticProfiles fricative)
                 (fun i => if Nat.eqb i 0 then 0.9 else 0))) 0
               = 0.225).
  { rewrite fricative_bin0_100.
    - cbn [Nat.eqb]. lra.
    - cbn [Nat.eqb]. lra.
    - intros j Hj. destruct (Nat.eqb_spec j 0); [contradiction | reflexivity]. }
  rewrite Hq, Hl, fricative_envelope_100.
  repeat split.
  - lra.
  - lra.
  - destruct (Nat.eqb i 0); lra.
  - destruct (Nat.eqb i 0); lra.
  - intros Habs. rewrite Rabs_pos_eq in Habs; lra.
Qed.

End SynthesizerProps.

(** ** The wave engine: identifiers, ageing and retirement *)

Module EngineProps.
Import PolarField PolarWaveEngine.

(** *** Identifiers *)

Lemma waveName_inj (n m : nat) : waveName n = waveName m -> n = m.
Proof.
  unfold waveName. intros H.
  apply Unsigned.to_uint_inj.
  assert (E : NilEmpty.string_of_uint (Nat.to_uint n)
              = NilEmpty.string_of_uint (Nat.to_uint m)).
  { cbn [String.append] in H. congruence. }
  apply (f_equal NilEmpty.uint_of_string) in E.
  rewrite !NilEmpty.usu in E. congruence.
Qed.

Lemma newWave_id ty draws e : id (newWave ty draws e) = waveName (waveId e).
Proof. reflexivity. Qed.

Lemma generateWave_waveId ty draws e :
  waveId (generateWave ty draws e) = S (waveId e).
Proof. reflexivity. Qed.

Lemma generateWave_waves ty draws e :
  waves (generateWave ty draws e) = waves e ++ [newWave ty draws e].
Proof. reflexivity. Qed.

Lemma updateTime_waveId dt e : waveId (fst (updateTime dt e)) = waveId e.
Proof. reflexivity. Qed.

(** Without a reset in between, the ids handed out are the names of
    consecutive counter values, starting at the current one. *)
Lemma issuedIds_consecutive (cs : list Call) (e : Engine) :
  noReset cs = true ->
  issuedIds e cs
  = map waveName (seq (waveId e) (List.length (issuedIds e cs))).
Proof.
  revert e. induction cs as [| c cs IH]; intros e Hcs.
  - reflexivity.
  - cbn [noReset forallb] in Hcs. apply andb_prop in Hcs as [Hc Hcs].
    cbn [issuedIds]. specialize (IH (call e c) Hcs).
    destruct c as [ty draws | dt |]; cbn [isReset negb] in Hc;
      try discriminate.
    + cbn [app List.length seq map]. f_equal.
      rewrite IH at 1. cbn [call]. rewrite generateWave_waveId.
      reflexivity.
    + cbn [app]. rewrite IH at 1. cbn [call].
      rewrite updateTime_waveId. reflexivity.
Qed.

Lemma issuedIds_NoDup (cs : list Call) (e : Engine) :
  noReset cs = true -> NoDup (issuedIds e cs).
Proof.
  intros Hcs. rewrite issuedIds_consecutive by exact Hcs.
  apply Injective_map_NoDup.
  - intros n m. apply waveName_inj.
  - apply seq_NoDup.
Qed.

Lemma run_app (e : Engine) (cs1 cs2 : list Call) :
  run e (cs1 ++ cs2) = run (run e cs1) cs2.
Proof. apply fold_left_app. Qed.

Lemma issuedIds_app (cs1 cs2 : list Call) (e : Engine) :
  issuedIds e (cs1 ++ cs2)
  = issuedIds e cs1 ++ issuedIds (run e cs1) cs2.
Proof.
  revert e. induction cs1 as [| c cs1 IH]; intros e.
  - reflexivity.
  - cbn [app issuedIds]. rewrite IH, app_assoc. reflexivity.
Qed.

Lemma noReset_app (cs1 cs2 : list Call) :
  noReset (cs1 ++ cs2) = noReset cs1 && noReset cs2.
Proof. apply forallb_app. Qed.

(** A new id is none of those handed out since the last reset. *)
Lemma newWave_id_fresh (cs : list Call) (e : Engine) ty draws :
  noReset cs = true ->
  ~ In (id (newWave ty draws (run e cs))) (issuedIds e cs).
Proof.
  intros Hcs.
  assert (Hnd : NoDup (issuedIds e (cs ++ [CallGenerate ty draws]))).
  { apply issuedIds_NoDup. rewrite noReset_app, Hcs. reflexivity. }
  rewrite issuedIds_app in Hnd. cbn [issuedIds app] in Hnd.
  apply NoDup_remove_2 in Hnd. rewrite app_nil_r in Hnd. exact Hnd.
Qed.

(** C4, as the code has it.  [reset()] empties the active set and puts the
    id counter back to 0, so the next [generateWave('vowel')] assigns the
    id "wave-0", whatever was handed out before the reset.  Ids are fresh
    between two resets: in a run of [generateWave] and [updateTime] calls
    that follows a reset, the ids handed out are pairwise distinct and a
    new wave gets none of them. *)
Theorem ids_fresh_since_reset (e : Engine) (cs : list Call)
        (draws : Z -> nat -> R) :
  noReset cs = true ->
  getActiveWaveCount (reset e) = 0%nat /\
  id (newWave vowel draws (reset e)) = "wave-0"%string /\
  NoDup (issuedIds (reset e) cs) /\
  ~ In (id (newWave vowel draws (run (reset e) cs)))
       (issuedIds (reset e) cs).
Proof.
  intros Hcs. repeat split.
  - apply issuedIds_NoDup. exact Hcs.
  - apply newWave_id_fresh. exact Hcs.
Qed.

Lemma ids_fresh_since_reset_witness :
  let d := fun (_ : Z) (_ : nat) => 0 in
  let cs := [CallGenerate trill d; CallUpdate 0.1; CallGenerate plosive d] in
  noReset cs = true /\
  ~ In (id (newWave vowel d (run (reset initial) cs)))
       (issuedIds (reset initial) cs).
Proof.
  cbv zeta. split; [reflexivity |].
  apply (ids_fresh_since_reset
           initial
           [CallGenerate trill (fun _ _ => 0); CallUpdate 0.1;
            CallGenerate plosive (fun _ _ => 0)]
           (fun _ _ => 0)).
  reflexivity.
Defined.

(** C4 as stated fails: three waves of mixed types get the ids "wave-0",
    "wave-1" and "wave-2"; after [reset()] no wave is active and the next
    vowel gets "wave-0" again, the id of the first wave. *)
Lemma reset_reuses_ids :
  let d := fun (_ : Z) (_ : nat) => 0 in
  let before :=
    [CallGenerate vowel d; CallGenerate trill d; CallGenerate plosive d] in
  let e := reset (run initial before) in
  issuedIds initial before
  = ["wave-0"; "wave-1"; "wave-2"]%string /\
  getActiveWaveCount e = 0%nat /\
  id (newWave vowel d e) = "wave-0"%string /\
  In (id (newWave vowel d e)) (issuedIds initial before).
Proof.
  cbv zeta.
  assert (E : issuedIds initial
                [CallGenerate vowel (fun _ _ => 0);
                 CallGenerate trill (fun _ _ => 0);
                 CallGenerate plosive (fun _ _ => 0)]
              = ["wave-0"; "wave-1"; "wave-2"]%string).
  { cbn [issuedIds call app]. rewrite !newWave_id, !generateWave_waveId.
    reflexivity. }
  rewrite E. repeat split.
  left. reflexivity.
Qed.

(** *** One wave under [updateTime] *)

Lemma updateWave_advance (now : R) (w : PolarWave) :
  isActive w = true ->
  (Zfloor ((now - birthTime w) * 10) < maxTimeIndex w)%Z ->
  updateWave now w
  = (setCurrentTimeIndex w (Zfloor ((now - birthTime w) * 10)),
     match lookupZ (spectrograms w) (Zfloor ((now - birthTime w) * 10)) with
     | Some frame => [frame]
     | None => []
     end).
Proof.
  intros Hact Hlt. unfold updateWave. rewrite Hact.
  apply Z.ltb_lt in Hlt. rewrite Hlt.
  cbn [setCurrentTimeIndex spectrograms currentTimeIndex].
  destruct (lookupZ _ _); reflexivity.
Qed.

Lemma updateWave_expire (now : R) (w : PolarWave) :
  isActive w = true ->
  (maxTimeIndex w <= Zfloor ((now - birthTime w) * 10))%Z ->
  updateWave now w = (setIsActive w false, []).
Proof.
  intros Hact Hge. unfold updateWave. rewrite Hact.
  apply Z.ltb_ge in Hge. rewrite Hge. reflexivity.
Qed.

Lemma updateWave_inactive (now : R) (w : PolarWave) :
  isActive w = false -> updateWave now w = (w, []).
Proof. intros Hact. unfold updateWave. rewrite Hact. reflexivity. Qed.

Lemma updateWave_id (now : R) (w : PolarWave) :
  id (fst (updateWave now w)) = id w.
Proof.
  unfold updateWave.
  destruct (isActive w); [| reflexivity].
  destruct (_ <? _)%Z; [| reflexivity].
  destruct (lookupZ _ _); reflexivity.
Qed.

(** [updateTime], wave by wave. *)
Lemma updateTime_waves (dt : R) (e : Engine) :
  waves (fst (updateTime dt e))
  = filter isActive
           (map (fun w => fst (updateWave (time e + dt) w)) (waves e)).
Proof. unfold updateTime. cbn [fst waves]. rewrite map_map. reflexivity. Qed.

Lemma updateTime_frames (dt : R) (e : Engine) :
  snd (updateTime dt e)
  = flat_map (fun w => snd (updateWave (time e + dt) w)) (waves e).
Proof.
  unfold updateTime. cbn [snd]. rewrite map_map, flat_map_concat_map.
  reflexivity.
Qed.

Lemma updateTime_time (dt : R) (e : Engine) :
  time (fst (updateTime dt e)) = time e + dt.
Proof. reflexivity. Qed.

Lemma age_index_nonneg (now birth : R) :
  birth <= now -> (0 <= Zfloor ((now - birth) * 10))%Z.
Proof. intros H. apply Zfloor_lub. simpl. lra. Qed.

(** A wave in order stays in order when the clock advances, unless it is
    retired. *)
Lemma updateWave_ok (now dt : R) (w : PolarWave) :
  0 <= dt -> waveOk now w ->
  isActive (fst (updateWave (now + dt) w)) = true ->
  waveOk (now + dt) (fst (updateWave (now + dt) w)).
Proof.
  intros Hdt (Hact & Hidx & Hbirth & Hlen) Hkept.
  destruct (Z.lt_ge_cases (Zfloor ((now + dt - birthTime w) * 10))
                          (maxTimeIndex w)) as [Hlt | Hge].
  - rewrite updateWave_advance by assumption. cbn [fst].
    unfold waveOk.
    cbn [setCurrentTimeIndex isActive currentTimeIndex maxTimeIndex
         birthTime spectrograms].
    repeat split; try assumption; try lra; try lia.
    apply age_index_nonneg. lra.
  - rewrite updateWave_expire in Hkept by assumption.
    cbn [fst setIsActive isActive] in Hkept. discriminate.
Qed.

(** *** Waves as [generateWave] builds them *)

Lemma table_maxTimeIndex (ty : PhoneticType) :
  Zfloor (duration (phoneticProfiles ty))
  = match ty with
    | vowel => 800 | trill => 600 | fricative => 400 | plosive => 200
    end%Z.
Proof. destruct ty; cbn [phoneticProfiles duration]; apply ZfloorZ. Qed.

Lemma Zrange_length (lo hi : Z) :
  List.length (Zrange lo hi) = Z.to_nat (hi - lo).
Proof. unfold Zrange. rewrite length_map, length_seq. reflexivity. Qed.

Lemma Zrange_nth_error (hi n : Z) :
  (0 <= n < hi)%Z -> nth_error (Zrange 0 hi) (Z.to_nat n) = Some n.
Proof.
  intros Hn. unfold Zrange.
  rewrite nth_error_map.
  rewrite (nth_error_nth' _ 0%nat) by (rewrite length_seq; lia).
  rewrite seq_nth by lia. cbn [option_map]. f_equal. lia.
Qed.

Lemma newWave_ok ty draws e : waveOk (time e) (newWave ty draws e).
Proof.
  unfold waveOk, newWave.
  cbn [isActive currentTimeIndex maxTimeIndex birthTime spectrograms].
  rewrite length_map, Zrange_length, table_maxTimeIndex.
  repeat split; try lra; try (destruct ty; lia).
Qed.

(** The frame a fresh wave keeps for time index [n]. *)
Lemma newWave_frame ty draws e (n : Z) :
  (0 <= n < maxTimeIndex (newWave ty draws e))%Z ->
  lookupZ (spectrograms (newWave ty draws e)) n
  = Some (generateSpectrogramFrame ty (IZR n) (phoneticProfiles ty)
                                   (draws n)).
Proof.
  intros Hn. unfold lookupZ.
  destruct (Z.ltb_spec n 0); [lia |].
  unfold newWave in *. cbn [spectrograms maxTimeIndex] in *.
  rewrite nth_error_map, Zrange_nth_error by exact Hn. reflexivity.
Qed.

(** *** The engine stays in order *)

Lemma NoDup_map_filter {A B : Type} (f : A -> B) (P : A -> bool)
      (l : list A) :
  NoDup (map f l) -> NoDup (map f (filter P l)).
Proof.
  induction l as [| a l IH]; intros Hnd; cbn [filter map] in *.
  - constructor.
  - inversion Hnd as [| ? ? Hnotin Hrest]; subst.
    destruct (P a); cbn [map]; [| auto].
    constructor; [| auto].
    intros Hin. apply Hnotin.
    apply in_map_iff in Hin as (x & Hx & Hxin).
    apply filter_In in Hxin as [Hxin _].
    apply in_map_iff. exists x. split; assumption.
Qed.

Lemma NoDup_map_eq {A B : Type} (f : A -> B) (l : list A) (a b : A) :
  NoDup (map f l) -> In a l -> In b l -> f a = f b -> a = b.
Proof.
  induction l as [| x l IH]; intros Hnd Ha Hb Hf; [contradiction |].
  cbn [map] in Hnd. inversion Hnd as [| ? ? Hnotin Hrest]; subst.
  destruct Ha as [-> | Ha], Hb as [-> | Hb].
  - reflexivity.
  - exfalso. apply Hnotin. rewrite Hf. apply in_map. exact Hb.
  - exfalso. apply Hnotin. rewrite <- Hf. apply in_map. exact Ha.
  - apply IH; assumption.
Qed.

Lemma updated_ids (now : R) (ws : list PolarWave) :
  map id (map (fun w => fst (updateWave now w)) ws) = map id ws.
Proof.
  rewrite map_map. apply map_ext. intros w. apply updateWave_id.
Qed.

Lemma initial_ok : engineOk initial.
Proof. repeat split; constructor. Qed.

Lemma reset_ok e : engineOk (reset e).
Proof. repeat split; constructor. Qed.

Lemma generateWave_ok ty draws e :
  engineOk e -> engineOk (generateWave ty draws e).
Proof.
  intros (Hwaves & Hnd & Hids). unfold engineOk.
  rewrite generateWave_waves, generateWave_waveId.
  change (time (generateWave ty draws e)) with (time e).
  split; [| split].
  - apply Forall_app. split; [exact Hwaves |].
    constructor; [apply newWave_ok | constructor].
  - rewrite map_app. cbn [map]. rewrite newWave_id.
    apply NoDup_app; [exact Hnd | repeat constructor; intros [] |].
    intros name Hin [<- | []].
    apply in_map_iff in Hin as (w & Hw & Hwin).
    rewrite Forall_forall in Hids.
    destruct (Hids w Hwin) as (k & Hk & Hname).
    rewrite Hname in Hw. apply waveName_inj in Hw. lia.
  - apply Forall_app. split.
    + apply Forall_forall. intros w Hw.
      rewrite Forall_forall in Hids.
      destruct (Hids w Hw) as (k & Hk & Hname).
      exists k. split; [lia | exact Hname].
    + constructor; [| constructor].
      exists (waveId e). split; [lia | apply newWave_id].
Qed.

Lemma updateTime_ok dt e :
  0 <= dt -> engineOk e -> engineOk (fst (updateTime dt e)).
Proof.
  intros Hdt (Hwaves & Hnd & Hids). unfold engineOk.
  rewrite updateTime_waves, updateTime_time, updateTime_waveId.
  split; [| split].
  - apply Forall_forall. intros w' Hin.
    apply filter_In in Hin as [Hin Hact].
    apply in_map_iff in Hin as (w & <- & Hw).
    rewrite Forall_forall in Hwaves.
    apply updateWave_ok; auto.
  - apply NoDup_map_filter. rewrite updated_ids. exact Hnd.
  - apply Forall_forall. intros w' Hin.
    apply filter_In in Hin as [Hin _].
    apply in_map_iff in Hin as (w & <- & Hw).
    rewrite updateWave_id.
    rewrite Forall_forall in Hids. apply Hids. exact Hw.
Qed.

Lemma reachable_ok (e : Engine) : reachable e -> engineOk e.
Proof.
  induction 1 as [| e ty draws _ IH | e dt _ IH Hdt | e _ _].
  - apply initial_ok.
  - apply generateWave_ok. exact IH.
  - apply updateTime_ok; assumption.
  - apply reset_ok.
Qed.

(** The advance step that retires a wave also drops it: no wave left in
    the engine carries its id. *)
Lemma retired_wave_dropped (e : Engine) (dt : R) (w : PolarWave) :
  engineOk e -> In w (waves e) ->
  isActive (fst (updateWave (time e + dt) w)) = false ->
  ~ In (id w) (map id (waves (fst (updateTime dt e)))).
Proof.
  intros (_ & Hnd & _) Hw Hretired Hin.
  rewrite updateTime_waves in Hin.
  apply in_map_iff in Hin as (w' & Hid & Hin).
  apply filter_In in Hin as [Hin Hact].
  apply in_map_iff in Hin as (w2 & <- & Hw2).
  rewrite updateWave_id in Hid.
  assert (w2 = w) by (apply (NoDup_map_eq id (waves e)); assumption).
  subst w2. congruence.
Qed.

(** *** What [updateTime] does to a wave of the active set *)

Lemma kept_wave_frame (e : Engine) (dt : R) (w : PolarWave) :
  engineOk e -> 0 <= dt -> In w (waves e) ->
  (Zfloor ((time e + dt - birthTime w) * 10) < maxTimeIndex w)%Z ->
  In (setCurrentTimeIndex w (Zfloor ((time e + dt - birthTime w) * 10)))
     (waves (fst (updateTime dt e))) /\
  exists frame,
    lookupZ (spectrograms w) (Zfloor ((time e + dt - birthTime w) * 10))
    = Some frame /\
    In frame (snd (updateTime dt e)).
Proof.
  intros (Hwaves & _ & _) Hdt Hw Hlt.
  rewrite Forall_forall in Hwaves.
  destruct (Hwaves w Hw) as (Hact & Hidx & Hbirth & Hlen).
  set (n := Zfloor ((time e + dt - birthTime w) * 10)) in *.
  assert (Hn : (0 <= n)%Z) by (apply age_index_nonneg; lra).
  assert (Hup : updateWave (time e + dt) w
                = (setCurrentTimeIndex w n,
                   match lookupZ (spectrograms w) n with
                   | Some frame => [frame]
                   | None => []
                   end))
    by (apply updateWave_advance; assumption).
  split.
  - rewrite updateTime_waves. apply filter_In. split.
    + apply in_map_iff. exists w. rewrite Hup. split; [reflexivity | exact Hw].
    + cbn [setCurrentTimeIndex isActive]. exact Hact.
  - assert (Hsome : exists frame, lookupZ (spectrograms w) n = Some frame).
    { unfold lookupZ. destruct (Z.ltb_spec n 0); [lia |].
      destruct (nth_error (spectrograms w) (Z.to_nat n)) as [frame |] eqn:E.
      - exists frame. reflexivity.
      - apply nth_error_None in E. lia. }
    destruct Hsome as (frame & Hframe). exists frame. split; [exact Hframe |].
    rewrite updateTime_frames. apply in_flat_map. exists w.
    split; [exact Hw |]. rewrite Hup, Hframe. left. reflexivity.
Qed.

(** C6, as the code has it.  On [updateTime(deltaTime)] the engine
    recomputes, for a wave of the active set, the index
    [floor((clock - birthTime) * 10)].  While the index is below
    [maxTimeIndex] the wave stays in the set with that index and its frame
    for the index is among the frames returned.  As soon as the index
    reaches [maxTimeIndex], and so also when it equals it exactly, the
    wave is retired: it returns no frame and no wave with its id is left
    in the set. *)
Theorem updateTime_ageing (e : Engine) (dt : R) (w : PolarWave) :
  reachable e -> 0 <= dt -> In w (waves e) ->
  let n := Zfloor ((time e + dt - birthTime w) * 10) in
  let e' := fst (updateTime dt e) in
  let frames := snd (updateTime dt e) in
  ((n < maxTimeIndex w)%Z ->
   In (setCurrentTimeIndex w n) (waves e') /\
   exists frame,
     lookupZ (spectrograms w) n = Some frame /\ In frame frames) /\
  ((maxTimeIndex w <= n)%Z ->
   updateWave (time e + dt) w = (setIsActive w false, []) /\
   ~ In (id w) (map id (waves e'))).
Proof.
  intros Hreach Hdt Hw n e' frames.
  pose proof (reachable_ok e Hreach) as Hok.
  split.
  - intros Hlt. apply kept_wave_frame; assumption.
  - intros Hge.
    assert (Hact : isActive w = true).
    { destruct Hok as (Hwaves & _). rewrite Forall_forall in Hwaves.
      apply (Hwaves w Hw). }
    assert (Hup : updateWave (time e + dt) w = (setIsActive w false, []))
      by (apply updateWave_expire; assumption).
    split; [exact Hup |].
    apply retired_wave_dropped; try assumption.
    rewrite Hup. reflexivity.
Qed.

(** The engine one plosive after construction. *)
Lemma one_plosive (draws : Z -> nat -> R) :
  let e := generateWave plosive draws initial in
  reachable e /\
  waves e = [newWave plosive draws initial] /\
  maxTimeIndex (newWave plosive draws initial) = 200%Z /\
  birthTime (newWave plosive draws initial) = 0 /\
  time e = 0.
Proof.
  cbv zeta. repeat split.
  - apply reach_generate, reach_initial.
  - cbn [newWave maxTimeIndex]. apply (table_maxTimeIndex plosive).
Qed.

Lemma updateTime_ageing_witness :
  let d := fun (_ : Z) (_ : nat) => 0 in
  let e := generateWave plosive d initial in
  let w := newWave plosive d initial in
  reachable e /\ 0 <= 0.1 /\ In w (waves e) /\
  ((Zfloor ((time e + 0.1 - birthTime w) * 10) < maxTimeIndex w)%Z ->
   In (setCurrentTimeIndex w (Zfloor ((time e + 0.1 - birthTime w) * 10)))
      (waves (fst (updateTime 0.1 e)))).
Proof.
  cbv zeta.
  destruct (one_plosive (fun _ _ => 0)) as (Hreach & Hwaves & _).
  assert (Hdt : 0 <= 0.1) by lra.
  assert (Hw : In (newWave plosive (fun _ _ => 0) initial)
                  (waves (generateWave plosive (fun _ _ => 0) initial)))
    by (rewrite Hwaves; left; reflexivity).
  split; [exact Hreach |].
  split; [exact Hdt |].
  split; [exact Hw |].
  intros Hlt.
  apply (updateTime_ageing _ 0.1 _ Hreach Hdt Hw). exact Hlt.
Defined.

(** C6 as stated fails when the new index equals [maxTimeIndex].  A
    plosive is born at clock 0 with [maxTimeIndex] 200; [updateTime(20)]
    gives the index [floor(20 * 10)] = 200, the wave is retired, no frame
    is returned and the active set is empty. *)
Lemma index_at_maxTimeIndex_retires :
  let d := fun (_ : Z) (_ : nat) => 0 in
  let e := generateWave plosive d initial in
  let w := newWave plosive d initial in
  waves e = [w] /\ isActive w = true /\
  Zfloor ((time e + 20 - birthTime w) * 10) = maxTimeIndex w /\
  snd (updateTime 20 e) = [] /\
  waves (fst (updateTime 20 e)) = [] /\
  getActiveWaveCount (fst (updateTime 20 e)) = 0%nat.
Proof.
  cbv zeta.
  destruct (one_plosive (fun _ _ => 0)) as (_ & Hwaves & Hmax & Hbirth & Htime).
  set (e := generateWave plosive (fun _ _ => 0) initial) in *.
  set (w := newWave plosive (fun _ _ => 0) initial) in *.
  assert (Hidx : Zfloor ((time e + 20 - birthTime w) * 10) = 200%Z).
  { rewrite Htime, Hbirth. apply Zfloor_eq. simpl. lra. }
  assert (Hup : updateWave (time e + 20) w = (setIsActive w false, [])).
  { apply updateWave_expire; [reflexivity | rewrite Hidx, Hmax; lia]. }
  assert (Hws : waves (fst (updateTime 20 e)) = []).
  { rewrite updateTime_waves, Hwaves. cbn [map]. rewrite Hup. reflexivity. }
  repeat split.
  - rewrite Hidx, Hmax. reflexivity.
  - rewrite updateTime_frames, Hwaves. cbn [flat_map]. rewrite Hup.
    reflexivity.
  - exact Hws.
  - unfold getActiveWaveCount. rewrite Hws. reflexivity.
Qed.

(** *** Lifecycle *)

(** C8.  In every state the engine reaches while the clock only moves
    forward, every wave of the active set has
    [0 <= currentTimeIndex <= maxTimeIndex] and is active.  No step turns
    an inactive wave active again: [updateTime] leaves an inactive wave as
    it is, [generateWave] appends a wave and keeps the others unchanged,
    [reset] drops them all.  The [updateTime] call that retires a wave
    also removes it: afterwards every wave of the set is active and none
    carries the id of the retired wave. *)
Theorem wave_lifecycle (e : Engine) :
  reachable e ->
  Forall (fun w => (0 <= currentTimeIndex w <= maxTimeIndex w)%Z
                   /\ isActive w = true) (waves e) /\
  (forall now w, isActive w = false -> fst (updateWave now w) = w) /\
  (forall ty draws w, In w (waves e) -> In w (waves (generateWave ty draws e))) /\
  waves (reset e) = [] /\
  (forall dt,
     Forall (fun w => isActive w = true) (waves (fst (updateTime dt e)))) /\
  (forall dt w,
     In w (waves e) ->
     isActive (fst (updateWave (time e + dt) w)) = false ->
     ~ In (id w) (map id (waves (fst (updateTime dt e))))).
Proof.
  intros Hreach. pose proof (reachable_ok e Hreach) as Hok.
  repeat split.
  - destruct Hok as (Hwaves & _).
    apply Forall_forall. intros w Hw.
    rewrite Forall_forall in Hwaves.
    destruct (Hwaves w Hw) as (Hact & Hidx & _). auto.
  - intros now w Hact. rewrite updateWave_inactive by exact Hact.
    reflexivity.
  - intros ty draws w Hw. rewrite generateWave_waves.
    apply in_or_app. left. exact Hw.
  - intros dt. rewrite updateTime_waves.
    apply Forall_forall. intros w Hw.
    apply filter_In in Hw as [_ Hact]. exact Hact.
  - intros dt w Hw Hret. apply retired_wave_dropped; assumption.
Qed.

Lemma wave_lifecycle_witness :
  let d := fun (_ : Z) (_ : nat) => 0 in
  let e := generateWave plosive d initial in
  reachable e /\
  Forall (fun w => (0 <= currentTimeIndex w <= maxTimeIndex w)%Z
                   /\ isActive w = true) (waves e).
Proof.
  cbv zeta.
  destruct (one_plosive (fun _ _ => 0)) as (Hreach & _).
  split; [exact Hreach |].
  apply (wave_lifecycle _ Hreach).
Defined.

End EngineProps.

(* ================================================================== *)
(** * Part III: further properties of the code *)

(** ** Coordinate transform: bounds, the other round trip, the grid *)

Module CoordinateTransformMore.
Import CoordinateTransform CoordinateTransformProps.

Lemma clamp_range (v : R) : 0 <= Rmax 0 (Rmin 1 v) <= 1.
Proof.
  split; [apply Rmax_l |].
  apply Rmax_lub; [lra | apply Rmin_l].
Qed.

(** X1.  Whatever display point it is given, also one far outside the
    wedge or behind the mouth, [displayToLogical] answers with a logical
    coordinate that passes [isWithinBounds]. *)
Theorem displayToLogical_within_bounds (display : DisplayCoordinates) :
  isWithinBounds (displayToLogical display) = true.
Proof.
  assert (Hin : forall l, 0 <= frequency l <= 1 -> 0 <= time l <= 1 ->
                          isWithinBounds l = true).
  { intros l [Hf0 Hf1] [Ht0 Ht1]. unfold isWithinBounds, Rgeb.
    rewrite !(proj2 (Rleb_true _ _)) by assumption. reflexivity. }
  unfold displayToLogical.
  destruct (Reqb _ 0); apply Hin; cbn [frequency time];
    try apply clamp_range; lra.
Qed.

Lemma logicalToDisplay_inside_wedge_aux (f t : R) :
  0 <= f <= 1 -> 0 <= t ->
  y (logicalToDisplay (mkLogical f t)) = 0 /\
  z (logicalToDisplay (mkLogical f t)) = 10 * t /\
  Rabs (x (logicalToDisplay (mkLogical f t)))
  <= mouthWidth + getMaxWidthAtTime t.
Proof.
  intros Hf Ht.
  rewrite logicalToDisplay_x.
  pose proof (currentWidth_pos t Ht) as Hw.
  repeat split.
  - unfold logicalToDisplay, maxRadius. cbn [z time]. lra.
  - unfold getMaxWidthAtTime.
    set (w := mouthWidth + t * maxRadius * tan (arcSpan / 2)) in *.
    rewrite Rabs_mult, (Rabs_pos_eq w) by lra.
    assert (Rabs (2 * f - 1) <= 1) by (apply Rabs_le; lra).
    nra.
Qed.

(** X2.  A logical coordinate with frequency in [0, 1] and time at least
    0 is placed inside the wedge: at height 0, at distance [10 * time]
    from the mouth, and no further from the centre line than the mouth
    width plus [getMaxWidthAtTime(time)]. *)
Theorem logicalToDisplay_inside_wedge (f t : R) :
  0 <= f <= 1 -> 0 <= t ->
  let display := logicalToDisplay (mkLogical f t) in
  y display = 0 /\ z display = 10 * t /\
  Rabs (x display) <= mouthWidth + getMaxWidthAtTime t.
Proof.
  intros Hf Ht display. subst display.
  rewrite logicalToDisplay_x.
  pose proof (currentWidth_pos t Ht) as Hw.
  repeat split.
  - unfold logicalToDisplay, maxRadius. cbn [z time]. lra.
  - unfold getMaxWidthAtTime.
    set (w := mouthWidth + t * maxRadius * tan (arcSpan / 2)) in *.
    rewrite Rabs_mult, (Rabs_pos_eq w) by lra.
    assert (Rabs (2 * f - 1) <= 1) by (apply Rabs_le; lra).
    nra.
Qed.

Lemma logicalToDisplay_inside_wedge_witness :
  0 <= 0.25 <= 1 /\ 0 <= 0.5 /\
  Rabs (x (logicalToDisplay (mkLogical 0.25 0.5)))
  <= mouthWidth + getMaxWidthAtTime 0.5.
Proof.
  split; [lra | split; [lra |]].
  apply (logicalToDisplay_inside_wedge 0.25 0.5); lra.
Defined.

(** *** The test grid *)

Lemma grid_point_iff (fs ts : nat) (p : DisplayCoordinates) :
  In p (generateTestGrid fs ts) <->
  exists f t, (f < fs)%nat /\ (t < ts)%nat /\
              0.05 <= INR t / (INR ts - 1) /\
              p = logicalToDisplay
                    (mkLogical (INR f / (INR fs - 1)) (INR t / (INR ts - 1))).
Proof.
  unfold generateTestGrid. rewrite in_flat_map. split.
  - intros (f & Hf & Hin). apply in_flat_map in Hin as (t & Ht & Hin).
    apply in_seq in Hf. apply in_seq in Ht.
    destruct (Rltb _ 0.05) eqn:E; [contradiction |].
    apply Rltb_false in E. destruct Hin as [<- | []].
    exists f, t. repeat split; try lia. exact E.
  - intros (f & t & Hf & Ht & Hkeep & ->).
    exists f. split; [apply in_seq; lia |].
    apply in_flat_map. exists t. split; [apply in_seq; lia |].
    rewrite (Rltb_ge _ _ Hkeep). left. reflexivity.
Qed.

Lemma step_fraction (k n : nat) :
  (2 <= n)%nat -> (k < n)%nat -> 0 <= INR k / (INR n - 1) <= 1.
Proof.
  intros Hn Hk.
  assert (H1 : 1 <= INR n - 1).
  { apply le_INR in Hn. simpl in Hn. lra. }
  assert (H2 : 0 <= INR k) by apply pos_INR.
  assert (H3 : INR k <= INR n - 1).
  { assert (S k <= n)%nat by lia. apply le_INR in H. rewrite S_INR in H.
    lra. }
  split.
  - apply Rmult_le_pos; [exact H2 |].
    apply Rlt_le, Rinv_0_lt_compat. lra.
  - apply (Rmult_le_reg_r (INR n - 1)); [lra |].
    unfold Rdiv. rewrite Rmult_assoc, Rinv_l by lra. lra.
Qed.

(** X4.  With at least two steps each way, every point of the test grid
    lies at height 0, at distance between 0.5 and 10 from the mouth (the
    points nearer than 5% of the way are skipped) and inside the
    wedge. *)
Theorem testGrid_points (frequencySteps timeSteps : nat)
        (p : DisplayCoordinates) :
  (2 <= frequencySteps)%nat -> (2 <= timeSteps)%nat ->
  In p (generateTestGrid frequencySteps timeSteps) ->
  y p = 0 /\ 0.5 <= z p <= 10 /\
  Rabs (x p) <= mouthWidth + z p * tan (arcSpan / 2).
Proof.
  intros Hfs Hts Hin.
  apply grid_point_iff in Hin as (f & t & Hf & Ht & Hkeep & ->).
  pose proof (step_fraction f frequencySteps Hfs Hf) as Hfr.
  pose proof (step_fraction t timeSteps Hts Ht) as Htr.
  set (fr := INR f / (INR frequencySteps - 1)) in *.
  set (tr := INR t / (INR timeSteps - 1)) in *.
  destruct (logicalToDisplay_inside_wedge_aux fr tr Hfr (proj1 Htr))
    as (Hy & Hz & Hx).
  rewrite Hy, Hz. repeat split; try lra.
  unfold getMaxWidthAtTime, maxRadius in Hx.
  replace (10 * tr * tan (arcSpan / 2))
    with (tr * 10 * tan (arcSpan / 2)) by ring. exact Hx.
Qed.

Lemma testGrid_points_witness :
  let p := logicalToDisplay (mkLogical (INR 0 / (INR 21 - 1))
                                       (INR 20 / (INR 21 - 1))) in
  (2 <= 21)%nat /\ In p (generateTestGrid 21 21) /\
  0.5 <= z p <= 10.
Proof.
  cbv zeta.
  assert (Hin : In (logicalToDisplay (mkLogical (INR 0 / (INR 21 - 1))
                                                (INR 20 / (INR 21 - 1))))
                   (generateTestGrid 21 21)).
  { apply grid_point_iff. exists 0%nat, 20%nat.
    repeat split; try lia.
    replace (INR 20) with 20 by (simpl; lra).
    replace (INR 21) with 21 by (simpl; lra). lra. }
  split; [lia |]. split; [exact Hin |].
  apply (testGrid_points 21 21 _ ltac:(lia) ltac:(lia) Hin).
Defined.

End CoordinateTransformMore.

Module CoordinateTransformRoundedMore.
Import CoordinateTransform CoordinateTransformRounded.
Import CoordinateTransformRoundedProps.

(** X3.  The round trip in the other direction, under rounding: a
    display point at height 0, between the mouth and the maximum radius
    and no further from the centre line than the width of the wedge
    there, is given back by [logicalToDisplay (displayToLogical _)] at
    height 0, to within 2.5e-15 in [z] and 2.5e-14 in [x]. *)
Theorem display_roundtrip_within_rounding (rnd Math_tan : R -> R)
        (display : DisplayCoordinates) :
  roundsLikeBinary64 rnd -> tangentInRange Math_tan ->
  0 <= z display <= 10 ->
  Rabs (x display) <= currentWidth rnd Math_tan (z display) ->
  let back := logicalToDisplay rnd Math_tan
                (displayToLogical rnd Math_tan display) in
  y back = 0 /\ Rabs (z back - z display) <= 2.5e-15 /\
  Rabs (x back - x display) <= 2.5e-14.
Proof.
  pose proof underflowUnit_small as Heta.
  intros Hrnd Htan Hz Hx back. subst back.
  assert (Hz' : -0.001 <= z display <= 10.1) by lra.
  pose proof (currentWidth_range rnd Math_tan Hrnd Htan _ Hz') as Hw.
  set (w := currentWidth rnd Math_tan (z display)) in *.
  destruct (backward_accuracy rnd Math_tan Hrnd Htan display Hz'
              ltac:(fold w; lra))
    as [Hfreq Htime].
  cbv zeta in Hfreq, Htime. fold w in Hfreq.
  destruct (ratio_within (x display) w 1 ltac:(lra) ltac:(lra))
    as [_ Hr1].
  assert (Hr : Rabs (x display / w) <= 1).
  { unfold Rdiv. rewrite Rabs_mult, (Rabs_pos_eq (/ w))
      by (apply Rlt_le, Rinv_0_lt_compat; lra). exact Hr1. }
  set (r := x display / w) in *.
  apply Rabs_le_inv in Hr.
  rewrite (clamp_unit (0.5 + r * 0.5)) in Hfreq by lra.
  apply Rabs_le_inv in Hfreq.
  destruct (displayToLogical rnd Math_tan display) as [f' t'] eqn:El.
  cbn [frequency time] in Hfreq, Htime.
  pose proof (clamp_in_unit (rnd (z display / maxRadius))) as Ht'.
  rewrite <- Htime in Ht'.
  assert (Htz : Rabs (t' - z display / 10) <= 1.2e-16 + underflowUnit).
  { rewrite Htime. unfold maxRadius. apply clamp_toward; [lra |].
    pose proof (rnd_between rnd Hrnd (z display / 10) 1 ltac:(lra)).
    apply Rabs_le. lra. }
  apply Rabs_le_inv in Htz.
  destruct (forward_accuracy rnd Math_tan Hrnd Htan f' t' ltac:(lra)
              ltac:(lra))
    as (Hy & Hzb & Hw' & Hxb).
  cbv zeta in Hy, Hzb, Hw', Hxb.
  set (back := logicalToDisplay rnd Math_tan (mkLogical f' t')) in *.
  destruct (radius_range rnd Hrnd t' ltac:(lra)) as [Hrad Hrr].
  rewrite <- Hzb in Hrad, Hrr. apply Rabs_le_inv in Hrad.
  assert (Hzd : Rabs (z back - z display) <= 2.5e-15)
    by (apply Rabs_le; lra).
  split; [exact Hy |]. split; [exact Hzd |].
  pose proof (width_near rnd Math_tan Hrnd Htan (z back) (z display)
                2.5e-15 Hrr Hz' Hzd) as Hww.
  fold w in Hww.
  set (w' := currentWidth rnd Math_tan (z back)) in *.
  set (d := x back / w' - r).
  assert (Hd : Rabs d <= 1.2e-15).
  { subst d. apply Rabs_le_inv in Hxb. apply Rabs_le. lra. }
  replace (x back - x display) with ((w' - w) * r + w' * d)
    by (subst d r; field; lra).
  apply Rle_trans with (1 := Rabs_triang _ _).
  assert (H1 : Rabs ((w' - w) * r) <= (2.5e-15 + 5.5e-15) * 1)
    by (apply product_within; [exact Hww | apply Rabs_le; lra]).
  assert (H2 : Rabs (w' * d) <= 10.5 * 1.2e-15).
  { apply product_within; [apply Rabs_le; lra | exact Hd]. }
  lra.
Qed.

Lemma display_roundtrip_within_rounding_witness :
  let rnd := fun v => v * (1 + / 2 ^ 54) in
  let Math_tan := fun _ : R => 0.5773502691896257 in
  let display := mkDisplay (-0.25) 0 5 in
  roundsLikeBinary64 rnd /\ tangentInRange Math_tan /\
  0 <= z display <= 10 /\
  Rabs (x display) <= currentWidth rnd Math_tan (z display) /\
  Rabs (x (logicalToDisplay rnd Math_tan
             (displayToLogical rnd Math_tan display)) - x display)
  <= 2.5e-14.
Proof.
  cbv zeta. cbn [x z].
  assert (Hz : 0 <= 5 <= 10) by lra.
  assert (Hx : Rabs (-0.25)
               <= currentWidth (fun v => v * (1 + / 2 ^ 54))
                               (fun _ => 0.5773502691896257) 5).
  { rewrite Rabs_left by lra.
    pose proof (currentWidth_range _ _ inflating_rounds
                  constant_tangent_in_range 5 ltac:(lra)). lra. }
  split; [exact inflating_rounds |].
  split; [exact constant_tangent_in_range |].
  split; [exact Hz |]. split; [exact Hx |].
  apply (display_roundtrip_within_rounding _ _ (mkDisplay (-0.25) 0 5)
           inflating_rounds constant_tangent_in_range Hz Hx).
Defined.

End CoordinateTransformRoundedMore.

(** ** The polar field: conversions, grid and mirrored frames *)

Module PolarFieldMore.
Import PolarField PolarFieldOps.

Lemma halfAngle_range : 0 < halfAngleSpan < PI / 2.
Proof. unfold halfAngleSpan. pose proof PI_RGT_0. lra. Qed.

Lemma cos_in_field (a : R) :
  - halfAngleSpan <= a <= halfAngleSpan -> 0 < cos a.
Proof.
  intros Ha. pose proof halfAngle_range. apply cos_gt_0; lra.
Qed.

Lemma clamp_angle_id (a : R) :
  - halfAngleSpan <= a <= halfAngleSpan ->
  Rmax (- halfAngleSpan) (Rmin halfAngleSpan a) = a.
Proof.
  intros [H0 H1]. rewrite Rmin_right by exact H1.
  apply Rmax_right. exact H0.
Qed.

Lemma atan2_origin : atan2 0 0 = 0.
Proof.
  unfold atan2. rewrite !(Rltb_ge 0 0) by lra. reflexivity.
Qed.

(** X5.  At the centre the angle is lost: whatever the angle of the
    field, [polarToCartesian] sends radius 0 to the origin, and
    [cartesianToPolar] answers radius 0 and angle 0 there.  So the two
    conversions are not inverses at the centre. *)
Theorem centre_angle_lost (a : R) :
  - halfAngleSpan <= a <= halfAngleSpan ->
  polarToCartesian (mkPolar 0 a) = mkCartesian 0 0 0 /\
  cartesianToPolar (polarToCartesian (mkPolar 0 a)) = mkPolar 0 0.
Proof.
  intros Ha.
  assert (Hcentre : polarToCartesian (mkPolar 0 a) = mkCartesian 0 0 0).
  { unfold polarToCartesian, maxRadius. cbn [radius angle].
    f_equal; ring. }
  split; [exact Hcentre |].
  rewrite Hcentre. unfold cartesianToPolar, maxRadius. cbn [x z].
  replace (0 * 0 + 0 * 0) with 0 by ring.
  rewrite sqrt_0, atan2_origin.
  pose proof halfAngle_range.
  rewrite clamp_angle_id by lra.
  f_equal. replace (0 / 15) with 0 by lra.
  apply clamp_unit. lra.
Qed.

Lemma centre_angle_lost_witness :
  - halfAngleSpan <= 0.1 <= halfAngleSpan /\
  cartesianToPolar (polarToCartesian (mkPolar 0 0.1)) = mkPolar 0 0.
Proof.
  assert (Ha : - halfAngleSpan <= 0.1 <= halfAngleSpan).
  { unfold halfAngleSpan. pose proof PI2_3_2. lra. }
  split; [exact Ha |].
  apply (centre_angle_lost 0.1 Ha).
Defined.

(** X6.  Whatever Cartesian point it is given, [cartesianToPolar] answers
    with a radius in [0, 1] and an angle within the half span of the
    field: points outside the field are clamped onto it. *)
Theorem cartesianToPolar_in_field (cartesian : CartesianCoordinates) :
  0 <= radius (cartesianToPolar cartesian) <= 1 /\
  - halfAngleSpan <= angle (cartesianToPolar cartesian) <= halfAngleSpan.
Proof.
  pose proof halfAngle_range as Hh.
  unfold cartesianToPolar. cbn [radius angle]. repeat split.
  - apply Rmax_l.
  - apply Rmax_lub; [lra | apply Rmin_l].
  - apply Rmax_l.
  - apply Rmax_lub; [lra | apply Rmin_l].
Qed.

(** X7.  Where [polarToCartesian] puts the points of the field: for a
    radius in [0, 1] and an angle within the field the point lies at
    height 0, in front of the centre by at most [maxDepth] and off the
    centre line by at most half of [maxWidth]. *)
Theorem polarToCartesian_in_field (r a : R) :
  0 <= r <= 1 -> - halfAngleSpan <= a <= halfAngleSpan ->
  let p := polarToCartesian (mkPolar r a) in
  y p = 0 /\
  0 <= z p <= maxDepth getFieldDimensions /\
  Rabs (x p) <= maxWidth getFieldDimensions / 2.
Proof.
  intros [Hr0 Hr1] Ha p. subst p.
  pose proof (cos_in_field a Ha) as Hcos.
  pose proof (COS_bound a) as [_ Hcos1].
  pose proof halfAngle_range as Hh.
  unfold polarToCartesian, getFieldDimensions, maxRadius.
  cbn [x y z radius angle maxDepth maxWidth].
  repeat split.
  - nra.
  - nra.
  - assert (Hs1 : sin a <= sin halfAngleSpan)
      by (apply sin_incr_1; lra).
    assert (Hs2 : - sin halfAngleSpan <= sin a).
    { rewrite <- sin_neg. apply sin_incr_1; lra. }
    assert (Hs3 : 0 <= sin halfAngleSpan)
      by (apply sin_ge_0; lra).
    apply Rabs_le. split; nra.
Qed.

Lemma polarToCartesian_in_field_witness :
  0 <= 0.5 <= 1 /\ - halfAngleSpan <= 0 <= halfAngleSpan /\
  Rabs (x (polarToCartesian (mkPolar 0.5 0)))
  <= maxWidth getFieldDimensions / 2.
Proof.
  assert (Hr : 0 <= 0.5 <= 1) by lra.
  assert (Ha : - halfAngleSpan <= 0 <= halfAngleSpan)
    by (pose proof halfAngle_range; lra).
  split; [exact Hr |]. split; [exact Ha |].
  apply (polarToCartesian_in_field 0.5 0 Hr Ha).
Defined.

(** *** The mirrored points of a frame *)

Lemma pairs_nth_error {A B : Type} (g h : A -> B) (l : list A) (i : nat) :
  nth_error (flat_map (fun a => [g a; h a]) l) (2 * i)
  = option_map g (nth_error l i) /\
  nth_error (flat_map (fun a => [g a; h a]) l) (2 * i + 1)
  = option_map h (nth_error l i).
Proof.
  revert i. induction l as [| a l IH]; intros i.
  - cbn [flat_map]. rewrite !nth_error_nil. destruct i; auto.
  - destruct i as [| i].
    + split; reflexivity.
    + replace (2 * S i)%nat with (S (S (2 * i))) by lia.
      replace (S (S (2 * i)) + 1)%nat with (S (S (2 * i + 1))) by lia.
      cbn [flat_map app nth_error]. apply IH.
Qed.

Lemma indexed_nth_error {B : Type} (l : list B) (i : nat) (b : B) :
  nth_error l i = Some b ->
  nth_error (combine (seq 0 (List.length l)) l) i = Some (i, b).
Proof.
  intros Hb.
  assert (Hi : (i < List.length l)%nat)
    by (apply nth_error_Some; congruence).
  assert (Hlen : (i < List.length (combine (seq 0 (List.length l)) l))%nat).
  { rewrite length_combine, length_seq. lia. }
  rewrite (nth_error_nth' _ (0%nat, b) Hlen).
  rewrite combine_nth by apply length_seq.
  rewrite seq_nth by exact Hi.
  rewrite (nth_error_nth _ _ b Hb). reflexivity.
Qed.

(** X8.  [createBilateralSpectrogram] gives two points for every bin of
    the frame, the right one first: for bin [i] of amplitude [amplitude],
    the points at positions [2i] and [2i + 1] lie at the same distance in
    front of the centre, at opposite lateral offsets, and both at height
    [amplitude]. *)
Theorem bilateral_points (spectrogram : SpectrogramData) (i : nat)
        (amplitude : R) :
  nth_error (frequencyBins spectrogram) i = Some amplitude ->
  let points := createBilateralSpectrogram spectrogram in
  let reach := timeToRadius (timeIndex spectrogram) * maxRadius in
  let theta := frequencyToAngle (INR i) in
  List.length points = (2 * List.length (frequencyBins spectrogram))%nat /\
  nth_error points (2 * i)
  = Some (mkCartesian (reach * sin theta) amplitude (reach * cos theta)) /\
  nth_error points (2 * i + 1)
  = Some (mkCartesian (- (reach * sin theta)) amplitude
                      (reach * cos theta)).
Proof.
  intros Hbin points reach theta. subst points.
  set (right := fun '(freqIndex, amp) =>
         setY (polarToCartesian
                 (mkPolar (timeToRadius (timeIndex spectrogram))
                          (frequencyToAngle (INR freqIndex)))) amp).
  set (left := fun '(freqIndex, amp) =>
         setY (polarToCartesian
                 (mkPolar (timeToRadius (timeIndex spectrogram))
                          (- frequencyToAngle (INR freqIndex)))) amp).
  assert (Hshape :
    createBilateralSpectrogram spectrogram
    = flat_map (fun a => [right a; left a])
        (combine (seq 0 (List.length (frequencyBins spectrogram)))
                 (frequencyBins spectrogram))).
  { unfold createBilateralSpectrogram. cbv zeta.
    apply flat_map_ext. intros [k amp]. reflexivity. }
  rewrite Hshape.
  destruct (pairs_nth_error right left
              (combine (seq 0 (List.length (frequencyBins spectrogram)))
                       (frequencyBins spectrogram)) i) as [Hr Hl].
  rewrite Hr, Hl, (indexed_nth_error _ _ _ Hbin).
  cbn [option_map]. subst right left. cbv beta iota.
  unfold setY, polarToCartesian. cbn [x y z radius angle].
  fold reach theta. rewrite sin_neg, cos_neg.
  repeat split.
  - rewrite (flat_map_constant_length (c := 2)).
    + rewrite length_combine, length_seq. lia.
    + intros [k amp] _. reflexivity.
  - do 2 f_equal. ring.
Qed.

Lemma bilateral_points_witness :
  let frame := mkSpectrogram 10 [0.25; 1] in
  nth_error (frequencyBins frame) 1 = Some 1 /\
  List.length (createBilateralSpectrogram frame) = 4%nat.
Proof.
  cbv zeta. split; [reflexivity |].
  apply (bilateral_points (mkSpectrogram 10 [0.25; 1]) 1 1 eq_refl).
Defined.

(** *** The grid of the field *)

Lemma grid_angle_in_field (a steps : nat) :
  (0 < steps)%nat -> (a <= steps)%nat ->
  - halfAngleSpan
  <= INR a / INR steps * totalAngleSpan - halfAngleSpan
  <= halfAngleSpan.
Proof.
  intros Hs Ha.
  assert (H0 : 0 < INR steps) by (apply lt_0_INR; exact Hs).
  assert (H1 : 0 <= INR a / INR steps <= 1).
  { split.
    - apply Rmult_le_pos; [apply pos_INR |].
      apply Rlt_le, Rinv_0_lt_compat, H0.
    - apply (Rmult_le_reg_r (INR steps)); [exact H0 |].
      unfold Rdiv. rewrite Rmult_assoc, Rinv_l by lra.
      apply le_INR in Ha. lra. }
  pose proof halfAngle_range as Hh.
  replace totalAngleSpan with (2 * halfAngleSpan)
    by (unfold totalAngleSpan, halfAngleSpan; lra).
  split; nra.
Qed.

Lemma grid_radius_in_field (r steps : nat) :
  (0 < steps)%nat -> (r <= steps)%nat -> 0 <= INR r / INR steps <= 1.
Proof.
  intros Hs Hr.
  assert (H0 : 0 < INR steps) by (apply lt_0_INR; exact Hs).
  split.
  - apply Rmult_le_pos; [apply pos_INR |].
    apply Rlt_le, Rinv_0_lt_compat, H0.
  - apply (Rmult_le_reg_r (INR steps)); [exact H0 |].
    unfold Rdiv. rewrite Rmult_assoc, Rinv_l by lra.
    apply le_INR in Hr. lra.
Qed.

Lemma upto_In (k steps : nat) : In k (upto steps) <-> (k <= steps)%nat.
Proof. unfold upto. rewrite in_seq. lia. Qed.

(** X9.  [generateGridPoints] returns 1632 points, 21 arcs of 51 points
    followed by 11 radial lines of 51 points, and each of them is the
    image under [polarToCartesian] of a radius in [0, 1] and an angle
    within the field: the grid never leaves the field. *)
Theorem gridPoints_in_field :
  List.length generateGridPoints = 1632%nat /\
  forall p, In p generateGridPoints ->
    exists r a,
      0 <= r <= 1 /\ - halfAngleSpan <= a <= halfAngleSpan /\
      p = polarToCartesian (mkPolar r a).
Proof.
  split.
  - unfold generateGridPoints. cbv zeta.
    rewrite length_app.
    rewrite !(flat_map_constant_length (c := 51)).
    + unfold upto. rewrite !length_seq. reflexivity.
    + intros a _. rewrite length_map. unfold upto. apply length_seq.
    + intros r _. rewrite length_map. unfold upto. apply length_seq.
  - intros p Hin. unfold generateGridPoints in Hin. cbv zeta in Hin.
    apply in_app_or in Hin as [Hin | Hin];
      apply in_flat_map in Hin as (k1 & Hk1 & Hin);
      apply in_map_iff in Hin as (k2 & <- & Hk2);
      apply upto_In in Hk1; apply upto_In in Hk2.
    + exists (INR k1 / INR 20), (INR k2 / INR 50 * totalAngleSpan - halfAngleSpan).
      split; [apply grid_radius_in_field; lia |].
      split; [apply grid_angle_in_field; lia | reflexivity].
    + exists (INR k2 / INR 50), (INR k1 / INR 10 * totalAngleSpan - halfAngleSpan).
      split; [apply grid_radius_in_field; lia |].
      split; [apply grid_angle_in_field; lia | reflexivity].
Qed.

End PolarFieldMore.

(** ** The spectrogram synthesizer: silence, shape and bin indices *)

Module SynthesizerMore.
Import PolarField PolarWaveEngine EnvelopeProps SynthesizerProps.

Lemma envelopeAt_scales (ty : PhoneticType) (t : R) (p : Profile) :
  baseEnvelope t p = 0 -> envelopeAt ty t p = 0.
Proof.
  intros H. unfold envelopeAt. rewrite H.
  destruct ty; try reflexivity.
  destruct (truthyRate _); [ring | reflexivity].
Qed.

Lemma peakTerm_linear (p : Profile) (env c : R) (j : Z) :
  peakTerm p env c j = env * peakTerm p 1 c j.
Proof. unfold peakTerm. destruct (_ && _)%bool; ring. Qed.

Lemma peaks_sum_linear (p : Profile) (env : R) (j : Z) (cs : list R)
      (a : R) :
  fold_left (fun acc c => acc + peakTerm p env c j) cs (env * a)
  = env * fold_left (fun acc c => acc + peakTerm p 1 c j) cs a.
Proof.
  revert a. induction cs as [| c cs IH]; intros a; cbn [fold_left].
  - reflexivity.
  - rewrite (peakTerm_linear p env c j), <- Rmult_plus_distr_l. apply IH.
Qed.

(** X10.  The first frame of every wave is silent: at time index 0 the
    attack ramp starts from 0, so for every phonetic type, every profile
    with a positive attack time and every draw of the noise the frame
    holds 100 zeros. *)
Theorem first_frame_silent (ty : PhoneticType) (p : Profile)
        (noise : nat -> R) :
  0 < attackTime p ->
  frequencyBins (generateSpectrogramFrame ty 0 p noise) = repeat 0 100.
Proof.
  intros Hatt.
  assert (He : envelopeAt ty 0 p = 0).
  { apply envelopeAt_scales. rewrite baseEnvelope_attack by exact Hatt.
    unfold Rdiv. ring. }
  assert (Hraw : rawBins ty 0 p noise = repeat 0 100).
  { apply (nth_ext _ _ 0 0).
    - rewrite rawBins_length, repeat_length. reflexivity.
    - intros j Hj. rewrite rawBins_length in Hj. rewrite nth_repeat.
      assert (Hpeaks :
        fold_left (fun acc c => acc + peakTerm p 0 c (Z.of_nat j))
                  (peakFrequencies p) 0 = 0).
      { pose proof (peaks_sum_linear p 0 (Z.of_nat j)
                                     (peakFrequencies p) 0) as Hlin.
        rewrite Rmult_0_r in Hlin. rewrite Hlin. ring. }
      destruct ty;
        rewrite ?raw_nth_plain by discriminate;
        rewrite ?raw_nth_fricative by exact Hj;
        rewrite He, Hpeaks; ring. }
  cbn [frequencyBins generateSpectrogramFrame]. rewrite Hraw.
  apply normalize_silent. apply Forall_forall.
  intros b Hb. apply repeat_spec in Hb. exact Hb.
Qed.

Lemma first_frame_silent_witness :
  0 < attackTime (phoneticProfiles fricative) /\
  frequencyBins (generateSpectrogramFrame
                   fricative 0 (phoneticProfiles fricative)
                   (fun _ => 0.5))
  = repeat 0 100.
Proof.
  assert (H : 0 < attackTime (phoneticProfiles fricative))
    by (simpl; lra).
  split; [exact H |].
  apply (first_frame_silent fricative _ _ H).
Defined.

(** X12.  [frequencyToBinIndex] sends the band from 100 Hz to 8000 Hz
    onto the bins 0 to 99, the two ends onto 0 and 99, and never sends a
    higher frequency to a lower bin.  Below 100 Hz the index is
    negative. *)
Theorem binIndex_range (f1 f2 : R) :
  frequencyToBinIndex 100 = 0%Z /\ frequencyToBinIndex 8000 = 99%Z /\
  (f1 <= f2 -> (frequencyToBinIndex f1 <= frequencyToBinIndex f2)%Z) /\
  (100 <= f1 <= 8000 -> (0 <= frequencyToBinIndex f1 <= 99)%Z) /\
  (f1 < 100 -> (frequencyToBinIndex f1 < 0)%Z).
Proof.
  assert (Hmono : forall a b, a <= b ->
            (frequencyToBinIndex a <= frequencyToBinIndex b)%Z).
  { intros a b Hab. unfold frequencyToBinIndex, frequencyBinCount.
    change (IZR (100 - 1)) with 99. apply Zfloor_le. lra. }
  assert (H100 : frequencyToBinIndex 100 = 0%Z) by bin_index.
  assert (H8000 : frequencyToBinIndex 8000 = 99%Z) by bin_index.
  repeat split; try assumption.
  - apply Hmono.
  - rewrite <- H100. apply Hmono. lra.
  - rewrite <- H8000. apply Hmono. lra.
  - intros Hlow. unfold frequencyToBinIndex, frequencyBinCount.
    change (IZR (100 - 1)) with 99.
    pose proof (Zfloor_bound ((f1 - 100) / (8000 - 100) * 99)) as [Hb _].
    assert (Hneg : IZR (Zfloor ((f1 - 100) / (8000 - 100) * 99)) < 0)
      by lra.
    apply lt_IZR. exact Hneg.
Qed.

Lemma binIndex_range_witness :
  300 <= 1200 /\ 100 <= 300 <= 8000 /\ 50 < 100 /\
  (frequencyToBinIndex 300 <= frequencyToBinIndex 1200)%Z /\
  (0 <= frequencyToBinIndex 300 <= 99)%Z /\
  (frequencyToBinIndex 50 < 0)%Z.
Proof.
  split; [lra |]. split; [lra |]. split; [lra |].
  split; [apply (binIndex_range 300 1200); lra |].
  split; [apply (binIndex_range 300 1200); lra |].
  apply (binIndex_range 50 50). lra.
Defined.

End SynthesizerMore.

(** ** The wave engine: lifetimes, frames returned, ids and indices *)

Module EngineMore.
Import PolarField PolarWaveEngine SynthesizerProps EngineProps.

Lemma Zfloor_lt_iff (v : R) (m : Z) : (Zfloor v < m)%Z <-> v < IZR m.
Proof.
  pose proof (Zfloor_bound v) as [Hlo Hhi]. split; intros H.
  - assert (Zfloor v + 1 <= m)%Z by lia.
    apply IZR_le in H0. rewrite plus_IZR in H0. lra.
  - apply lt_IZR. lra.
Qed.

Lemma table_duration_whole (ty : PhoneticType) :
  IZR (Zfloor (duration (phoneticProfiles ty)))
  = duration (phoneticProfiles ty).
Proof. rewrite table_maxTimeIndex. destruct ty; reflexivity. Qed.

Lemma frame_bins_length ty t p noise :
  List.length (frequencyBins (generateSpectrogramFrame ty t p noise))
  = 100%nat.
Proof.
  cbn [frequencyBins generateSpectrogramFrame]. unfold normalize.
  destruct (Rgtb _ 0); rewrite ?length_map; apply rawBins_length.
Qed.

Lemma newWave_made ty draws e : waveMade (newWave ty draws e).
Proof.
  split; [reflexivity |].
  intros k frame Hk. unfold newWave in Hk. cbn [spectrograms] in Hk.
  rewrite nth_error_map in Hk.
  unfold Zrange in Hk. rewrite nth_error_map, nth_error_seq in Hk.
  destruct (k <? _)%nat; [| discriminate].
  cbn [option_map] in Hk. injection Hk as <-.
  split.
  - cbn [timeIndex generateSpectrogramFrame].
    rewrite INR_IZR_INZ. f_equal.
  - apply frame_bins_length.
Qed.

Lemma updateWave_made now w : waveMade w -> waveMade (fst (updateWave now w)).
Proof.
  intros Hw. unfold updateWave.
  destruct (isActive w); [| exact Hw].
  destruct (_ <? _)%Z; [| exact Hw].
  destruct (lookupZ _ _); exact Hw.
Qed.

Lemma newWave_inStep ty draws e : waveInStep (time e) (newWave ty draws e).
Proof.
  unfold waveInStep, newWave.
  cbn [currentTimeIndex birthTime maxTimeIndex].
  split.
  - symmetry. apply Zfloor_eq. simpl. lra.
  - rewrite table_maxTimeIndex. destruct ty; lia.
Qed.

(** What the engine keeps besides [engineOk]. *)
Lemma reachable_made (e : Engine) :
  reachable e ->
  Forall waveMade (waves e) /\ Forall (waveInStep (time e)) (waves e).
Proof.
  induction 1 as [| e ty draws _ [IHm IHs] | e dt _ [IHm IHs] Hdt | e _ _].
  - split; constructor.
  - rewrite generateWave_waves.
    change (time (generateWave ty draws e)) with (time e).
    split; apply Forall_app; split;
      try assumption; (constructor; [| constructor]).
    + apply newWave_made.
    + apply newWave_inStep.
  - rewrite updateTime_waves, updateTime_time.
    split; apply Forall_forall; intros w' Hin;
      apply filter_In in Hin as [Hin Hact];
      apply in_map_iff in Hin as (w & <- & Hw).
    + apply updateWave_made.
      rewrite Forall_forall in IHm. apply IHm, Hw.
    + unfold updateWave in *.
      destruct (isActive w) eqn:Ew; [| cbn [fst] in Hact; congruence].
      destruct (Z.ltb_spec (Zfloor ((time e + dt - birthTime w) * 10))
                           (maxTimeIndex w)) as [Hlt | Hge].
      * destruct (lookupZ _ _); cbn [fst]; split;
          cbn [setCurrentTimeIndex currentTimeIndex birthTime maxTimeIndex];
          try reflexivity; exact Hlt.
      * cbn [fst setIsActive isActive] in Hact. discriminate.
  - split; constructor.
Qed.

(** X13.  How long a wave lives.  In a state the engine reaches, a wave
    born at [birthTime] is still in the active set after
    [updateTime(deltaTime)] exactly when the clock has advanced by less
    than a tenth of the duration of its type since its birth: 80 clock
    units for a vowel, 60 for a trill, 40 for a fricative, 20 for a
    plosive. *)
Theorem wave_lifetime (e : Engine) (dt : R) (w : PolarWave) :
  reachable e -> 0 <= dt -> In w (waves e) ->
  (In (id w) (map id (waves (fst (updateTime dt e)))) <->
   time e + dt - birthTime w
   < duration (phoneticProfiles (type w)) / 10).
Proof.
  intros Hreach Hdt Hw.
  pose proof (reachable_ok e Hreach) as Hok.
  destruct (reachable_made e Hreach) as [Hmade _].
  rewrite Forall_forall in Hmade. destruct (Hmade w Hw) as [Hmax _].
  assert (Hact : isActive w = true).
  { destruct Hok as (Hwaves & _). rewrite Forall_forall in Hwaves.
    apply (Hwaves w Hw). }
  assert (Hiff : (Zfloor ((time e + dt - birthTime w) * 10)
                  < maxTimeIndex w)%Z
                 <-> time e + dt - birthTime w
                     < duration (phoneticProfiles (type w)) / 10).
  { rewrite Zfloor_lt_iff, Hmax, table_duration_whole. split; lra. }
  rewrite <- Hiff. split.
  - intros Hin.
    destruct (Z.lt_ge_cases (Zfloor ((time e + dt - birthTime w) * 10))
                            (maxTimeIndex w)) as [Hlt | Hge];
      [exact Hlt |].
    exfalso. revert Hin. apply retired_wave_dropped; try assumption.
    rewrite updateWave_expire by assumption. reflexivity.
  - intros Hlt.
    destruct (kept_wave_frame e dt w Hok Hdt Hw Hlt) as [Hkept _].
    apply in_map_iff. eexists. split; [| exact Hkept]. reflexivity.
Qed.

Lemma wave_lifetime_witness :
  let d := fun (_ : Z) (_ : nat) => 0 in
  let e := generateWave plosive d initial in
  let w := newWave plosive d initial in
  reachable e /\ 0 <= 19.95 /\ In w (waves e) /\
  In (id w) (map id (waves (fst (updateTime 19.95 e)))).
Proof.
  cbv zeta.
  destruct (one_plosive (fun _ _ => 0))
    as (Hreach & Hwaves & _ & Hbirth & Htime).
  assert (Hdt : 0 <= 19.95) by lra.
  assert (Hw : In (newWave plosive (fun _ _ => 0) initial)
                  (waves (generateWave plosive (fun _ _ => 0) initial)))
    by (rewrite Hwaves; left; reflexivity).
  split; [exact Hreach |]. split; [exact Hdt |]. split; [exact Hw |].
  apply (wave_lifetime _ 19.95 _ Hreach Hdt Hw).
  rewrite Htime, Hbirth.
  change (duration (phoneticProfiles
                      (type (newWave plosive (fun _ _ => 0) initial))))
    with 200.
  lra.
Defined.
(** One wave under [updateTime]: kept with the one frame of its new
    index, or retired without a frame. *)
Lemma updateWave_outcome (now dt : R) (w : PolarWave) :
  0 <= dt -> waveOk now w -> waveMade w ->
  (isActive (fst (updateWave (now + dt) w)) = true /\
   exists frame k,
     snd (updateWave (now + dt) w) = [frame] /\
     lookupZ (spectrograms w) k = Some frame /\
     currentTimeIndex (fst (updateWave (now + dt) w)) = k /\
     timeIndex frame = IZR k /\ (0 <= k < maxTimeIndex w)%Z /\
     List.length (frequencyBins frame) = 100%nat)
  \/
  (isActive (fst (updateWave (now + dt) w)) = false /\
   snd (updateWave (now + dt) w) = []).
Proof.
  intros Hdt (Hact & Hidx & Hbirth & Hlen) (Hmax & Hframes).
  set (n := Zfloor ((now + dt - birthTime w) * 10)).
  assert (Hn : (0 <= n)%Z) by (apply age_index_nonneg; lra).
  destruct (Z.lt_ge_cases n (maxTimeIndex w)) as [Hlt | Hge].
  - left. rewrite updateWave_advance by assumption. fold n.
    cbn [fst snd setCurrentTimeIndex isActive currentTimeIndex].
    split; [exact Hact |].
    unfold lookupZ. destruct (Z.ltb_spec n 0); [lia |].
    destruct (nth_error (spectrograms w) (Z.to_nat n)) as [frame |] eqn:E.
    + exists frame, n. destruct (Hframes _ _ E) as [Hti Hbins].
      assert (Hti' : timeIndex frame = IZR n)
        by (rewrite Hti, INR_IZR_INZ, Z2Nat.id by lia; reflexivity).
      repeat split; try assumption; try lia.
      unfold lookupZ. destruct (Z.ltb_spec n 0); [lia | exact E].
    + apply nth_error_None in E. lia.
  - right. rewrite updateWave_expire by assumption. split; reflexivity.
Qed.

Lemma filter_all {A : Type} (P : A -> bool) (l : list A) :
  Forall (fun a => P a = true) l -> filter P l = l.
Proof.
  induction 1 as [| a l Ha _ IH]; cbn [filter].
  - reflexivity.
  - rewrite Ha, IH. reflexivity.
Qed.

Lemma filter_idem {A : Type} (P : A -> bool) (l : list A) :
  filter P (filter P l) = filter P l.
Proof.
  apply filter_all. apply Forall_forall.
  intros a Ha. apply filter_In in Ha. apply Ha.
Qed.

(** X14.  What [updateTime] returns.  In a state the engine reaches, a
    call with a step that is not negative returns exactly one frame for
    every wave it keeps, none for a wave it retires; every returned frame
    has 100 bins and a whole time index from 0 up to 799. *)
Theorem updateTime_returns (e : Engine) (dt : R) :
  reachable e -> 0 <= dt ->
  let e' := fst (updateTime dt e) in
  let frames := snd (updateTime dt e) in
  List.length frames = getActiveWaveCount e' /\
  List.length frames = List.length (waves e') /\
  Forall (fun frame =>
            List.length (frequencyBins frame) = 100%nat /\
            exists k, timeIndex frame = IZR k /\ (0 <= k < 800)%Z)
         frames.
Proof.
  intros Hreach Hdt e' frames. subst e' frames.
  destruct (reachable_ok e Hreach) as (Hok & _).
  destruct (reachable_made e Hreach) as (Hmade & _).
  unfold getActiveWaveCount.
  rewrite updateTime_waves, updateTime_frames.
  rewrite filter_idem.
  assert (Hmain :
    List.length (flat_map (fun w => snd (updateWave (time e + dt) w))
                          (waves e))
    = List.length (filter isActive
                          (map (fun w => fst (updateWave (time e + dt) w))
                               (waves e)))
    /\ Forall (fun frame =>
                 List.length (frequencyBins frame) = 100%nat /\
                 exists k, timeIndex frame = IZR k /\ (0 <= k < 800)%Z)
              (flat_map (fun w => snd (updateWave (time e + dt) w))
                        (waves e))).
  { induction (waves e) as [| w ws IH].
    - split; [reflexivity | constructor].
    - inversion Hok as [| ? ? Hw Hws]; subst.
      inversion Hmade as [| ? ? Hm Hms]; subst.
      destruct (IH Hws Hms) as [IHlen IHall].
      cbn [flat_map map filter].
      destruct (updateWave_outcome (time e) dt w Hdt Hw Hm)
        as [(Hact & frame & k & Hsnd & _ & _ & Hti & Hk & Hbins)
           | (Hact & Hsnd)];
        rewrite Hact, Hsnd; cbn [app List.length].
      + split; [rewrite IHlen; reflexivity |].
        constructor; [| exact IHall].
        split; [exact Hbins |]. exists k. split; [exact Hti |].
        destruct Hm as [Hmax _]. rewrite Hmax, table_maxTimeIndex in Hk.
        destruct (type w); lia.
      + split; assumption. }
  destruct Hmain as [Hlen Hall]. repeat split; assumption.
Qed.

Lemma updateTime_returns_witness :
  let d := fun (_ : Z) (_ : nat) => 0 in
  let e := generateWave plosive d initial in
  reachable e /\ 0 <= 0.1 /\
  List.length (snd (updateTime 0.1 e))
  = getActiveWaveCount (fst (updateTime 0.1 e)).
Proof.
  cbv zeta.
  destruct (one_plosive (fun _ _ => 0)) as (Hreach & _).
  assert (Hdt : 0 <= 0.1) by lra.
  split; [exact Hreach |]. split; [exact Hdt |].
  apply (updateTime_returns _ 0.1 Hreach Hdt).
Defined.

(** X15.  In every state the engine reaches, no two waves of the active
    set share an id, [getActiveWaveCount()] is the number of waves held,
    and that number never exceeds the id counter. *)
Theorem active_ids_distinct (e : Engine) :
  reachable e ->
  NoDup (map id (waves e)) /\
  getActiveWaveCount e = List.length (waves e) /\
  (List.length (waves e) <= waveId e)%nat.
Proof.
  intros Hreach.
  destruct (reachable_ok e Hreach) as (Hwaves & Hnd & Hids).
  repeat split.
  - exact Hnd.
  - unfold getActiveWaveCount. rewrite filter_all; [reflexivity |].
    apply Forall_forall. intros w Hw.
    rewrite Forall_forall in Hwaves. apply (Hwaves w Hw).
  - assert (Hle : (List.length (map id (waves e))
                   <= List.length (map waveName (seq 0 (waveId e))))%nat).
    { apply NoDup_incl_length; [exact Hnd |].
      intros name Hin. apply in_map_iff in Hin as (w & <- & Hw).
      rewrite Forall_forall in Hids.
      destruct (Hids w Hw) as (k & Hk & ->).
      apply in_map. apply in_seq. lia. }
    rewrite !length_map, length_seq in Hle. exact Hle.
Qed.

Lemma active_ids_distinct_witness :
  let d := fun (_ : Z) (_ : nat) => 0 in
  let e := generateWave plosive d initial in
  reachable e /\ NoDup (map id (waves e)).
Proof.
  cbv zeta.
  destruct (one_plosive (fun _ _ => 0)) as (Hreach & _).
  split; [exact Hreach |].
  apply (active_ids_distinct _ Hreach).
Defined.

(** X16.  In every state the engine reaches, the index of each wave is
    the one its age gives, [floor((clock - birthTime) * 10)], also right
    after [generateWave], and it lies strictly below [maxTimeIndex]: the
    wave always has a frame for its current index. *)
Theorem index_follows_clock (e : Engine) (w : PolarWave) :
  reachable e -> In w (waves e) ->
  currentTimeIndex w = Zfloor ((time e - birthTime w) * 10) /\
  (0 <= currentTimeIndex w < maxTimeIndex w)%Z /\
  exists frame,
    lookupZ (spectrograms w) (currentTimeIndex w) = Some frame /\
    timeIndex frame = IZR (currentTimeIndex w).
Proof.
  intros Hreach Hw.
  destruct (reachable_ok e Hreach) as (Hwaves & _).
  destruct (reachable_made e Hreach) as (Hmade & Hstep).
  rewrite Forall_forall in Hwaves, Hmade, Hstep.
  destruct (Hwaves w Hw) as (_ & Hidx & _ & Hlen).
  destruct (Hmade w Hw) as (_ & Hframes).
  destruct (Hstep w Hw) as (Hcur & Hlt).
  split; [exact Hcur |]. split; [lia |].
  unfold lookupZ. destruct (Z.ltb_spec (currentTimeIndex w) 0); [lia |].
  destruct (nth_error (spectrograms w) (Z.to_nat (currentTimeIndex w)))
    as [frame |] eqn:E.
  - exists frame. split; [reflexivity |].
    destruct (Hframes _ _ E) as [Hti _].
    rewrite Hti, INR_IZR_INZ, Z2Nat.id by lia. reflexivity.
  - apply nth_error_None in E. lia.
Qed.

Lemma index_follows_clock_witness :
  let d := fun (_ : Z) (_ : nat) => 0 in
  let e := generateWave plosive d initial in
  let w := newWave plosive d initial in
  reachable e /\ In w (waves e) /\
  (0 <= currentTimeIndex w < maxTimeIndex w)%Z.
Proof.
  cbv zeta.
  destruct (one_plosive (fun _ _ => 0)) as (Hreach & Hwaves & _).
  assert (Hw : In (newWave plosive (fun _ _ => 0) initial)
                  (waves (generateWave plosive (fun _ _ => 0) initial)))
    by (rewrite Hwaves; left; reflexivity).
  split; [exact Hreach |]. split; [exact Hw |].
  apply (index_follows_clock _ _ Hreach Hw).
Defined.

End EngineMore.

(** ** The simple wedge model: ageing, symmetry and the centre angle *)

Module WaveEngineMore.
Import WaveEngine.

Lemma arcSpan_gt_1 : 1 < arcSpan.
Proof. unfold arcSpan. pose proof PI2_3_2. lra. Qed.

Lemma ln_le_mono (a b : R) : 0 < a -> a <= b -> ln a <= ln b.
Proof.
  intros Ha Hab. destruct (Req_dec_T a b) as [-> | Hne]; [lra |].
  left. apply ln_increasing; lra.
Qed.

Lemma log_span_pos : 0 < ln maxFreq - ln minFreq.
Proof.
  unfold maxFreq, minFreq.
  assert (ln 100 < ln 6000) by (apply ln_increasing; lra). lra.
Qed.

(** X17.  [frequencyToAngle] spreads the band from [minFreq] to [maxFreq]
    over the arc: the two ends go to minus and plus half of [arcSpan],
    every frequency in between to an angle in between, and a positive
    number below [minFreq] to an angle beyond the left edge of the
    arc. *)
Theorem frequencyToAngle_range (f : R) :
  frequencyToAngle minFreq = - (arcSpan / 2) /\
  frequencyToAngle maxFreq = arcSpan / 2 /\
  (minFreq <= f <= maxFreq ->
   - (arcSpan / 2) <= frequencyToAngle f <= arcSpan / 2) /\
  (0 < f < minFreq -> frequencyToAngle f < - (arcSpan / 2)).
Proof.
  pose proof log_span_pos as Hd. pose proof arcSpan_gt_1 as Ha.
  unfold frequencyToAngle. cbv zeta.
  set (d := ln maxFreq - ln minFreq) in *.
  assert (Hnorm : forall v, (ln v - ln minFreq) / d * d = ln v - ln minFreq)
    by (intros v; field; lra).
  assert (Hmin : (ln minFreq - ln minFreq) / d = 0)
    by (unfold Rminus; rewrite Rplus_opp_r; unfold Rdiv; ring).
  assert (Hmax : d / d = 1) by (field; lra).
  split; [rewrite Hmin; lra |].
  split; [rewrite Hmax; lra |].
  split.
  - intros [Hm HM].
    assert (Hlo : ln minFreq <= ln f)
      by (apply ln_le_mono; [unfold minFreq; lra | exact Hm]).
    assert (Hhi : ln f <= ln maxFreq)
      by (apply ln_le_mono; [unfold minFreq in Hm; lra | exact HM]).
    assert (0 <= (ln f - ln minFreq) / d).
    { apply Rmult_le_pos; [lra |].
      apply Rlt_le, Rinv_0_lt_compat, Hd. }
    assert ((ln f - ln minFreq) / d <= 1).
    { apply (Rmult_le_reg_r d); [exact Hd |]. rewrite Hnorm.
      subst d. lra. }
    split; nra.
  - intros [H0 Hlt].
    assert (ln f < ln minFreq) by (apply ln_increasing; assumption).
    assert ((ln f - ln minFreq) / d < 0).
    { apply (Rmult_lt_reg_r d); [exact Hd |]. rewrite Hnorm. lra. }
    nra.
Qed.

Lemma frequencyToAngle_range_witness :
  minFreq <= 1000 <= maxFreq /\ 0 < 0.5 < minFreq /\
  - (arcSpan / 2) <= frequencyToAngle 1000 <= arcSpan / 2 /\
  frequencyToAngle 0.5 < - (arcSpan / 2).
Proof.
  assert (H1 : minFreq <= 1000 <= maxFreq)
    by (unfold minFreq, maxFreq; lra).
  assert (H2 : 0 < 0.5 < minFreq) by (unfold minFreq; lra).
  split; [exact H1 |]. split; [exact H2 |].
  split.
  - apply (frequencyToAngle_range 1000). exact H1.
  - apply (frequencyToAngle_range 0.5). exact H2.
Defined.

(** X18.  [updateTime] keeps exactly the waves younger than 25 times the
    duration of their type, in their order: the second test of the
    filter, on the radius the wave has travelled, never removes a wave,
    because a wave reaches the maximum radius at age 125 and the longest
    life is 23.75. *)
Theorem updateTime_by_age (dt : R) (e : Engine) :
  waves (updateTime dt e)
  = filter (fun wave =>
              Rltb (time e + dt - Wave.birthTime wave)
                   (WaveParams.duration (phoneticParams (Wave.type wave))
                    * 25))
           (waves e) /\
  (List.length (waves (updateTime dt e)) <= List.length (waves e))%nat /\
  forall wave, In wave (waves (updateTime dt e)) ->
    In wave (waves e) /\ time e + dt - Wave.birthTime wave < 23.75.
Proof.
  assert (Hfilter :
    waves (updateTime dt e)
    = filter (fun wave =>
                Rltb (time e + dt - Wave.birthTime wave)
                     (WaveParams.duration (phoneticParams (Wave.type wave))
                      * 25))
             (waves e)).
  { unfold updateTime. cbn [waves]. apply filter_ext. intros w.
    destruct (Rltb (time e + dt - Wave.birthTime w) _) eqn:Hage;
      [| reflexivity].
    apply Rltb_true in Hage. cbn [andb].
    apply Rltb_lt. unfold getWaveRadius, waveSpeed, maxRadius.
    destruct (Wave.type w); cbn [phoneticParams WaveParams.duration] in Hage;
      lra. }
  split; [exact Hfilter |]. rewrite Hfilter. split.
  - apply filter_length_le.
  - intros w Hw. apply filter_In in Hw as [Hin Hage].
    split; [exact Hin |]. apply Rltb_true in Hage.
    destruct (Wave.type w); cbn [phoneticParams WaveParams.duration] in Hage;
      lra.
Qed.

Lemma activeFreq_abs (f : R) :
  Rmax (if Rltb f 0.5 then (0.5 - f) * 2 else 0)
       (if Rgeb f 0.5 then (f - 0.5) * 2 else 0)
  = Rabs (2 * f - 1).
Proof.
  unfold Rgeb.
  destruct (Rlt_dec f 0.5) as [Hlt | Hge].
  - rewrite (Rltb_lt _ _ Hlt).
    rewrite (proj2 (Rleb_false 0.5 f)) by exact Hlt.
    rewrite Rmax_left by lra. rewrite Rabs_left by lra. lra.
  - rewrite (Rltb_ge f 0.5) by lra.
    rewrite (proj2 (Rleb_true 0.5 f)) by lra.
    rewrite Rmax_right by lra. rewrite Rabs_pos_eq by lra. lra.
Qed.

Lemma guard_mirror (f t : R) :
  Rltb (1 - f) 0 || Rgtb (1 - f) 1 || Rltb t 0 || Rgtb t 1
  = Rltb f 0 || Rgtb f 1 || Rltb t 0 || Rgtb t 1.
Proof.
  unfold Rgtb.
  assert (H1 : Rltb (1 - f) 0 = Rltb 1 f).
  { destruct (Rlt_dec 1 f);
      [rewrite !Rltb_lt by lra | rewrite !Rltb_ge by lra]; reflexivity. }
  assert (H2 : Rltb 1 (1 - f) = Rltb f 0).
  { destruct (Rlt_dec f 0);
      [rewrite !Rltb_lt by lra | rewrite !Rltb_ge by lra]; reflexivity. }
  rewrite H1, H2. rewrite (orb_comm (Rltb 1 f)). reflexivity.
Qed.

Lemma waveHeight_mirror (e : Engine) (f t : R) (w : Wave.t) :
  waveHeight e (1 - f) t w = waveHeight e f t w.
Proof.
  unfold waveHeight. rewrite !activeFreq_abs.
  replace (Rabs (2 * (1 - f) - 1)) with (Rabs (2 * f - 1)).
  - reflexivity.
  - rewrite <- (Rabs_Ropp (2 * f - 1)). f_equal. ring.
Qed.

Lemma fold_left_ext_sum (g h : Wave.t -> R) (l : list Wave.t) (a : R) :
  (forall w, g w = h w) ->
  fold_left (fun total w => total + g w) l a
  = fold_left (fun total w => total + h w) l a.
Proof.
  intros Hgh. revert a. induction l as [| w l IH]; intros a; cbn [fold_left].
  - reflexivity.
  - rewrite Hgh. apply IH.
Qed.

(** X19.  The height field is mirror symmetric: whatever waves the engine
    holds, [calculateHeightAtPosition] gives the same height at frequency
    [f] and at frequency [1 - f], for every time. *)
Theorem height_mirror (e : Engine) (f t : R) :
  calculateHeightAtPosition e (1 - f) t = calculateHeightAtPosition e f t.
Proof.
  unfold calculateHeightAtPosition. rewrite guard_mirror.
  destruct (_ || _)%bool; [reflexivity |].
  apply fold_left_ext_sum. intros w. apply waveHeight_mirror.
Qed.

(** *** Where [generateWave] centres a wave *)

(** [generateWave] hands [frequencyToAngle] the centre position of the
    type, a number between 0.1 and 0.6, where the function expects a
    frequency in Hz: the centre angle comes out more than one and a half
    arcs to the left. *)
Lemma table_centerAngle (ty : PhoneticType) :
  frequencyToAngle (WaveParams.centerFreq (phoneticParams ty))
  < - (1.5 * arcSpan).
Proof.
  pose proof log_span_pos as Hd. pose proof arcSpan_gt_1 as Ha.
  unfold frequencyToAngle. cbv zeta.
  set (c := WaveParams.centerFreq (phoneticParams ty)).
  assert (Hc : 0 < c /\ c * 6000 < 100 * 100).
  { subst c. destruct ty; cbn [phoneticParams WaveParams.centerFreq]; lra. }
  destruct Hc as [Hc0 Hc1].
  assert (Hln : ln c + ln 6000 < ln 100 + ln 100).
  { rewrite <- !ln_mult by lra. apply ln_increasing; [nra | exact Hc1]. }
  unfold maxFreq, minFreq in *.
  set (d := ln 6000 - ln 100) in *.
  assert (Hnorm : (ln c - ln 100) / d * d = ln c - ln 100)
    by (field; lra).
  assert (Hlt : (ln c - ln 100) / d < -1).
  { apply (Rmult_lt_reg_r d); [exact Hd |]. rewrite Hnorm.
    subst d. lra. }
  nra.
Qed.

Lemma table_spread (ty : PhoneticType) :
  0 <= WaveParams.spread (phoneticParams ty)
       * WaveParams.frequencyBandwidth (phoneticParams ty) < 1.
Proof.
  destruct ty;
    cbn [phoneticParams WaveParams.spread WaveParams.frequencyBandwidth];
    lra.
Qed.

Lemma waveHeight_zero (e : Engine) (f t : R) (w : Wave.t) :
  waveFromParams w -> 0 <= f <= 1 -> waveHeight e f t w = 0.
Proof.
  intros [Hcenter Hspread] Hf.
  pose proof (table_centerAngle (Wave.type w)) as Hc.
  pose proof (table_spread (Wave.type w)) as Hs.
  pose proof arcSpan_gt_1 as Ha.
  rewrite <- Hcenter in Hc. rewrite <- Hspread in Hs.
  unfold waveHeight.
  destruct (Rltb _ 2); [| reflexivity].
  rewrite activeFreq_abs.
  assert (Hfreq : 0 <= Rabs (2 * f - 1) <= 1).
  { split; [apply Rabs_pos | apply Rabs_le; lra]. }
  assert (Hcabs : Rabs (Wave.centerAngle w) = - Wave.centerAngle w)
    by (apply Rabs_left; lra).
  rewrite Hcabs.
  set (angle := Rabs (2 * f - 1) * (arcSpan / 2)).
  assert (Hangle : 0 <= angle <= arcSpan / 2) by (subst angle; nra).
  assert (Hdiff : Rabs (angle - - Wave.centerAngle w)
                  = - Wave.centerAngle w - angle).
  { rewrite Rabs_left by lra. ring. }
  rewrite Hdiff.
  rewrite (proj2 (Rleb_false _ _)) by lra.
  reflexivity.
Qed.

Lemma reachable_fromParams (e : Engine) :
  reachable e -> Forall waveFromParams (waves e).
Proof.
  induction 1 as [| e ty _ IH | e dt _ IH | e _ _].
  - constructor.
  - unfold generateWave. cbn [waves]. apply Forall_app. split; [exact IH |].
    constructor; [| constructor]. split; reflexivity.
  - unfold updateTime. cbn [waves]. apply Forall_forall.
    intros w Hw. apply filter_In in Hw as [Hw _].
    rewrite Forall_forall in IH. apply IH, Hw.
  - constructor.
Qed.

Lemma sum_of_zeros (g : Wave.t -> R) (l : list Wave.t) :
  Forall (fun w => g w = 0) l ->
  fold_left (fun total w => total + g w) l 0 = 0.
Proof.
  induction 1 as [| w l Hw _ IH]; cbn [fold_left].
  - reflexivity.
  - rewrite Hw, Rplus_0_r. exact IH.
Qed.

Lemma reachable_height_zero (e : Engine) (f t : R) :
  reachable e -> calculateHeightAtPosition e f t = 0.
Proof.
  intros Hreach. pose proof (reachable_fromParams e Hreach) as Hwaves.
  rewrite Forall_forall in Hwaves.
  unfold calculateHeightAtPosition.
  destruct (Rltb f 0 || Rgtb f 1 || Rltb t 0 || Rgtb t 1)%bool eqn:Hout;
    [reflexivity |].
  apply orb_false_elim in Hout as [Hout _].
  apply orb_false_elim in Hout as [Hout _].
  apply orb_false_elim in Hout as [Hf0 Hf1].
  apply Rltb_false in Hf0. unfold Rgtb in Hf1. apply Rltb_false in Hf1.
  apply sum_of_zeros. apply Forall_forall. intros w Hw.
  apply waveHeight_zero; [apply Hwaves, Hw | lra].
Qed.

(** X20.  In every state the simple engine reaches through
    [generateWave], [updateTime] and [reset], the height is 0 at every
    position.  Each wave is centred at [frequencyToAngle(centerFreq)]
    with a centre position of at most 0.6 taken as a frequency in Hz,
    which lies more than one arc outside the wedge; its spread is below
    1, so no position of the wedge is within the spread of any wave. *)
Theorem height_always_zero (e : Engine) (f t : R) :
  reachable e -> calculateHeightAtPosition e f t = 0.
Proof.
  intros Hreach. pose proof (reachable_fromParams e Hreach) as Hwaves.
  unfold calculateHeightAtPosition.
  destruct (Rltb f 0) eqn:Hf0; [reflexivity |].
  destruct (Rgtb f 1) eqn:Hf1; [reflexivity |].
  destruct (Rltb t 0 || Rgtb t 1)%bool eqn:Ht.
  - cbn [orb]. rewrite Ht. reflexivity.
  - cbn [orb]. rewrite Ht.
    apply Rltb_false in Hf0. unfold Rgtb in Hf1. apply Rltb_false in Hf1.
    apply sum_of_zeros. apply Forall_forall. intros w Hw.
    rewrite Forall_forall in Hwaves.
    apply waveHeight_zero; [apply Hwaves, Hw | lra].
Qed.

Lemma height_always_zero_witness :
  let e := updateTime 1 (generateWave plosive (generateWave vowel initial)) in
  reachable e /\ calculateHeightAtPosition e 0.5 0.008 = 0.
Proof.
  cbv zeta.
  assert (Hreach : reachable
            (updateTime 1 (generateWave plosive
                             (generateWave vowel initial))))
    by (repeat constructor).
  split; [exact Hreach |].
  apply (height_always_zero _ 0.5 0.008 Hreach).
Defined.

(** *** The envelope of the simple model *)

Lemma exp_decay_le_1 (v : R) : 0 <= v -> 0 < exp (- v) <= 1.
Proof.
  intros Hv. split; [apply exp_pos |].
  destruct (Req_dec_T v 0) as [-> | Hne].
  - rewrite Ropp_0, exp_0. lra.
  - left. rewrite <- exp_0. apply exp_increasing. lra.
Qed.

(** X21.  While a wave lives, that is for an age from 0 up to 25 times
    the duration of its type, [calculateEnvelope] with the parameters of
    the type stays between 0 and one and a half times the amplitude of
    the type; only the trill, with its modulation, goes above the
    amplitude. *)
Theorem envelope_bounded (ty : PhoneticType) (age : R) :
  let params := phoneticParams ty in
  0 <= age <= WaveParams.duration params * 25 ->
  0 <= calculateEnvelope ty age params
    <= 1.5 * WaveParams.amplitude params /\
  (ty <> trill ->
   calculateEnvelope ty age params <= WaveParams.amplitude params).
Proof.
  intros params [Hage0 Hage1]. subst params.
  unfold calculateEnvelope.
  set (na := age / (WaveParams.duration (phoneticParams ty) * 25)).
  assert (Hna : 0 <= na <= 1).
  { subst na.
    assert (Hd : 0 < WaveParams.duration (phoneticParams ty) * 25)
      by (destruct ty; cbn [phoneticParams WaveParams.duration]; lra).
    split.
    - apply Rmult_le_pos; [exact Hage0 |].
      apply Rlt_le, Rinv_0_lt_compat, Hd.
    - apply (Rmult_le_reg_r (WaveParams.duration (phoneticParams ty) * 25));
        [exact Hd |].
      unfold Rdiv. rewrite Rmult_assoc, Rinv_l by lra. lra. }
  destruct ty;
    cbn [phoneticParams WaveParams.envelopeType WaveParams.amplitude
         WaveParams.attackTime WaveParams.sustainLevel WaveParams.decay
         WaveParams.modulationRate].
  - destruct (Rltb na 0.1) eqn:E1.
    + apply Rltb_true in E1. split; [| intros _]; lra.
    + destruct (Rltb na 0.8) eqn:E2.
      * split; [| intros _]; lra.
      * apply Rltb_false in E2. split; [| intros _]; lra.
  - pose proof (exp_decay_le_1 (na * 0.08) ltac:(lra)) as [He0 He1].
    replace (- na * 0.08) with (- (na * 0.08)) by ring.
    pose proof (SIN_bound (2 * PI * 8 * age)) as [Hs0 Hs1].
    split; [split; nra | intros Hne; now destruct Hne].
  - pose proof (exp_decay_le_1 (na * 0.04 * 0.5) ltac:(lra)) as [He0 He1].
    replace (- na * 0.04 * 0.5) with (- (na * 0.04 * 0.5)) by ring.
    split; [split; nra | intros _; nra].
  - destruct (Rltb na 0.02) eqn:E1.
    + apply Rltb_true in E1. split; [| intros _]; lra.
    + pose proof (exp_decay_le_1 (na * 0.4 * 10) ltac:(lra)) as [He0 He1].
      replace (- na * 0.4 * 10) with (- (na * 0.4 * 10)) by ring.
      split; [split; nra | intros _; nra].
Qed.

Lemma envelope_bounded_witness :
  0 <= 5 <= WaveParams.duration (phoneticParams vowel) * 25 /\
  0 <= calculateEnvelope vowel 5 (phoneticParams vowel)
    <= 1.5 * WaveParams.amplitude (phoneticParams vowel).
Proof.
  assert (H : 0 <= 5 <= WaveParams.duration (phoneticParams vowel) * 25)
    by (cbn [phoneticParams WaveParams.duration]; lra).
  split; [exact H |].
  apply (envelope_bounded vowel 5 H).
Defined.

End WaveEngineMore.

(** ** The wedge mesh: where each vertex is sampled *)

Module ThreeJSSetupMore.
Import CoordinateTransform CoordinateTransformProps.

Lemma updateGeometry_flat (waveEngine : WaveEngine.Engine)
      (positions : list ThreeJSSetup.Vertex) :
  WaveEngine.reachable waveEngine ->
  ThreeJSSetup.updateGeometry waveEngine positions
  = map (fun v => mkDisplay (x v) 0 (z v)) positions.
Proof.
  intros Hreach. unfold ThreeJSSetup.updateGeometry.
  apply map_ext. intros v. unfold ThreeJSSetup.sampleVertex. cbv zeta.
  rewrite WaveEngineMore.reachable_height_zero by exact Hreach.
  reflexivity.
Qed.

(** X23.  The wedge mesh never moves.  From any state the simple engine
    reaches, and whatever the vertices are, every tick of [animate]
    leaves the engine in a reachable state and every vertex where it was
    with height 0. *)
Theorem mesh_stays_flat (waveEngine : WaveEngine.Engine)
        (positions : list ThreeJSSetup.Vertex) (ticks : nat) :
  WaveEngine.reachable waveEngine ->
  let state := Nat.iter (S ticks) ThreeJSSetup.animate
                        (waveEngine, positions) in
  WaveEngine.reachable (fst state) /\
  snd state = map (fun v => mkDisplay (x v) 0 (z v)) positions.
Proof.
  intros Hreach. cbv zeta.
  induction ticks as [| ticks [IHr IHp]].
  - cbn [Nat.iter nat_rect]. unfold ThreeJSSetup.animate. cbn [fst snd].
    assert (Hnext : WaveEngine.reachable
                      (WaveEngine.updateTime 0.05 waveEngine))
      by (apply WaveEngine.reach_update; exact Hreach).
    split; [exact Hnext |]. apply updateGeometry_flat. exact Hnext.
  - change (Nat.iter (S (S ticks)) ThreeJSSetup.animate
                     (waveEngine, positions))
      with (ThreeJSSetup.animate
              (Nat.iter (S ticks) ThreeJSSetup.animate
                        (waveEngine, positions))).
    set (previous := Nat.iter (S ticks) ThreeJSSetup.animate
                              (waveEngine, positions)) in *.
    unfold ThreeJSSetup.animate. cbn [fst snd].
    assert (Hnext : WaveEngine.reachable
                      (WaveEngine.updateTime 0.05 (fst previous)))
      by (apply WaveEngine.reach_update; exact IHr).
    split; [exact Hnext |].
    rewrite updateGeometry_flat by exact Hnext.
    rewrite IHp, map_map. reflexivity.
Qed.

Lemma mesh_stays_flat_witness :
  let e := WaveEngine.generateWave WaveEngine.vowel WaveEngine.initial in
  let positions := [mkDisplay 1 0.5 2] in
  WaveEngine.reachable e /\
  snd (Nat.iter 3 ThreeJSSetup.animate (e, positions)) = [mkDisplay 1 0 2].
Proof.
  cbv zeta.
  assert (Hreach : WaveEngine.reachable
            (WaveEngine.generateWave WaveEngine.vowel WaveEngine.initial))
    by (repeat constructor).
  split; [exact Hreach |].
  apply (mesh_stays_flat _ [mkDisplay 1 0.5 2] 2 Hreach).
Defined.

End ThreeJSSetupMore.

Module ThreeJSSetupRoundedMore.
Import CoordinateTransform CoordinateTransformRounded.
Import CoordinateTransformRoundedProps ThreeJSSetupRounded.

Lemma fround_between (Math_fround : R -> R) (v B : R) :
  roundsLikeBinary32 Math_fround ->
  - B <= v <= B ->
  v - (6e-8 * B + 1e-45) <= Math_fround v <= v + (6e-8 * B + 1e-45).
Proof.
  intros H Hv. specialize (H v).
  assert (Ha : Rabs v <= B) by (apply Rabs_le; lra).
  pose proof (Rabs_pos v) as Hp.
  assert (Hu : / 2 ^ 24 <= 6e-8) by lra.
  assert (Hu0 : 0 < / 2 ^ 24) by lra.
  assert (He : / 2 ^ 150 <= 1e-45) by lra.
  assert (Hb : Rabs (Math_fround v - v) <= 6e-8 * B + 1e-45) by nra.
  apply Rabs_le_inv in Hb. lra.
Qed.

Lemma fround_scaled (Math_fround : R -> R) (w q B : R) :
  roundsLikeBinary32 Math_fround ->
  0 <= w -> Rabs q <= B ->
  Rabs (Math_fround (w * q) - w * q) <= 6e-8 * B * w + 1e-45.
Proof.
  intros H Hw Hq. specialize (H (w * q)).
  assert (Ha : Rabs (w * q) <= B * w).
  { rewrite Rabs_mult, (Rabs_pos_eq w) by exact Hw.
    rewrite (Rmult_comm B). apply Rmult_le_compat_l; assumption. }
  pose proof (Rabs_pos (w * q)) as Hp.
  assert (Hu : / 2 ^ 24 <= 6e-8) by lra.
  assert (Hu0 : 0 < / 2 ^ 24) by lra.
  assert (He : / 2 ^ 150 <= 1e-45) by lra.
  nra.
Qed.

Lemma chopping_rounds :
  roundsLikeBinary32 (fun v => v * (1 - / 2 ^ 25)).
Proof.
  intros v.
  replace (v * (1 - / 2 ^ 25) - v) with (v * - / 2 ^ 25) by ring.
  rewrite Rabs_mult, (Rabs_left (- / 2 ^ 25)) by lra.
  pose proof (Rabs_pos v). nra.
Qed.

(** X22.  A vertex of the plane, with x in [-1, 1] and y in [-2, 2], is
    sampled where it came from, up to single precision: the logical
    coordinate at which [updateGeometry] asks the engine for the height
    of the vertex that [createArcGeometry] placed lies in the unit square
    and within 2e-6 in frequency and 1e-7 in time of
    [((x + 1) / 2, (y + 2) / 4)]. *)
Theorem vertex_sampled_near_origin (rnd Math_tan Math_fround : R -> R)
        (v : Vertex) :
  roundsLikeBinary64 rnd -> tangentInRange Math_tan ->
  roundsLikeBinary32 Math_fround ->
  -1 <= x v <= 1 -> -2 <= y v <= 2 ->
  let logical :=
    sampledAt rnd Math_tan (placeVertex rnd Math_tan Math_fround v) in
  Rabs (frequency logical - (x v + 1) / 2) <= 2e-6 /\
  Rabs (time logical - (y v + 2) / 4) <= 1e-7 /\
  0 <= frequency logical <= 1 /\ 0 <= time logical <= 1.
Proof.
  pose proof underflowUnit_small as Heta.
  intros Hrnd Htan Hsingle Hx Hy logical. subst logical.
  unfold sampledAt, placeVertex. cbv zeta. cbn [x y z].
  (* the logical coordinate of the vertex, as computed *)
  pose proof (rnd_between rnd Hrnd (x v + 1) 2 ltac:(lra)) as Hf1.
  pose proof (rnd_between rnd Hrnd (rnd (x v + 1) / 2) 1.01 ltac:(lra))
    as Hf2.
  pose proof (rnd_between rnd Hrnd (y v + 2) 4 ltac:(lra)) as Ht1.
  pose proof (rnd_between rnd Hrnd (rnd (y v + 2) / 4) 1.01 ltac:(lra))
    as Ht2.
  set (f := rnd (rnd (x v + 1) / 2)) in *.
  set (t := rnd (rnd (y v + 2) / 4)) in *.
  (* where it is placed *)
  destruct (forward_accuracy rnd Math_tan Hrnd Htan f t ltac:(lra)
              ltac:(lra))
    as (_ & Hz & Hw & Hxd).
  cbv zeta in Hz, Hw, Hxd.
  destruct (radius_range rnd Hrnd t ltac:(lra)) as [Hrad _].
  rewrite <- Hz in Hrad. apply Rabs_le_inv in Hrad.
  set (d := logicalToDisplay rnd Math_tan (mkLogical f t)) in *.
  set (w := currentWidth rnd Math_tan (z d)) in *.
  set (r := x d / w) in *.
  assert (Hr : -1.03 <= r <= 1.03)
    by (apply Rabs_le_inv in Hxd; lra).
  assert (Hxdw : x d = w * r) by (subst r; field; lra).
  assert (Hxb : -11 <= x d <= 11) by (rewrite Hxdw; nra).
  (* what the store keeps of it *)
  pose proof (fround_between Math_fround (x d) 11 Hsingle Hxb) as Hxs.
  pose proof (fround_scaled Math_fround w r 1.03 Hsingle ltac:(lra)
                ltac:(apply Rabs_le; lra)) as Hxr.
  rewrite <- Hxdw in Hxr. apply Rabs_le_inv in Hxr.
  pose proof (fround_between Math_fround (z d) 10.1 Hsingle ltac:(lra))
    as Hzs.
  set (xs := Math_fround (x d)) in *.
  set (zs := Math_fround (z d)) in *.
  assert (Hzs' : -0.001 <= zs <= 10.1) by lra.
  pose proof (currentWidth_range rnd Math_tan Hrnd Htan zs Hzs') as Hws.
  pose proof (width_near rnd Math_tan Hrnd Htan zs (z d) 6.1e-7 Hzs'
                ltac:(lra) ltac:(apply Rabs_le; lra)) as Hww.
  fold w in Hww. apply Rabs_le_inv in Hww.
  set (ws := currentWidth rnd Math_tan zs) in *.
  assert (Hquot : Rabs (xs / ws - r) <= 6.2e-8 + 6.4e-7 / 0.28).
  { apply (quotient_within xs ws r 0.28 6.2e-8 6.4e-7); try lra.
    assert (Hdiff : xs - ws * r = (xs - x d) - (ws - w) * r)
      by (rewrite Hxdw; ring).
    rewrite Hdiff. apply Rabs_le.
    assert (Hprod : Rabs ((ws - w) * r) <= 6.2e-7 * 1.03)
      by (apply product_within; apply Rabs_le; lra).
    apply Rabs_le_inv in Hprod. lra. }
  apply Rabs_le_inv in Hquot.
  assert (Hfit : Rabs xs <= 1.05 * ws).
  { apply scaled_within; [lra |]. apply Rabs_le. lra. }
  destruct (backward_accuracy rnd Math_tan Hrnd Htan
              (mkDisplay xs 0 zs) Hzs' Hfit)
    as [Hfreq Htime].
  cbv zeta in Hfreq, Htime. cbn [x z] in Hfreq, Htime. fold ws in Hfreq.
  set (back := displayToLogical rnd Math_tan (mkDisplay xs 0 zs)) in *.
  assert (Hmid : Rabs (Rmax 0 (Rmin 1 (0.5 + xs / ws * 0.5))
                       - (x v + 1) / 2) <= 1.3e-6).
  { apply clamp_toward; [lra |].
    apply Rabs_le_inv in Hxd. apply Rabs_le. lra. }
  apply Rabs_le_inv in Hmid. apply Rabs_le_inv in Hfreq.
  pose proof (clamp_in_unit (rnd (zs / maxRadius))) as Htu.
  rewrite <- Htime in Htu.
  assert (Hfu : 0 <= frequency back <= 1).
  { subst back. unfold displayToLogical.
    destruct (Reqb _ 0); cbn [frequency];
      [lra | apply clamp_in_unit]. }
  split; [apply Rabs_le; lra |]. split; [| split; assumption].
  rewrite Htime. apply clamp_toward; [lra |].
  unfold maxRadius in *.
  pose proof (rnd_between rnd Hrnd (zs / 10) 1.01 ltac:(lra)) as Hlast.
  apply Rabs_le. lra.
Qed.

Lemma vertex_sampled_near_origin_witness :
  let rnd := fun v => v * (1 + / 2 ^ 54) in
  let Math_tan := fun _ : R => 0.5773502691896257 in
  let Math_fround := fun v => v * (1 - / 2 ^ 25) in
  let v := mkDisplay 0.5 (-1) 0 in
  roundsLikeBinary64 rnd /\ tangentInRange Math_tan /\
  roundsLikeBinary32 Math_fround /\
  -1 <= x v <= 1 /\ -2 <= y v <= 2 /\
  Rabs (frequency (sampledAt rnd Math_tan
                     (placeVertex rnd Math_tan Math_fround v))
        - (x v + 1) / 2) <= 2e-6.
Proof.
  cbv zeta. cbn [x y].
  assert (Hx : -1 <= 0.5 <= 1) by lra.
  assert (Hy : -2 <= -1 <= 2) by lra.
  split; [exact inflating_rounds |].
  split; [exact constant_tangent_in_range |].
  split; [exact chopping_rounds |].
  split; [exact Hx |]. split; [exact Hy |].
  apply (vertex_sampled_near_origin _ _ _ (mkDisplay 0.5 (-1) 0)
           inflating_rounds constant_tangent_in_range chopping_rounds
           Hx Hy).
Defined.

End ThreeJSSetupRoundedMore.

(** ** The mesh of the polar field *)

Module PolarThreeSetupMore.
Import PolarField PolarFieldOps PolarThreeSetup.

Lemma flat_map_nth_error {A B : Type} (f : A -> list B) (c : nat)
      (l : list A) :
  (forall a, List.length (f a) = c) ->
  forall (i j : nat) (a : A),
    (j < c)%nat -> nth_error l i = Some a ->
    nth_error (flat_map f l) (i * c + j) = nth_error (f a) j.
Proof.
  intros Hc. induction l as [| a0 l IH]; intros i j a Hj Ha.
  - destruct i; discriminate.
  - destruct i as [| i]; cbn [flat_map].
    + injection Ha as <-. cbn [Nat.mul Nat.add].
      apply nth_error_app1. rewrite Hc. exact Hj.
    + cbn [nth_error] in Ha.
      rewrite nth_error_app2 by (rewrite Hc; lia).
      rewrite Hc.
      replace (S i * c + j - c)%nat with (i * c + j)%nat by lia.
      apply IH; assumption.
Qed.

Lemma fieldVertices_length : List.length fieldVertices = (51 * 101)%nat.
Proof.
  unfold fieldVertices. cbv zeta.
  rewrite (flat_map_constant_length (c := 101)).
  - unfold upto. rewrite length_seq. reflexivity.
  - intros r _. rewrite length_map. unfold upto. apply length_seq.
Qed.

(** X24.  The mesh built by [createPolarFieldGeometry] is well formed: it
    has 51 x 101 vertices and 6 indices for each of the 50 x 100 quads,
    every index names a vertex of the mesh, and the vertex numbered
    [r * 101 + a], which is how the triangles address ring [r] and
    spoke [a], is the image under [polarToCartesian] of radius [r / 50]
    and of the angle [a / 100] of the way across the field. *)
Theorem field_mesh_well_formed :
  List.length fieldVertices = (51 * 101)%nat /\
  List.length fieldIndices = (50 * 100 * 6)%nat /\
  (forall i, In i fieldIndices -> (i < List.length fieldVertices)%nat) /\
  (forall r a, (r <= radialSegments)%nat -> (a <= angularSegments)%nat ->
     nth_error fieldVertices (r * (angularSegments + 1) + a)
     = Some (polarToCartesian
               (mkPolar (INR r / INR radialSegments)
                        (INR a / INR angularSegments * totalAngleSpan
                         - halfAngleSpan)))).
Proof.
  split; [exact fieldVertices_length |]. split; [| split].
  - unfold fieldIndices. cbv zeta.
    rewrite (flat_map_constant_length (c := 600)).
    + rewrite length_seq. reflexivity.
    + intros r _. rewrite (flat_map_constant_length (c := 6)).
      * rewrite length_seq. reflexivity.
      * intros a _. reflexivity.
  - intros i Hin. rewrite fieldVertices_length.
    unfold fieldIndices in Hin. cbv zeta in Hin.
    apply in_flat_map in Hin as (r & Hr & Hin).
    apply in_flat_map in Hin as (a & Ha & Hin).
    apply in_seq in Hr. apply in_seq in Ha.
    unfold radialSegments in Hr. unfold angularSegments in Ha, Hin.
    cbn [In] in Hin.
    destruct Hin as [<- | [<- | [<- | [<- | [<- | [<- | []]]]]]]; lia.
  - intros r a Hr Ha. unfold fieldVertices. cbv zeta.
    replace (angularSegments + 1)%nat with 101%nat by reflexivity.
    rewrite flat_map_nth_error with (c := 101%nat) (a := r).
    + unfold upto.
      rewrite nth_error_map, nth_error_nth' with (d := 0%nat)
        by (rewrite length_seq; unfold angularSegments in *; lia).
      rewrite seq_nth by (unfold angularSegments in *; lia).
      reflexivity.
    + intros r0. rewrite length_map. unfold upto. apply length_seq.
    + unfold angularSegments in Ha. lia.
    + unfold upto.
      rewrite nth_error_nth' with (d := 0%nat)
        by (rewrite length_seq; unfold radialSegments in *; lia).
      rewrite seq_nth by (unfold radialSegments in *; lia).
      reflexivity.
Qed.

(** *** The nearest vertex *)

Lemma nearestLoop_running (px pz : R) (vs : list Vertex) :
  forall (i : nat) (m : R) (idx : Z),
    let n := nearestLoop vs i (Some m) idx px pz in
    (n = idx /\ forall w, In w vs -> m <= squaredDistance w px pz) \/
    (exists k v,
        n = Z.of_nat (i + k) /\ nth_error vs k = Some v /\
        squaredDistance v px pz < m /\
        forall j w, nth_error vs j = Some w ->
          squaredDistance v px pz <= squaredDistance w px pz /\
          ((j < k)%nat ->
           squaredDistance v px pz < squaredDistance w px pz)).
Proof.
  induction vs as [| v rest IH]; intros i m idx n; subst n.
  - left. split; [reflexivity |]. intros w [].
  - cbn [nearestLoop closer].
    destruct (Rltb (squaredDistance v px pz) m) eqn:E.
    + apply Rltb_true in E.
      destruct (IH (S i) (squaredDistance v px pz) (Z.of_nat i))
        as [[Hn Hall] | (k & v' & Hn & Hk & Hlt & Hmin)].
      * right. exists 0%nat, v. rewrite Hn, Nat.add_0_r.
        split; [reflexivity |]. split; [reflexivity |].
        split; [exact E |].
        intros j w Hw. destruct j as [| j].
        -- injection Hw as <-. split; [lra | lia].
        -- cbn [nth_error] in Hw. apply nth_error_In in Hw.
           split; [apply Hall; exact Hw | lia].
      * right. exists (S k), v'. rewrite Hn.
        split; [f_equal; lia |]. split; [exact Hk |].
        split; [lra |].
        intros j w Hw. destruct j as [| j].
        -- injection Hw as <-. split; [lra | intros _; exact Hlt].
        -- cbn [nth_error] in Hw. destruct (Hmin j w Hw) as [H1 H2].
           split; [exact H1 | intros Hj; apply H2; lia].
    + apply Rltb_false in E.
      destruct (IH (S i) m idx)
        as [[Hn Hall] | (k & v' & Hn & Hk & Hlt & Hmin)].
      * left. split; [exact Hn |].
        intros w [<- | Hw]; [exact E | apply Hall; exact Hw].
      * right. exists (S k), v'. rewrite Hn.
        split; [f_equal; lia |]. split; [exact Hk |].
        split; [exact Hlt |].
        intros j w Hw. destruct j as [| j].
        -- injection Hw as <-. split; [lra | intros _; lra].
        -- cbn [nth_error] in Hw. destruct (Hmin j w Hw) as [H1 H2].
           split; [exact H1 | intros Hj; apply H2; lia].
Qed.

Lemma nearest_found (positions : list Vertex) (px pz : R) :
  positions <> [] ->
  exists i v,
    findNearestVertexIndex positions px pz = Z.of_nat i /\
    nth_error positions i = Some v /\
    forall j w, nth_error positions j = Some w ->
      squaredDistance v px pz <= squaredDistance w px pz /\
      ((j < i)%nat -> squaredDistance v px pz < squaredDistance w px pz).
Proof.
  destruct positions as [| v rest]; [congruence | intros _].
  unfold findNearestVertexIndex. cbn [nearestLoop closer].
  destruct (nearestLoop_running px pz rest 1 (squaredDistance v px pz) 0%Z)
    as [[Hn Hall] | (k & v' & Hn & Hk & Hlt & Hmin)].
  - exists 0%nat, v. split; [exact Hn |]. split; [reflexivity |].
    intros j w Hw. destruct j as [| j].
    + injection Hw as <-. split; [lra | lia].
    + cbn [nth_error] in Hw. apply nth_error_In in Hw.
      split; [apply Hall; exact Hw | lia].
  - exists (S k), v'. split; [exact Hn |]. split; [exact Hk |].
    intros j w Hw. destruct j as [| j].
    + injection Hw as <-. split; [lra | intros _; exact Hlt].
    + cbn [nth_error] in Hw. destruct (Hmin j w Hw) as [H1 H2].
      split; [exact H1 | intros Hj; apply H2; lia].
Qed.

(** X25.  [findNearestVertexIndex] answers -1 on a mesh without vertices
    and otherwise the index of a vertex whose distance to the point, seen
    from above, is the least of the mesh; of several vertices at that
    least distance it names the first. *)
Theorem nearest_vertex (positions : list Vertex) (px pz : R) :
  (positions = [] -> findNearestVertexIndex positions px pz = (-1)%Z) /\
  (positions <> [] ->
   exists i v,
     findNearestVertexIndex positions px pz = Z.of_nat i /\
     nth_error positions i = Some v /\
     forall j w, nth_error positions j = Some w ->
       squaredDistance v px pz <= squaredDistance w px pz /\
       ((j < i)%nat ->
        squaredDistance v px pz < squaredDistance w px pz)).
Proof.
  split.
  - intros ->. reflexivity.
  - apply nearest_found.
Qed.

(** *** Frames on the mesh *)

Lemma nearestLoop_ground (px pz : R) (p q : list Vertex) :
  sameGround p q ->
  forall i m idx,
    nearestLoop q i m idx px pz = nearestLoop p i m idx px pz.
Proof.
  intros H. induction H as [| v w p q [Hx Hz] _ IH]; intros i m idx.
  - reflexivity.
  - cbn [nearestLoop]. unfold squaredDistance. rewrite Hx, Hz.
    destruct (closer _ m); apply IH.
Qed.

Lemma sameGround_refl (p : list Vertex) : sameGround p p.
Proof. induction p; constructor; auto. Qed.

Lemma raisedFrom_refl (p : list Vertex) : raisedFrom p p.
Proof. induction p; constructor; auto. repeat split; lra. Qed.

Lemma raisedFrom_trans (p q r : list Vertex) :
  raisedFrom p q -> raisedFrom q r -> raisedFrom p r.
Proof.
  intros H. revert r. induction H as [| v w p q (Hx & Hz & Hy) _ IH];
    intros r Hr; inversion Hr as [| w' u q' r' (Hx' & Hz' & Hy') Hr'];
    subst; constructor.
  - repeat split; [congruence | congruence | lra].
  - apply IH. exact Hr'.
Qed.

Lemma raisedFrom_ground (p q : list Vertex) :
  raisedFrom p q -> sameGround p q.
Proof.
  intros H. induction H as [| v w p q (Hx & Hz & _) _ IH];
    constructor; auto.
Qed.

Lemma sameGround_trans (p q r : list Vertex) :
  sameGround p q -> sameGround q r -> sameGround p r.
Proof.
  intros H. revert r. induction H as [| v w p q (Hx & Hz) _ IH];
    intros r Hr; inversion Hr as [| w' u q' r' (Hx' & Hz') Hr'];
    subst; constructor.
  - split; congruence.
  - apply IH. exact Hr'.
Qed.

Lemma sameGround_maps (p q : list Vertex) :
  sameGround p q -> map x q = map x p /\ map z q = map z p.
Proof.
  intros H. induction H as [| v w p q (Hx & Hz) _ [IHx IHz]].
  - split; reflexivity.
  - cbn [map]. rewrite Hx, Hz, IHx, IHz. split; reflexivity.
Qed.

Lemma raisedFrom_nth (p q : list Vertex) (i : nat) (v : Vertex) :
  raisedFrom p q -> nth_error p i = Some v ->
  exists w, nth_error q i = Some w /\ y v <= y w.
Proof.
  intros H. revert i. induction H as [| v0 w p q (_ & _ & Hy) _ IH];
    intros i Hv.
  - destruct i; discriminate.
  - destruct i as [| i].
    + injection Hv as <-. exists w. split; [reflexivity | exact Hy].
    + cbn [nth_error] in *. apply IH. exact Hv.
Qed.

Lemma bilateral_height (spectrogram : SpectrogramData) (point : Vertex) :
  In point (createBilateralSpectrogram spectrogram) ->
  In (y point) (frequencyBins spectrogram).
Proof.
  unfold createBilateralSpectrogram. cbv zeta. intros Hin.
  apply in_flat_map in Hin as ([k amp] & Hk & Hin).
  apply in_combine_r in Hk.
  destruct Hin as [<- | [<- | []]]; exact Hk.
Qed.

Section Store.
Variable Math_fround : R -> R.
Hypothesis Hstore : storesSinglePrecision Math_fround.

Lemma reset_ground (p : list Vertex) :
  sameGround p (map (fun v => setY v (Math_fround 0)) p).
Proof. induction p; constructor; auto. Qed.

Lemma reset_stored (p : list Vertex) :
  Forall (fun v => Math_fround (y v) = y v)
         (map (fun v => setY v (Math_fround 0)) p).
Proof.
  destruct Hstore as (_ & _ & Hidem).
  induction p; constructor; auto. unfold setY. cbn [y]. apply Hidem.
Qed.

(** A height that is written is at least the height that was there,
    because that one had been rounded already. *)
Lemma raiseAt_raised (p : list Vertex) (i : nat) (h : R) :
  Forall (fun v => Math_fround (y v) = y v) p ->
  raisedFrom p (raiseAt Math_fround p i h) /\
  Forall (fun v => Math_fround (y v) = y v) (raiseAt Math_fround p i h).
Proof.
  destruct Hstore as (_ & Hmono & Hidem).
  intros Hp. revert i. induction Hp as [| v p Hv Hp IH]; intros i.
  - split; constructor.
  - destruct i as [| i]; cbn [raiseAt].
    + split; constructor.
      * unfold setY. cbn [x y z]. repeat split.
        rewrite <- Hv at 1. apply Hmono, Rmax_l.
      * apply raisedFrom_refl.
      * unfold setY. cbn [y]. apply Hidem.
      * exact Hp.
    + destruct (IH i) as [IH1 IH2]. split; constructor; auto.
      repeat split; lra.
Qed.

Lemma raiseAt_nth (p : list Vertex) (i : nat) (h : R) (v : Vertex) :
  nth_error p i = Some v ->
  exists w, nth_error (raiseAt Math_fround p i h) i = Some w /\
            Math_fround h <= y w.
Proof.
  destruct Hstore as (_ & Hmono & _).
  revert i. induction p as [| v0 p IH]; intros i Hv.
  - destruct i; discriminate.
  - destruct i as [| i]; cbn [raiseAt nth_error] in *.
    + eexists. split; [reflexivity |]. unfold setY. cbn [y].
      apply Hmono, Rmax_r.
    + apply IH. exact Hv.
Qed.

Lemma applyPoint_raised (p : list Vertex) (point : Vertex) :
  Forall (fun v => Math_fround (y v) = y v) p ->
  raisedFrom p (applyPoint Math_fround p point) /\
  Forall (fun v => Math_fround (y v) = y v)
         (applyPoint Math_fround p point).
Proof.
  intros Hp. unfold applyPoint. cbv zeta.
  destruct (0 <=? _)%Z; [apply raiseAt_raised; exact Hp |].
  split; [apply raisedFrom_refl | exact Hp].
Qed.

Lemma points_raise (points : list Vertex) (p : list Vertex) :
  Forall (fun v => Math_fround (y v) = y v) p ->
  raisedFrom p (fold_left (applyPoint Math_fround) points p) /\
  Forall (fun v => Math_fround (y v) = y v)
         (fold_left (applyPoint Math_fround) points p).
Proof.
  revert p. induction points as [| point points IH]; intros p Hp.
  - split; [apply raisedFrom_refl | exact Hp].
  - cbn [fold_left].
    destruct (applyPoint_raised p point Hp) as [H1 H2].
    destruct (IH _ H2) as [H3 H4].
    split; [| exact H4].
    apply (raisedFrom_trans _ (applyPoint Math_fround p point));
      assumption.
Qed.

(** The two nested [forEach] loops visit the points of all the frames in
    one sequence. *)
Lemma frames_flatten (data : SpectrogramMap) (p : list Vertex) :
  fold_left
    (fun positions entry =>
       fold_left (applyPoint Math_fround)
                 (createBilateralSpectrogram (snd entry)) positions)
    data p
  = fold_left (applyPoint Math_fround)
      (flat_map (fun entry => createBilateralSpectrogram (snd entry)) data)
      p.
Proof.
  revert p. induction data as [| entry data IH]; intros p.
  - reflexivity.
  - cbn [fold_left flat_map]. rewrite fold_left_app. apply IH.
Qed.

Lemma raiseAt_bounded (p : list Vertex) (i : nat) (h M : R) :
  h <= M ->
  Forall (fun v => 0 <= y v <= Math_fround M) p ->
  Forall (fun v => 0 <= y v <= Math_fround M) (raiseAt Math_fround p i h).
Proof.
  destruct Hstore as (Hzero & Hmono & Hidem).
  intros Hh H. revert i. induction H as [| v p [H0 H1] Hp IH]; intros i.
  - constructor.
  - destruct i as [| i]; cbn [raiseAt]; constructor; auto.
    unfold setY. cbn [y]. split.
    + rewrite <- Hzero. apply Hmono.
      apply Rle_trans with (y v); [exact H0 | apply Rmax_l].
    + unfold Rmax. destruct (Rle_dec (y v) h).
      * apply Hmono. exact Hh.
      * rewrite <- (Hidem M). apply Hmono. exact H1.
Qed.

Lemma points_bounded (points : list Vertex) (M : R) :
  (forall point, In point points -> y point <= M) ->
  forall p,
    Forall (fun v => 0 <= y v <= Math_fround M) p ->
    Forall (fun v => 0 <= y v <= Math_fround M)
           (fold_left (applyPoint Math_fround) points p).
Proof.
  induction points as [| point points IH]; intros Hpts p Hp.
  - exact Hp.
  - cbn [fold_left]. apply IH.
    + intros q Hq. apply Hpts. right. exact Hq.
    + unfold applyPoint. cbv zeta. destruct (0 <=? _)%Z; [| exact Hp].
      apply raiseAt_bounded; [| exact Hp]. apply Hpts. left. reflexivity.
Qed.

Lemma updateFieldGeometry_ground (data : SpectrogramMap)
      (p : list Vertex) :
  sameGround p (updateFieldGeometry Math_fround data p).
Proof.
  unfold updateFieldGeometry. cbv zeta. rewrite frames_flatten.
  apply (sameGround_trans _ (map (fun v => setY v (Math_fround 0)) p));
    [apply reset_ground |].
  apply raisedFrom_ground, points_raise, reset_stored.
Qed.

Lemma reset_of_ground (p q : list Vertex) :
  sameGround p q ->
  map (fun v => setY v (Math_fround 0)) q
  = map (fun v => setY v (Math_fround 0)) p.
Proof.
  intros H. induction H as [| v w p q (Hx & Hz) _ IH].
  - reflexivity.
  - cbn [map]. rewrite IH. unfold setY. rewrite Hx, Hz. reflexivity.
Qed.

End Store.

(** An instance of the assumption: a store that keeps 24 binary digits
    after the point and drops the rest. *)
Lemma chopping_stores :
  storesSinglePrecision (fun v => IZR (Zfloor (v * 16777216)) / 16777216).
Proof.
  repeat split.
  - rewrite Rmult_0_l. change 0 with (IZR 0) at 1. rewrite ZfloorZ. lra.
  - intros a b Hab.
    assert (H : (Zfloor (a * 16777216) <= Zfloor (b * 16777216))%Z)
      by (apply Zfloor_le; lra).
    apply IZR_le in H. lra.
  - intros a.
    replace (IZR (Zfloor (a * 16777216)) / 16777216 * 16777216)
      with (IZR (Zfloor (a * 16777216))) by lra.
    rewrite ZfloorZ. reflexivity.
Qed.

(** X26.  What [updateFieldGeometry] does to the mesh.  It moves no vertex
    sideways or in depth; when every stored amplitude is at most [M], it
    leaves every vertex at a height between 0 and [M] as single precision
    holds it; and heights do not pile up from one call to the next:
    running it again on its own result changes nothing. *)
Theorem field_heights_bounded (Math_fround : R -> R)
        (data : SpectrogramMap) (positions : list Vertex) (M : R) :
  storesSinglePrecision Math_fround ->
  0 <= M ->
  (forall entry amplitude,
      In entry data -> In amplitude (frequencyBins (snd entry)) ->
      amplitude <= M) ->
  let positions' := updateFieldGeometry Math_fround data positions in
  map x positions' = map x positions /\
  map z positions' = map z positions /\
  (forall v, In v positions' -> 0 <= y v <= Math_fround M) /\
  updateFieldGeometry Math_fround data positions' = positions'.
Proof.
  intros Hstore HM Hdata positions'. subst positions'.
  pose proof (updateFieldGeometry_ground Math_fround Hstore data positions)
    as Hground.
  destruct (sameGround_maps _ _ Hground) as [Hx Hz].
  split; [exact Hx |]. split; [exact Hz |]. split.
  - apply Forall_forall.
    unfold updateFieldGeometry. cbv zeta. rewrite frames_flatten.
    apply (points_bounded Math_fround Hstore).
    + intros point Hin.
      apply in_flat_map in Hin as (entry & Hentry & Hin).
      apply (Hdata entry); [exact Hentry |].
      apply bilateral_height. exact Hin.
    + destruct Hstore as (Hzero & Hmono & _).
      apply Forall_forall. intros v Hv.
      apply in_map_iff in Hv as (v0 & <- & _).
      unfold setY. cbn [y]. rewrite Hzero. split; [lra |].
      rewrite <- Hzero at 1. apply Hmono. exact HM.
  - unfold updateFieldGeometry at 1. cbv zeta.
    rewrite (reset_of_ground Math_fround _ _ Hground). reflexivity.
Qed.

Lemma field_heights_bounded_witness :
  let Math_fround := fun v => IZR (Zfloor (v * 16777216)) / 16777216 in
  let data := [(3, mkSpectrogram 3 [0.5; 1])] in
  let positions := [mkCartesian 0 7 0; mkCartesian 1 7 1] in
  storesSinglePrecision Math_fround /\ 0 <= 1 /\
  updateFieldGeometry Math_fround data
    (updateFieldGeometry Math_fround data positions)
  = updateFieldGeometry Math_fround data positions.
Proof.
  cbv zeta. split; [exact chopping_stores |]. split; [lra |].
  apply (field_heights_bounded _
           [(3, mkSpectrogram 3 [0.5; 1])]
           [mkCartesian 0 7 0; mkCartesian 1 7 1] 1 chopping_stores).
  - lra.
  - intros entry amplitude [<- | []] Hin. cbn [snd frequencyBins In] in Hin.
    destruct Hin as [<- | [<- | []]]; lra.
Defined.

(** X27.  A stored frame shows on the mesh.  For every point that
    [createBilateralSpectrogram] makes of a stored frame, the vertex that
    [findNearestVertexIndex] names for it ends, after
    [updateFieldGeometry], at least as high as the amplitude of the
    point as single precision holds it. *)
Theorem frame_shows_on_mesh (Math_fround : R -> R)
        (data : SpectrogramMap) (positions : list Vertex)
        (entry : R * SpectrogramData) (point : Vertex) :
  storesSinglePrecision Math_fround ->
  positions <> [] ->
  In entry data ->
  In point (createBilateralSpectrogram (snd entry)) ->
  exists i v,
    findNearestVertexIndex positions (x point) (z point) = Z.of_nat i /\
    nth_error (updateFieldGeometry Math_fround data positions) i = Some v /\
    Math_fround (y point) <= y v.
Proof.
  intros Hstore Hne Hentry Hpoint.
  destruct (nearest_found positions (x point) (z point) Hne)
    as (i & v0 & Hi & Hv0 & _).
  exists i. unfold updateFieldGeometry. cbv zeta. rewrite frames_flatten.
  set (p0 := map (fun v => setY v (Math_fround 0)) positions).
  assert (Hp0 : Forall (fun v => Math_fround (y v) = y v) p0)
    by (apply reset_stored; exact Hstore).
  assert (Hin : In point
                   (flat_map (fun e => createBilateralSpectrogram (snd e))
                             data)).
  { apply in_flat_map. exists entry. split; assumption. }
  apply in_split in Hin as (l1 & l2 & ->).
  rewrite fold_left_app. cbn [fold_left].
  destruct (points_raise Math_fround Hstore l1 p0 Hp0) as [Hr1 Hs1].
  set (p1 := fold_left (applyPoint Math_fround) l1 p0) in *.
  assert (Hg1 : sameGround positions p1).
  { apply (sameGround_trans _ p0); [apply reset_ground |].
    apply raisedFrom_ground. exact Hr1. }
  assert (Hnear :
    findNearestVertexIndex p1 (x point) (z point) = Z.of_nat i).
  { unfold findNearestVertexIndex.
    rewrite (nearestLoop_ground _ _ _ _ Hg1). exact Hi. }
  assert (Hv1 : exists v1, nth_error p1 i = Some v1).
  { assert (Hlen : List.length positions = List.length p1)
      by (eapply Forall2_length; exact Hg1).
    destruct (nth_error p1 i) eqn:E; [eexists; reflexivity |].
    apply nth_error_None in E.
    assert ((i < List.length positions)%nat)
      by (apply nth_error_Some; congruence).
    lia. }
  destruct Hv1 as (v1 & Hv1).
  assert (Hstep : applyPoint Math_fround p1 point
                  = raiseAt Math_fround p1 i (y point)).
  { unfold applyPoint. cbv zeta. rewrite Hnear.
    replace (0 <=? Z.of_nat i)%Z with true
      by (symmetry; apply Z.leb_le; lia).
    rewrite Nat2Z.id. reflexivity. }
  rewrite Hstep.
  destruct (raiseAt_nth Math_fround Hstore p1 i (y point) v1 Hv1)
    as (w & Hw & Hyw).
  destruct (raiseAt_raised Math_fround Hstore p1 i (y point) Hs1)
    as [_ Hs2].
  destruct (points_raise Math_fround Hstore l2 _ Hs2) as [Hr2 _].
  destruct (raisedFrom_nth _ _ i w Hr2 Hw) as (w' & Hw' & Hyw').
  exists w'. split; [exact Hi |]. split; [exact Hw' | lra].
Qed.

Lemma frame_shows_on_mesh_witness :
  let Math_fround := fun v => IZR (Zfloor (v * 16777216)) / 16777216 in
  let data := [(3, mkSpectrogram 3 [0.7])] in
  let positions := [mkCartesian 0 0 0] in
  let point := setY (polarToCartesian
                       (mkPolar (timeToRadius 3)
                                (frequencyToAngle (INR 0)))) 0.7 in
  storesSinglePrecision Math_fround /\
  exists i v,
    findNearestVertexIndex positions (x point) (z point) = Z.of_nat i /\
    nth_error (updateFieldGeometry Math_fround data positions) i = Some v /\
    Math_fround (y point) <= y v.
Proof.
  cbv zeta. split; [exact chopping_stores |].
  apply (frame_shows_on_mesh _
           [(3, mkSpectrogram 3 [0.7])] [mkCartesian 0 0 0]
           (3, mkSpectrogram 3 [0.7]) _ chopping_stores).
  - discriminate.
  - left. reflexivity.
  - left. reflexivity.
Defined.

(** *** Frames by time index *)

Lemma mapGet_set_same (m : SpectrogramMap) (key : R)
      (value : SpectrogramData) :
  mapGet (mapSet m key value) key = Some value.
Proof.
  induction m as [| [k v] m IH]; cbn [mapSet mapGet].
  - rewrite (proj2 (Reqb_true key key) eq_refl). reflexivity.
  - destruct (Reqb k key) eqn:E; cbn [mapGet]; rewrite E;
      [reflexivity | exact IH].
Qed.

Lemma mapGet_set_other (m : SpectrogramMap) (key other : R)
      (value : SpectrogramData) :
  other <> key ->
  mapGet (mapSet m key value) other = mapGet m other.
Proof.
  intros Hne. induction m as [| [k v] m IH]; cbn [mapSet mapGet].
  - rewrite (proj2 (Reqb_false key other)) by congruence. reflexivity.
  - destruct (Reqb k key) eqn:E; cbn [mapGet].
    + apply Reqb_true in E. subst k.
      rewrite (proj2 (Reqb_false key other)) by congruence. reflexivity.
    + rewrite IH. reflexivity.
Qed.

Lemma showFrames_other (Math_fround : R -> R)
      (spectrograms : list SpectrogramData) (t : R) :
  (forall f, In f spectrograms -> timeIndex f <> t) ->
  forall s,
    mapGet (spectrogramData (showFrames Math_fround spectrograms s)) t
    = mapGet (spectrogramData s) t.
Proof.
  induction spectrograms as [| f rest IH]; intros Hall s.
  - reflexivity.
  - change (showFrames Math_fround (f :: rest) s)
      with (showFrames Math_fround rest
              (addSpectrogram Math_fround (timeIndex f)
                              (frequencyBins f) s)).
    rewrite IH by (intros g Hg; apply Hall; right; exact Hg).
    unfold addSpectrogram. cbn [spectrogramData].
    apply mapGet_set_other. intros Heq. apply (Hall f); [left |]; auto.
Qed.

(** X28.  One frame per time index, and the last one wins.  When the
    animation loop hands a list of frames to [addSpectrogram], the frame
    the field keeps for a time index is the last frame of the list with
    that index: an earlier frame with the same index, such as the frame
    of another wave of the same age, is replaced, not added to. *)
Theorem last_frame_wins (Math_fround : R -> R)
        (before after : list SpectrogramData)
        (frame : SpectrogramData) (s : State) :
  (forall f, In f after -> timeIndex f <> timeIndex frame) ->
  mapGet (spectrogramData
            (showFrames Math_fround (before ++ frame :: after) s))
         (timeIndex frame)
  = Some frame.
Proof.
  intros Hafter.
  assert (Hsplit :
    showFrames Math_fround (before ++ frame :: after) s
    = showFrames Math_fround after
        (addSpectrogram Math_fround (timeIndex frame)
                        (frequencyBins frame)
                        (showFrames Math_fround before s))).
  { unfold showFrames. rewrite fold_left_app. reflexivity. }
  rewrite Hsplit.
  rewrite (showFrames_other Math_fround after (timeIndex frame) Hafter).
  unfold addSpectrogram. cbn [spectrogramData].
  rewrite mapGet_set_same. destruct frame. reflexivity.
Qed.

Lemma last_frame_wins_witness :
  mapGet (spectrogramData
            (showFrames (fun v => IZR (Zfloor (v * 16777216)) / 16777216)
                        ([mkSpectrogram 3 [0.5]]
                           ++ mkSpectrogram 3 [1] :: [])
                        (mkState [] [])))
         3
  = Some (mkSpectrogram 3 [1]).
Proof.
  apply (last_frame_wins _ [mkSpectrogram 3 [0.5]] []
                         (mkSpectrogram 3 [1]) (mkState [] [])).
  intros f [].
Defined.

End PolarThreeSetupMore.
